(** * A model of the push-based reactive streams of [src/main.ts]

    The TypeScript program builds streams out of closures: a [Signal] is a
    [subscribe] function, callbacks are arrow functions stored in JavaScript
    [Set]s, and asynchrony comes from promises and [queueMicrotask].

    The embedding keeps the program's structure and makes its run-time
    objects explicit:
    - every closure the source creates is a constructor that carries the
      variables the closure captures, and the identity the [Set]s compare;
    - objects ([Subject]s, promises, the counter of [merge]) live in a
      store indexed by reference, threaded through a state monad;
    - [queueMicrotask] and the reactions of promises go to one FIFO queue
      of jobs, which [run] drains as the host's event loop does;
    - the callbacks handed in by the outermost caller record what they
      receive in a trace, so that what a subscriber observes is a list.

    TypeScript erases its type parameters; one payload type [T] stands for
    the [T] and [U] of the source. *)

From Stdlib Require Import ZArith List Bool Lia.
From stdpp Require Import base list.
Import ListNotations.

Set Warnings "-register-all".

(** ** Function identity *)

(** A JavaScript [Set] of functions compares its members by reference.
    [External k] is a function the caller of the library owns; [Closure n]
    is the [n]-th function object created by the library itself (an arrow
    function or a [bind]). *)
Inductive FnId : Type :=
| External (k : nat)
| Closure (n : nat).

Definition FnId_eqb (a b : FnId) : bool :=
  match a, b with
  | External j, External k => Nat.eqb j k
  | Closure m, Closure n => Nat.eqb m n
  | _, _ => false
  end.

Section Observable.

Context {T : Type}.

(** ** Closures *)

(** [type Dispatch<T> = (payload: T) => void]: the value callbacks. *)
Inductive Dispatch : Type :=
| DUser (k : nat)
    (* a callback of the caller; it records the payload it is given *)
| DMap (n : nat) (fn : T -> T) (dispatch : Dispatch)
    (* map:    (payload) => { dispatch(fn(payload)); } *)
| DFilter (n : nat) (fn : T -> bool) (dispatch : Dispatch)
    (* filter: (payload) => { if (fn(payload)) dispatch(payload); } *)
| DBound (n : nat) (source : nat).
    (* loop:   source.dispatch.bind(source) *)

(** [type Complete = () => void]: the completion callbacks. *)
Inductive Complete : Type :=
| CUser (k : nat)
    (* a callback of the caller; it records that it was called *)
| CBound (n : nat) (source : nat)
    (* loop:  source.complete.bind(source) *)
| CMerge (n : nat) (cell : nat) (complete : Complete).
    (* merge: () => { if (--counter <= 0 && !completed) { complete(); completed = true; } }
       [cell] is the reference of the captured [counter] and [completed] *)

(** [type Unsubscribe = () => void]. *)
Inductive Unsubscribe : Type :=
| UNoop
    (* of:      () => {} *)
| USubject (s : nat) (dispatch : Dispatch) (complete : Complete)
    (* Subject: () => { this.dispatchs.delete(dispatch); this.completes.delete(complete); } *)
| UMerge (unsubs : list Unsubscribe)
    (* merge:   () => { unsubs.forEach((unsub) => { unsub(); }); } *)
| ULoop (source : nat) (unsubSink : Unsubscribe).
    (* loop:    () => { source.complete(); unsubSink(); } *)

Definition Dispatch_id (d : Dispatch) : FnId :=
  match d with
  | DUser k => External k
  | DMap n _ _ => Closure n
  | DFilter n _ _ => Closure n
  | DBound n _ => Closure n
  end.

Definition Complete_id (c : Complete) : FnId :=
  match c with
  | CUser k => External k
  | CBound n _ => Closure n
  | CMerge n _ _ => Closure n
  end.

(** ** Signals *)

(** [class Signal<T>]: the [subscribe] function a signal is constructed
    with, one constructor per place of the source that builds one. The
    handler of [loop] is applied to [new Subject<T>()] only, so it takes the
    reference of that subject. *)
Inductive Signal : Type :=
| Signal_map (fn : T -> T) (this : Signal)
| Signal_filter (fn : T -> bool) (this : Signal)
| Signal_loop (handler : nat -> Signal)
| Signal_of (payloads : list T)
| Signal_merge (signals : list Signal)
| Subject (s : nat).

(** ** Promises and jobs *)

(** What the promises of the program are fulfilled with: [void] for
    [Subject.dispatch] and [Subject.complete], an [Unsubscribe] for
    [subscribe], an array of them for [Promise.all]. *)
Inductive Value : Type :=
| VVoid
| VUnsub (u : Unsubscribe)
| VUnsubs (us : list Unsubscribe).

(** The rest of an [async] function after an [await], and the element
    function [Promise.all] attaches to each of its inputs. *)
Inductive Cont : Type :=
| KLoopHandler (source : nat) (handler : nat -> Signal) (result : nat)
    (* loop, after [await source.subscribe(dispatch, complete)] *)
| KLoopReturn (source : nat) (result : nat)
    (* loop, after [await sink.subscribe(...)] *)
| KMergeReturn (result : nat)
    (* merge, after [await Promise.all(...)] *)
| KAllElement (all : nat) (index : nat) (result : nat).
    (* Promise.all: stores the value of input [index] *)

Inductive PromiseState : Type :=
| Pending (reactions : list Cont)
| Fulfilled (v : Value).

(** The jobs of the microtask queue. *)
Inductive Microtask : Type :=
| MDispatch (s : nat) (payload : T) (promise : nat)
    (* the function [Subject.dispatch] gives to queueMicrotask *)
| MComplete (s : nat) (promise : nat)
    (* the function [Subject.complete] gives to queueMicrotask *)
| MReaction (k : Cont) (v : Value).
    (* a promise reaction *)

(** What an observer can see. *)
Inductive Event : Type :=
| Received (k : nat) (payload : T)
| Completed (k : nat)
| Resolved (promise : nat).

(** ** The store *)

(** [class Subject]: its two private [Set]s, in insertion order (the order
    [Set.prototype.forEach] visits them in). *)
Record SubjectObj : Type := mkSubject {
  dispatchs : list Dispatch;
  completes : list Complete
}.

(** The variables [counter] and [completed] one subscription to a merged
    signal shares between its completion closures. *)
Record MergeCell : Type := mkCell {
  counter : Z;
  completed : bool
}.

(** The bookkeeping of one [Promise.all] call. *)
Record AllObj : Type := mkAll {
  values : list (option Unsubscribe);
  remaining : nat
}.

Record State : Type := mkState {
  subjects : list SubjectObj;
  promises : list PromiseState;
  cells : list MergeCell;
  alls : list AllObj;
  queue : list Microtask;
  trace : list Event;
  next_fn : nat
}.

Definition init : State := mkState [] [] [] [] [] [] 0.

Definition set_subjects (x : list SubjectObj) (st : State) : State :=
  mkState x (promises st) (cells st) (alls st) (queue st) (trace st) (next_fn st).
Definition set_promises (x : list PromiseState) (st : State) : State :=
  mkState (subjects st) x (cells st) (alls st) (queue st) (trace st) (next_fn st).
Definition set_cells (x : list MergeCell) (st : State) : State :=
  mkState (subjects st) (promises st) x (alls st) (queue st) (trace st) (next_fn st).
Definition set_alls (x : list AllObj) (st : State) : State :=
  mkState (subjects st) (promises st) (cells st) x (queue st) (trace st) (next_fn st).
Definition set_queue (x : list Microtask) (st : State) : State :=
  mkState (subjects st) (promises st) (cells st) (alls st) x (trace st) (next_fn st).
Definition set_trace (x : list Event) (st : State) : State :=
  mkState (subjects st) (promises st) (cells st) (alls st) (queue st) x (next_fn st).
Definition set_next_fn (x : nat) (st : State) : State :=
  mkState (subjects st) (promises st) (cells st) (alls st) (queue st) (trace st) x.

(** ** The state monad *)

Definition M (A : Type) : Type := State -> A * State.

Definition ret {A : Type} (a : A) : M A := fun st => (a, st).

Definition bind {A B : Type} (m : M A) (f : A -> M B) : M B :=
  fun st => f (fst (m st)) (snd (m st)).

Definition exec {A : Type} (m : M A) (st : State) : State := snd (m st).
Definition eval {A : Type} (m : M A) (st : State) : A := fst (m st).

Notation "x <- m ;; k" := (bind m (fun x => k))
  (at level 60, m at next level, right associativity).
Notation "m ;;; k" := (bind m (fun _ => k))
  (at level 60, right associativity).

Definition modify (f : State -> State) : M unit := fun st => (tt, f st).

(** [forEach] over an array or over the members of a [Set]. *)
Fixpoint forEach {A : Type} (f : A -> M unit) (l : list A) : M unit :=
  match l with
  | [] => ret tt
  | a :: l' => f a ;;; forEach f l'
  end.

Definition log (e : Event) : M unit :=
  modify (fun st => set_trace (trace st ++ [e]) st).

Definition queueMicrotask (m : Microtask) : M unit :=
  modify (fun st => set_queue (queue st ++ [m]) st).

(** The next function object the library creates. *)
Definition new_closure : M nat :=
  fun st => (next_fn st, set_next_fn (S (next_fn st)) st).

(** ** Promises *)

Definition new_promise (p : PromiseState) : M nat :=
  fun st => (length (promises st), set_promises (promises st ++ [p]) st).

(** Fulfil a pending promise: its reactions become jobs, in the order they
    were attached. Resolving a settled promise does nothing. *)
Definition resolve (p : nat) (v : Value) : M unit :=
  fun st =>
    match promises st !! p with
    | Some (Pending ks) =>
        (tt, set_trace (trace st ++ [Resolved p])
               (set_queue (queue st ++ map (fun k => MReaction k v) ks)
                  (set_promises (<[p := Fulfilled v]> (promises st)) st)))
    | _ => (tt, st)
    end.

(** [p.then(k)], which is also what [await p] does with the rest of the
    function: a job at once when [p] is fulfilled, a reaction otherwise. *)
Definition then_ (p : nat) (k : Cont) : M unit :=
  fun st =>
    match promises st !! p with
    | Some (Fulfilled v) => queueMicrotask (MReaction k v) st
    | Some (Pending ks) =>
        (tt, set_promises (<[p := Pending (ks ++ [k])]> (promises st)) st)
    | None => (tt, st)
    end.

(** [Promise.all(ps)]: fulfilled at once with [[]] for no input, otherwise
    when the element function of every input has run. *)
Definition Promise_all (ps : list nat) : M nat :=
  match ps with
  | [] => new_promise (Fulfilled (VUnsubs []))
  | _ =>
      result <- new_promise (Pending []) ;;
      all <- (fun st => (length (alls st),
                set_alls (alls st ++ [mkAll (replicate (length ps) None) (length ps)]) st)) ;;
      forEach (fun ip => then_ (snd ip) (KAllElement all (fst ip) result))
              (combine (seq 0 (length ps)) ps) ;;;
      ret result
  end.

(** ** Sets of callbacks *)

(** [Set.prototype.add]: a member that is already there stays where it is. *)
Definition Set_add {A : Type} (id : A -> FnId) (x : A) (l : list A) : list A :=
  if existsb (fun y => FnId_eqb (id y) (id x)) l then l else l ++ [x].

(** [Set.prototype.delete]. *)
Definition Set_delete {A : Type} (id : A -> FnId) (x : A) (l : list A) : list A :=
  List.filter (fun y => negb (FnId_eqb (id y) (id x))) l.

Definition get_dispatchs (s : nat) : M (list Dispatch) :=
  fun st => (match subjects st !! s with Some o => dispatchs o | None => [] end, st).

Definition get_completes (s : nat) : M (list Complete) :=
  fun st => (match subjects st !! s with Some o => completes o | None => [] end, st).

Definition update_subject (s : nat) (f : SubjectObj -> SubjectObj) : M unit :=
  modify (fun st =>
    match subjects st !! s with
    | Some o => set_subjects (<[s := f o]> (subjects st)) st
    | None => st
    end).

(** ** class Subject *)

(** [new Subject<T>()]. *)
Definition new_Subject : M nat :=
  fun st => (length (subjects st), set_subjects (subjects st ++ [mkSubject [] []]) st).

(** The [subscribe] function [Subject]'s constructor passes to [super]. *)
Definition Subject_subscribe (s : nat) (dispatch : Dispatch) (complete : Complete)
  : M nat :=
  update_subject s (fun o => mkSubject (Set_add Dispatch_id dispatch (dispatchs o)) (completes o)) ;;;
  update_subject s (fun o => mkSubject (dispatchs o) (Set_add Complete_id complete (completes o))) ;;;
  new_promise (Fulfilled (VUnsub (USubject s dispatch complete))).

(** [Subject.dispatch(payload)]. *)
Definition Subject_dispatch (s : nat) (payload : T) : M nat :=
  p <- new_promise (Pending []) ;;
  queueMicrotask (MDispatch s payload p) ;;;
  ret p.

(** [Subject.complete()]. *)
Definition Subject_complete (s : nat) : M nat :=
  p <- new_promise (Pending []) ;;
  queueMicrotask (MComplete s p) ;;;
  ret p.

(** ** Calling closures *)

Fixpoint call_dispatch (d : Dispatch) (payload : T) : M unit :=
  match d with
  | DUser k => log (Received k payload)
  | DMap _ fn dispatch => call_dispatch dispatch (fn payload)
  | DFilter _ fn dispatch =>
      if fn payload then call_dispatch dispatch payload else ret tt
  | DBound _ source => Subject_dispatch source payload ;;; ret tt
  end.

Definition get_cell (cell : nat) : M MergeCell :=
  fun st => (match cells st !! cell with Some c => c | None => mkCell 0 false end, st).

Definition update_cell (cell : nat) (f : MergeCell -> MergeCell) : M unit :=
  modify (fun st =>
    match cells st !! cell with
    | Some c => set_cells (<[cell := f c]> (cells st)) st
    | None => st
    end).

Fixpoint call_complete (c : Complete) : M unit :=
  match c with
  | CUser k => log (Completed k)
  | CBound _ source => Subject_complete source ;;; ret tt
  | CMerge _ cell complete =>
      update_cell cell (fun c => mkCell (counter c - 1) (completed c)) ;;;
      c <- get_cell cell ;;
      if (counter c <=? 0)%Z && negb (completed c) then
        call_complete complete ;;;
        update_cell cell (fun c => mkCell (counter c) true)
      else ret tt
  end.

Fixpoint call_unsub (u : Unsubscribe) : M unit :=
  match u with
  | UNoop => ret tt
  | USubject s dispatch complete =>
      update_subject s (fun o => mkSubject (Set_delete Dispatch_id dispatch (dispatchs o)) (completes o)) ;;;
      update_subject s (fun o => mkSubject (dispatchs o) (Set_delete Complete_id complete (completes o)))
  | UMerge unsubs =>
      (fix each (l : list Unsubscribe) : M unit :=
         match l with
         | [] => ret tt
         | unsub :: l' => call_unsub unsub ;;; each l'
         end) unsubs
  | ULoop source unsubSink =>
      Subject_complete source ;;;
      call_unsub unsubSink
  end.

(** ** class Signal *)

(** [signal.subscribe(dispatch, complete)]: what runs before the call
    returns its promise. *)
Fixpoint subscribe (signal : Signal) (dispatch : Dispatch) (complete : Complete)
  : M nat :=
  match signal with
  | Signal_map fn this =>
      n <- new_closure ;;
      subscribe this (DMap n fn dispatch) complete
  | Signal_filter fn this =>
      n <- new_closure ;;
      subscribe this (DFilter n fn dispatch) complete
  | Signal_loop handler =>
      result <- new_promise (Pending []) ;;
      source <- new_Subject ;;
      p <- Subject_subscribe source dispatch complete ;;
      then_ p (KLoopHandler source handler result) ;;;
      ret result
  | Signal_of payloads =>
      forEach (call_dispatch dispatch) payloads ;;;
      call_complete complete ;;;
      new_promise (Fulfilled (VUnsub UNoop))
  | Signal_merge signals =>
      result <- new_promise (Pending []) ;;
      cell <- (fun st => (length (cells st),
                 set_cells (cells st ++ [mkCell (Z.of_nat (length signals)) false]) st)) ;;
      ps <- (fix each (l : list Signal) : M (list nat) :=
               match l with
               | [] => ret []
               | signal :: l' =>
                   n <- new_closure ;;
                   p <- subscribe signal dispatch (CMerge n cell complete) ;;
                   ps <- each l' ;;
                   ret (p :: ps)
               end) signals ;;
      all <- Promise_all ps ;;
      then_ all (KMergeReturn result) ;;;
      ret result
  | Subject s => Subject_subscribe s dispatch complete
  end.

(** The [signals.map((signal) => signal.subscribe(dispatch, () => {...}))]
    of [merge], on its own: the promises of the inputs' subscriptions. *)
Definition merge_subscribe (dispatch : Dispatch) (complete : Complete) (cell : nat)
  : list Signal -> M (list nat) :=
  fix each (l : list Signal) : M (list nat) :=
    match l with
    | [] => ret []
    | signal :: l' =>
        n <- new_closure ;;
        p <- subscribe signal dispatch (CMerge n cell complete) ;;
        ps <- each l' ;;
        ret (p :: ps)
    end.

(** ** Jobs *)

(** Resume an [async] function, or run an element function of
    [Promise.all], with the value of the promise it waited for. *)
Definition run_cont (k : Cont) (v : Value) : M unit :=
  match k, v with
  | KLoopHandler source handler result, _ =>
      let sink := handler source in
      n1 <- new_closure ;;
      n2 <- new_closure ;;
      p <- subscribe sink (DBound n1 source) (CBound n2 source) ;;
      then_ p (KLoopReturn source result)
  | KLoopReturn source result, VUnsub unsubSink =>
      resolve result (VUnsub (ULoop source unsubSink))
  | KMergeReturn result, VUnsubs unsubs =>
      resolve result (VUnsub (UMerge unsubs))
  | KAllElement all index result, VUnsub u =>
      fun st =>
        match alls st !! all with
        | Some a =>
            let a' := mkAll (<[index := Some u]> (values a)) (remaining a - 1) in
            let st' := set_alls (<[all := a']> (alls st)) st in
            if Nat.eqb (remaining a') 0
            then resolve result (VUnsubs (omap id (values a'))) st'
            else (tt, st')
        | None => (tt, st)
        end
  | _, _ => ret tt
  end.

(** [Set.prototype.forEach] visits the members the set has while it is
    iterated. No closure of this program adds or deletes a member when it is
    called (lemmas [call_dispatch_subjects], [call_complete_subjects]), so
    the members read when the job starts are the members visited. *)
Definition run_microtask (m : Microtask) : M unit :=
  match m with
  | MDispatch s payload p =>
      ds <- get_dispatchs s ;;
      forEach (fun dispatch => call_dispatch dispatch payload) ds ;;;
      resolve p VVoid
  | MComplete s p =>
      cs <- get_completes s ;;
      forEach (fun complete => call_complete complete) cs ;;;
      resolve p VVoid
  | MReaction k v => run_cont k v
  end.

(** One turn of the event loop: the oldest job is taken off the queue and
    run to its end. *)
Definition turn (st : State) : State :=
  match queue st with
  | [] => st
  | m :: q => exec (run_microtask m) (set_queue q st)
  end.

(** [n] turns. *)
Fixpoint run (n : nat) (st : State) : State :=
  match n with
  | O => st
  | S n' => run n' (turn st)
  end.

(** ** What a subscriber saw *)

(** The payloads callback [k] received, oldest first. *)
Fixpoint received (k : nat) (tr : list Event) : list T :=
  match tr with
  | [] => []
  | Received j v :: tr' => if Nat.eqb j k then v :: received k tr' else received k tr'
  | _ :: tr' => received k tr'
  end.

(** How often completion callback [k] was called. *)
Fixpoint completions (k : nat) (tr : list Event) : nat :=
  match tr with
  | [] => 0
  | Completed j :: tr' => if Nat.eqb j k then S (completions k tr') else completions k tr'
  | _ :: tr' => completions k tr'
  end.

(** The histories of one subscription to a merged signal whose counter is
    [cell] and whose subscriber is the caller's [k]: [merge_history cell k m
    st st'] when [st'] is reached from [st] by [m] calls of completion
    closures of the inputs, in any order and in any turns, interleaved with
    steps of the rest of the program, which neither write the counter nor
    call [k]. *)
Inductive merge_history (cell k : nat) : nat -> State -> State -> Prop :=
| mh_start st :
    merge_history cell k 0 st st
| mh_input_completes m n st st' :
    merge_history cell k m st st' ->
    merge_history cell k (S m) st (exec (call_complete (CMerge n cell (CUser k))) st')
| mh_other m st st' st'' :
    merge_history cell k m st st' ->
    cells st'' !! cell = cells st' !! cell ->
    completions k (trace st'') = completions k (trace st') ->
    merge_history cell k m st st''.

(** The value promise [p] is fulfilled with, if it is. *)
Definition fulfilled (p : nat) (st : State) : option Value :=
  match promises st !! p with
  | Some (Fulfilled v) => Some v
  | _ => None
  end.

End Observable.

Arguments Dispatch : clear implicits.
Arguments Unsubscribe : clear implicits.
Arguments Signal : clear implicits.
Arguments State : clear implicits.
Arguments Event : clear implicits.
Arguments Microtask : clear implicits.

Arguments Value : clear implicits.
Arguments Cont : clear implicits.
Arguments PromiseState : clear implicits.
Arguments SubjectObj : clear implicits.
Arguments AllObj : clear implicits.
Arguments M : clear implicits.

(** ** Descriptions used by the further properties *)

Section Descriptions.

Context {T : Type}.

(** A value callback that ends in a callback of the caller, through
    closures of [map] and [filter] only. *)
Fixpoint direct (d : Dispatch T) : bool :=
  match d with
  | DUser _ => true
  | DMap _ _ dispatch => direct dispatch
  | DFilter _ _ dispatch => direct dispatch
  | DBound _ _ => false
  end.

(** What such a callback makes the caller record when it is called with
    [v]. *)
Fixpoint emits (d : Dispatch T) (v : T) : list (Event T) :=
  match d with
  | DUser k => [Received k v]
  | DMap _ fn dispatch => emits dispatch (fn v)
  | DFilter _ fn dispatch => if fn v then emits dispatch v else []
  | DBound _ _ => []
  end.

(** The jobs successive calls [dispatch(v)] on subject [s] queue, for [v]
    in [vs], when the first call creates promise [p]. *)
Fixpoint dispatch_jobs (s p : nat) (vs : list T) : list (Microtask T) :=
  match vs with
  | [] => []
  | v :: vs' => MDispatch s v p :: dispatch_jobs s (S p) vs'
  end.

(** No membership set holds two functions of one identity. *)
Definition sets_distinct (st : State T) : Prop :=
  Forall (fun o => NoDup (map Dispatch_id (dispatchs o))
                   /\ NoDup (map Complete_id (completes o)))
         (subjects st).

(** Subject [s] has a member with the identity of [d]. *)
Definition holds (s : nat) (d : Dispatch T) (st : State T) : Prop :=
  exists o, subjects st !! s = Some o
            /\ existsb (fun y => FnId_eqb (Dispatch_id y) (Dispatch_id d)) (dispatchs o) = true.

(** Subject [s] has no member with the identity of [d]. *)
Definition lacks (s : nat) (d : Dispatch T) (st : State T) : Prop :=
  forall o, subjects st !! s = Some o ->
            existsb (fun y => FnId_eqb (Dispatch_id y) (Dispatch_id d)) (dispatchs o) = false.

(** The subjects after [merge] has subscribed [d], and for each input a
    completion closure over [cell] and [c], to the subjects [ss] in turn,
    the first closure being the [n]-th. *)
Fixpoint merge_registered (d : Dispatch T) (c : Complete) (cell n : nat) (ss : list nat)
    (subs : list (SubjectObj T)) : list (SubjectObj T) :=
  match ss with
  | [] => subs
  | s :: ss' =>
      merge_registered d c cell (S n) ss'
        match subs !! s with
        | Some o => <[s := mkSubject (Set_add Dispatch_id d (dispatchs o))
                                     (Set_add Complete_id (CMerge n cell c) (completes o))]> subs
        | None => subs
        end
  end.

(** The [Unsubscribe]s of the subscriptions [merge] makes to the subjects
    [ss], when the completion closure of the first input is the [n]-th
    closure. *)
Fixpoint merge_unsubs (d : Dispatch T) (c : Complete) (cell n : nat) (ss : list nat)
  : list (Unsubscribe T) :=
  match ss with
  | [] => []
  | s :: ss' => USubject s d (CMerge n cell c) :: merge_unsubs d c cell (S n) ss'
  end.

(** The jobs of the element functions of one [Promise.all] call, for the
    inputs from index [i] on, already fulfilled with [us]. *)
Fixpoint element_jobs (all result i : nat) (us : list (Unsubscribe T))
  : list (Microtask T) :=
  match us with
  | [] => []
  | u :: us' => MReaction (KAllElement all i result) (VUnsub u)
                  :: element_jobs all result (S i) us'
  end.

(** The first [n] values of [v], [f v], [f (f v)], ..., cut after the first
    one that [p] rejects. *)
Fixpoint orbit (p : T -> bool) (f : T -> T) (n : nat) (v : T) : list T :=
  match n with
  | O => []
  | S n' => v :: (if p v then orbit p f n' (f v) else [])
  end.

End Descriptions.

(** ** Concrete stores *)

(** A subject with the caller's callbacks 0 and then 1 subscribed. *)
Definition two_subscribers : State Z :=
  exec (Subject_subscribe 0 (DUser 1) (CUser 1))
    (exec (Subject_subscribe 0 (DUser 0) (CUser 0))
       (exec new_Subject init)).

(** Two subjects and a subscription of the caller's callbacks 0 to their
    merge, once the subscription has settled. *)
Definition merged_subjects : State Z :=
  run 4 (exec (subscribe (Signal_merge [Subject 0; Subject 1]) (DUser 0) (CUser 0))
           (exec new_Subject (exec new_Subject init))).

(** * Properties *)

Section Properties.

Context {T : Type}.

Implicit Types (st : State T) (d dispatch : Dispatch T) (c complete : Complete).
Implicit Types (tr : list (Event T)) (payloads : list T) (u : Unsubscribe T).

(** ** The store and the trace *)

Ltac unfold_monad :=
  unfold exec, eval, bind, ret, modify, log, queueMicrotask, new_closure,
    new_promise, new_Subject, get_dispatchs, get_completes, get_cell in *.

(** Normalise a state built from a constructor by the setters. *)
Ltac norm :=
  unfold exec, eval, bind, ret, modify, log, queueMicrotask, new_closure,
    new_promise, new_Subject, set_subjects, set_promises, set_cells,
    set_alls, set_queue, set_trace, set_next_fn;
  cbn [fst snd subjects promises cells alls queue trace next_fn app].

Lemma lookup_fresh {A : Type} (l : list A) (x : A) : (l ++ [x]) !! length l = Some x.
Proof. by apply list_lookup_middle. Qed.

Lemma insert_middle {A : Type} (l1 l2 : list A) (x y : A) :
  <[length l1 := y]> (l1 ++ x :: l2) = l1 ++ y :: l2.
Proof. rewrite insert_app_r_alt by lia. by rewrite Nat.sub_diag. Qed.

Lemma State_ext st st' :
  subjects st = subjects st' -> promises st = promises st' ->
  cells st = cells st' -> alls st = alls st' -> queue st = queue st' ->
  trace st = trace st' -> next_fn st = next_fn st' -> st = st'.
Proof. destruct st, st'; simpl; intros; by subst. Qed.

Lemma set_trace_same st : set_trace (trace st) st = st.
Proof. by destruct st. Qed.

Lemma received_app k tr1 tr2 :
  received k (tr1 ++ tr2) = received k tr1 ++ received k tr2.
Proof.
  induction tr1 as [|e tr1 IH]; simpl; [done|].
  destruct e as [j v| |]; try done.
  destruct (Nat.eqb j k); simpl; by rewrite IH.
Qed.

Lemma completions_app k tr1 tr2 :
  completions k (tr1 ++ tr2) = completions k tr1 + completions k tr2.
Proof.
  induction tr1 as [|e tr1 IH]; simpl; [done|].
  destruct e as [| j |]; try done.
  destruct (Nat.eqb j k); simpl; by rewrite IH.
Qed.

Lemma received_Received k payloads :
  received k (map (Received k) payloads) = payloads.
Proof.
  induction payloads as [|v vs IH]; simpl; [done|].
  by rewrite Nat.eqb_refl, IH.
Qed.

Lemma completions_Received k j payloads :
  completions k (map (Received (T:=T) j) payloads) = 0.
Proof. by induction payloads. Qed.

(** A caller's callback, called on each element of an array, records the
    array. *)
Lemma forEach_DUser k payloads st :
  forEach (call_dispatch (DUser k)) payloads st
  = (tt, set_trace (trace st ++ map (Received k) payloads) st).
Proof.
  revert st. induction payloads as [|v vs IH]; intros st; simpl.
  - unfold ret. by rewrite app_nil_r, set_trace_same.
  - unfold bind, log, modify. simpl. rewrite IH. destruct st; simpl.
    unfold set_trace; simpl. by rewrite <- app_assoc.
Qed.

(** ** Signal.of *)

(** C6. Subscribing caller callbacks [k], [k'] to [of(...payloads)] hands
    the payloads to [k] in array order, then calls [k'] once, and nothing
    else: the only other change to the store is the promise the call
    returns, which is already fulfilled with the no-op [() => {}]. No job
    is queued and no callback is registered anywhere, so nothing is
    dispatched after the completion. For arbitrary callbacks the call is
    the same three steps: [dispatch] on each payload in order, [complete]
    once, the fulfilled promise. *)
Theorem of_dispatches_payloads_then_completes payloads (k k' : nat) st :
  let p := eval (subscribe (Signal_of payloads) (DUser k) (CUser k')) st in
  let st' := exec (subscribe (Signal_of payloads) (DUser k) (CUser k')) st in
  st' = set_promises (promises st ++ [Fulfilled (VUnsub UNoop)])
          (set_trace (trace st ++ map (Received k) payloads ++ [Completed k']) st)
  /\ trace st' = trace st ++ map (Received k) payloads ++ [Completed k']
  /\ received k (trace st') = received k (trace st) ++ payloads
  /\ queue st' = queue st
  /\ subjects st' = subjects st
  /\ fulfilled p st' = Some (VUnsub UNoop)
  /\ (forall st'', exec (call_unsub UNoop) st'' = st'')
  /\ (forall d c,
        exec (subscribe (Signal_of payloads) d c) st
        = exec (new_promise (Fulfilled (VUnsub UNoop)))
            (exec (call_complete c) (exec (forEach (call_dispatch d) payloads) st))).
Proof.
  cbv zeta.
  assert (E : subscribe (Signal_of payloads) (DUser k) (CUser k') st
    = (length (promises st),
       set_promises (promises st ++ [Fulfilled (VUnsub UNoop)])
          (set_trace (trace st ++ map (Received k) payloads ++ [Completed k']) st))).
  { cbn [subscribe]. unfold bind. rewrite forEach_DUser. simpl.
    unfold log, modify, new_promise. simpl.
    destruct st; unfold set_trace, set_promises; simpl.
    by rewrite <- app_assoc. }
  unfold exec, eval. rewrite E. simpl.
  repeat split.
  - rewrite !received_app, received_Received. simpl. by rewrite app_nil_r.
  - unfold fulfilled. simpl. by rewrite lookup_fresh.
Qed.

(** ** map and filter *)

Lemma forEach_DMap n (fn : T -> T) d payloads st :
  forEach (call_dispatch (DMap n fn d)) payloads st
  = forEach (call_dispatch d) (map fn payloads) st.
Proof.
  revert st. induction payloads as [|v vs IH]; intros st; [done|].
  cbn [forEach map]. unfold bind. cbn [call_dispatch]. by rewrite IH.
Qed.

Lemma forEach_DFilter n (fn : T -> bool) d payloads st :
  forEach (call_dispatch (DFilter n fn d)) payloads st
  = forEach (call_dispatch d) (List.filter fn payloads) st.
Proof.
  revert st. induction payloads as [|v vs IH]; intros st; [done|].
  cbn [forEach List.filter]. unfold bind at 1. cbn [call_dispatch].
  destruct (fn v); cbn [forEach]; unfold bind, ret; simpl; by rewrite IH.
Qed.

Lemma filter_map_composed (fn : T -> T) (p : T -> bool) payloads :
  List.filter p (map fn payloads)
  = map fn (List.filter (fun x => p (fn x)) payloads).
Proof.
  induction payloads as [|v vs IH]; simpl; [done|].
  destruct (p (fn v)); simpl; by rewrite IH.
Qed.

Lemma subscribe_of_trace d payloads k' st :
  trace (snd (subscribe (Signal_of payloads) d (CUser k') st))
  = trace (snd (forEach (call_dispatch d) payloads st)) ++ [Completed k'].
Proof. done. Qed.

(** What [source.map(fn).filter(p)] hands to [source]. *)
Lemma subscribe_map_filter (fn : T -> T) (p : T -> bool) (source : Signal T) d c st :
  subscribe (Signal_filter p (Signal_map fn source)) d c st
  = subscribe source (DMap (S (next_fn st)) fn (DFilter (next_fn st) p d)) c
      (set_next_fn (S (S (next_fn st))) st).
Proof. by destruct st. Qed.

(** What [source.filter(x => p(fn(x))).map(fn)] hands to [source]. *)
Lemma subscribe_filter_map (fn : T -> T) (p : T -> bool) (source : Signal T) d c st :
  subscribe (Signal_map fn (Signal_filter (fun x => p (fn x)) source)) d c st
  = subscribe source (DFilter (S (next_fn st)) (fun x => p (fn x)) (DMap (next_fn st) fn d)) c
      (set_next_fn (S (S (next_fn st))) st).
Proof. by destruct st. Qed.

Lemma map_filter_of_trace (fn : T -> T) (p : T -> bool) payloads (k k' : nat) st :
  trace (exec (subscribe (Signal_filter p (Signal_map fn (Signal_of payloads)))
                 (DUser k) (CUser k')) st)
  = trace st ++ map (Received k) (map fn (List.filter (fun x => p (fn x)) payloads))
      ++ [Completed k'].
Proof.
  unfold exec. rewrite subscribe_map_filter, subscribe_of_trace.
  rewrite forEach_DMap, forEach_DFilter, forEach_DUser, filter_map_composed.
  simpl. by rewrite <- app_assoc.
Qed.

Lemma filter_map_of_trace (fn : T -> T) (p : T -> bool) payloads (k k' : nat) st :
  trace (exec (subscribe (Signal_map fn (Signal_filter (fun x => p (fn x)) (Signal_of payloads)))
                 (DUser k) (CUser k')) st)
  = trace st ++ map (Received k) (map fn (List.filter (fun x => p (fn x)) payloads))
      ++ [Completed k'].
Proof.
  unfold exec. rewrite subscribe_filter_map, subscribe_of_trace.
  rewrite forEach_DFilter, forEach_DMap, forEach_DUser.
  simpl. by rewrite <- app_assoc.
Qed.

(** ** The event loop *)

Lemma run_idle n st : queue st = [] -> run n st = st.
Proof.
  intros Hq. induction n as [|n IH]; [done|].
  simpl. unfold turn. by rewrite Hq.
Qed.

Lemma run_S n st : run (S n) st = run n (turn st).
Proof. done. Qed.

Lemma run_add m n st : run (m + n) st = run n (run m st).
Proof. revert st. induction m as [|m IH]; intros st; [done|]. simpl. apply IH. Qed.

(** ** Signal.merge of no signal *)

(** C9. A subscription to [merge()] creates the counter with value 0,
    subscribes to nothing and waits for [Promise.all([])]. From an idle
    event loop its single job fulfils the returned promise with an
    [Unsubscribe] over no input; whatever the callbacks are, and however
    many turns follow, the trace gains no [Received] and no [Completed], no
    callback is registered and no job is left: nothing is dispatched and the
    completion is never signalled. *)
Theorem merge_of_nothing_is_silent d c st (n : nat) :
  queue st = [] ->
  let result := length (promises st) in
  let st' := exec (subscribe (Signal_merge []) d c) st in
  eval (subscribe (Signal_merge []) d c) st = result
  /\ trace st' = trace st
  /\ queue st' = [MReaction (KMergeReturn result) (VUnsubs [])]
  /\ trace (run (S n) st') = trace st ++ [Resolved result]
  /\ queue (run (S n) st') = []
  /\ subjects (run (S n) st') = subjects st
  /\ cells (run (S n) st') = cells st ++ [mkCell 0 false]
  /\ fulfilled result (run (S n) st') = Some (VUnsub (UMerge []))
  /\ (forall st'', exec (call_unsub (UMerge (T:=T) [])) st'' = st'').
Proof.
  intros Hq. cbv zeta.
  assert (E : subscribe (Signal_merge []) d c st
    = (length (promises st),
       set_queue [MReaction (KMergeReturn (length (promises st))) (VUnsubs [])]
         (set_cells (cells st ++ [mkCell 0 false])
           (set_promises (promises st ++ [Pending []; Fulfilled (VUnsubs [])]) st)))).
  { cbn [subscribe]. unfold Promise_all, then_. unfold_monad. simpl.
    rewrite length_app. simpl.
    replace (length (promises st) + 1) with (length (promises st ++ [Pending []]))
      by (rewrite length_app; simpl; lia).
    rewrite lookup_fresh. simpl. rewrite Hq.
    destruct st; unfold set_queue, set_cells, set_promises; simpl.
    by rewrite <- app_assoc. }
  unfold exec, eval. rewrite E. cbn [fst snd].
  split; [done|]. split; [done|]. split; [done|].
  rewrite run_S.
  assert (E2 : turn (set_queue [MReaction (KMergeReturn (length (promises st))) (VUnsubs [])]
         (set_cells (cells st ++ [mkCell 0 false])
           (set_promises (promises st ++ [Pending []; Fulfilled (VUnsubs [])]) st)))
    = set_trace (trace st ++ [Resolved (length (promises st))])
        (set_cells (cells st ++ [mkCell 0 false])
           (set_promises (promises st ++ [Fulfilled (VUnsub (UMerge [])); Fulfilled (VUnsubs [])]) st))).
  { unfold turn, exec. simpl. unfold resolve. simpl.
    rewrite (list_lookup_middle (promises st) [Fulfilled (VUnsubs [])] (Pending []) _ eq_refl).
    simpl.
    rewrite (insert_middle (promises st) [Fulfilled (VUnsubs [])] (Pending []) _).
    destruct st; simpl in *; by subst. }
  rewrite E2, run_idle by (by simpl).
  simpl. repeat split; try done.
  unfold fulfilled. simpl.
  by rewrite (list_lookup_middle (promises st) [Fulfilled (VUnsubs [])] _ _ eq_refl).
Qed.

(** ** class Subject *)

Lemma FnId_eqb_eq a b : FnId_eqb a b = true <-> a = b.
Proof.
  destruct a, b; simpl; rewrite ?Nat.eqb_eq; split; try congruence; try done.
Qed.

Lemma FnId_eqb_refl a : FnId_eqb a a = true.
Proof. by apply FnId_eqb_eq. Qed.

Lemma set_trace_app tr1 tr2 st :
  set_trace (trace (set_trace (trace st ++ tr1) st) ++ tr2) (set_trace (trace st ++ tr1) st)
  = set_trace (trace st ++ tr1 ++ tr2) st.
Proof. destruct st; unfold set_trace; simpl. by rewrite <- app_assoc. Qed.

(** The caller's value callbacks, each called with [v]. *)
Lemma forEach_call_DUser (v : T) (ks : list nat) st :
  forEach (fun d => call_dispatch d v) (map DUser ks) st
  = (tt, set_trace (trace st ++ map (fun k => Received k v) ks) st).
Proof.
  revert st. induction ks as [|k ks IH]; intros st; simpl.
  - unfold ret. by rewrite app_nil_r, set_trace_same.
  - unfold bind, log, modify. simpl. rewrite IH.
    apply f_equal. apply (set_trace_app [Received k v]).
Qed.

(** The caller's completion callbacks, each called. *)
Lemma forEach_call_CUser (ks : list nat) st :
  forEach (fun c => call_complete c) (map CUser ks) st
  = (tt, set_trace (trace st ++ map (Completed (T:=T)) ks) st).
Proof.
  revert st. induction ks as [|k ks IH]; intros st; simpl.
  - unfold ret. by rewrite app_nil_r, set_trace_same.
  - unfold bind, log, modify. simpl. rewrite IH.
    apply f_equal. apply (set_trace_app [Completed k]).
Qed.

Lemma resolve_pending p (v : Value T) rs st :
  promises st !! p = Some (Pending rs) ->
  resolve p v st
  = (tt, set_trace (trace st ++ [Resolved p])
           (set_queue (queue st ++ map (fun k => MReaction k v) rs)
              (set_promises (<[p := Fulfilled v]> (promises st)) st))).
Proof. intros H. unfold resolve. by rewrite H. Qed.

Lemma resolve_subjects p (v : Value T) st :
  subjects (snd (resolve p v st)) = subjects st.
Proof.
  unfold resolve. destruct (promises st !! p) as [[rs|w]|]; by simpl.
Qed.

(** Calling a value callback changes no membership set: callbacks record,
    transform, or schedule. *)
Lemma call_dispatch_subjects d (v : T) st :
  subjects (snd (call_dispatch d v st)) = subjects st.
Proof.
  revert v st. induction d as [k|n fn d IH|n fn d IH|n source]; intros v st; simpl.
  - done.
  - apply IH.
  - destruct (fn v); [apply IH|done].
  - done.
Qed.

Lemma update_cell_subjects cell f st :
  subjects (snd (update_cell (T:=T) cell f st)) = subjects st.
Proof. unfold update_cell, modify. simpl. by destruct (cells st !! cell). Qed.

(** Neither does calling a completion callback. *)
Lemma call_complete_subjects c st :
  subjects (snd (call_complete c st)) = subjects st.
Proof.
  revert st. induction c as [k|n source|n cell c IH]; intros st; simpl.
  - done.
  - done.
  - unfold bind. simpl.
    match goal with |- context [if ?b then _ else _] => destruct b end.
    + rewrite update_cell_subjects, IH. apply update_cell_subjects.
    + simpl. apply update_cell_subjects.
Qed.

Lemma forEach_subjects {A : Type} (f : A -> M T unit) (l : list A) st :
  (forall a st', subjects (snd (f a st')) = subjects st') ->
  subjects (snd (forEach f l st)) = subjects st.
Proof.
  intros Hf. revert st. induction l as [|a l IH]; intros st; simpl; [done|].
  unfold bind. by rewrite IH, Hf.
Qed.

Lemma run_MDispatch_subjects s (v : T) p st :
  subjects (snd (run_microtask (MDispatch s v p) st)) = subjects st.
Proof.
  simpl. unfold bind. rewrite resolve_subjects.
  apply forEach_subjects. intros; apply call_dispatch_subjects.
Qed.

Lemma run_MComplete_subjects s p st :
  subjects (snd (run_microtask (MComplete (T:=T) s p) st)) = subjects st.
Proof.
  simpl. unfold bind. rewrite resolve_subjects.
  apply forEach_subjects. intros; apply call_complete_subjects.
Qed.

Lemma run_MDispatch_users s (v : T) p o (ks : list nat) rs st :
  subjects st !! s = Some o -> dispatchs o = map DUser ks ->
  promises st !! p = Some (Pending rs) ->
  run_microtask (MDispatch s v p) st
  = (tt, set_queue (queue st ++ map (fun k => MReaction k VVoid) rs)
           (set_promises (<[p := Fulfilled VVoid]> (promises st))
              (set_trace (trace st ++ map (fun k => Received k v) ks ++ [Resolved p]) st))).
Proof.
  intros Hs Hd Hp. simpl. unfold bind, get_dispatchs. simpl.
  rewrite Hs, Hd, forEach_call_DUser. simpl.
  rewrite (resolve_pending _ _ rs) by done.
  destruct st; unfold set_trace, set_queue, set_promises; simpl.
  by rewrite <- app_assoc.
Qed.

Lemma run_MComplete_users s p o (ks : list nat) rs st :
  subjects st !! s = Some o -> completes o = map CUser ks ->
  promises st !! p = Some (Pending rs) ->
  run_microtask (MComplete s p) st
  = (tt, set_queue (queue st ++ map (fun k => MReaction k VVoid) rs)
           (set_promises (<[p := Fulfilled VVoid]> (promises st))
              (set_trace (trace st ++ map (Completed (T:=T)) ks ++ [Resolved p]) st))).
Proof.
  intros Hs Hd Hp. simpl. unfold bind, get_completes. simpl.
  rewrite Hs, Hd, forEach_call_CUser. simpl.
  rewrite (resolve_pending _ _ rs) by done.
  destruct st; unfold set_trace, set_queue, set_promises; simpl.
  by rewrite <- app_assoc.
Qed.

Lemma fulfilled_insert p (v : Value T) st st' :
  p < length (promises st) ->
  promises st' = <[p := Fulfilled v]> (promises st) ->
  fulfilled p st' = Some v.
Proof.
  intros Hp E. unfold fulfilled. rewrite E.
  by rewrite list_lookup_insert_eq.
Qed.

Lemma Subject_dispatch_state s (v : T) st :
  Subject_dispatch s v st
  = (length (promises st),
     set_queue (queue st ++ [MDispatch s v (length (promises st))])
       (set_promises (promises st ++ [Pending []]) st)).
Proof. done. Qed.

Lemma Subject_complete_state s st :
  Subject_complete (T:=T) s st
  = (length (promises st),
     set_queue (queue st ++ [MComplete s (length (promises st))])
       (set_promises (promises st ++ [Pending []]) st)).
Proof. done. Qed.

(** C1, as the code has it. [Subject.dispatch(v)] calls no callback: it
    creates a pending promise and queues one job. When that job runs it
    calls the value callbacks that are members of the subject at that
    moment, each once with [v], in the order they were registered, and
    resolves the promise after the last of them: for caller callbacks
    [ks] the trace grows by [Received k v] for each [k] of [ks] in order,
    then [Resolved p]. When nothing is registered or removed between the
    call and its job (here: the job is the next one to run), these are
    the callbacks registered when the emission was scheduled. *)
Theorem dispatch_invokes_current_callbacks_in_order :
  (forall s (v : T) st,
     let p := eval (Subject_dispatch s v) st in
     let st1 := exec (Subject_dispatch s v) st in
     p = length (promises st) /\ trace st1 = trace st /\ subjects st1 = subjects st
     /\ queue st1 = queue st ++ [MDispatch s v p] /\ fulfilled p st1 = None)
  /\ (forall s (v : T) p st,
       exec (run_microtask (MDispatch s v p)) st
       = exec (resolve p VVoid)
           (exec (forEach (fun d => call_dispatch d v) (eval (get_dispatchs s) st)) st))
  /\ (forall s (v : T) p o (ks : list nat) rs st,
       subjects st !! s = Some o -> dispatchs o = map DUser ks ->
       promises st !! p = Some (Pending rs) ->
       let st' := exec (run_microtask (MDispatch s v p)) st in
       trace st' = trace st ++ map (fun k => Received k v) ks ++ [Resolved p]
       /\ fulfilled p st' = Some VVoid
       /\ subjects st' = subjects st)
  /\ (forall s (v : T) o (ks : list nat) st,
       queue st = [] -> subjects st !! s = Some o -> dispatchs o = map DUser ks ->
       let p := eval (Subject_dispatch s v) st in
       let st' := turn (exec (Subject_dispatch s v) st) in
       trace st' = trace st ++ map (fun k => Received k v) ks ++ [Resolved p]
       /\ fulfilled p st' = Some VVoid
       /\ queue st' = []).
Proof.
  split; [|split; [|split]].
  - intros s v st. cbv zeta. unfold exec, eval. rewrite Subject_dispatch_state.
    simpl. repeat split. unfold fulfilled. simpl. by rewrite lookup_fresh.
  - done.
  - intros s v p o ks rs st Hs Hd Hp. cbv zeta. unfold exec.
    rewrite (run_MDispatch_users s v p o ks rs) by done. simpl.
    repeat split.
    eapply fulfilled_insert; [by eapply lookup_lt_Some|done].
  - intros s v o ks st Hq Hs Hd. cbv zeta. unfold exec, eval.
    rewrite Subject_dispatch_state. cbn [fst snd].
    unfold turn. cbn [queue set_queue]. rewrite Hq. cbn [app]. unfold exec.
    rewrite (run_MDispatch_users s v _ o ks []); [|done|done|by apply lookup_fresh].
    simpl. repeat split.
    unfold fulfilled. simpl.
    rewrite (insert_middle (promises st) [] (Pending []) (Fulfilled VVoid)).
    by rewrite lookup_fresh.
Qed.

(** C8. [Subject.complete()] only schedules; its job calls the completion
    callbacks that are members when it runs, each once and in registration
    order, then resolves the promise. Neither step changes a membership set
    of any subject, whatever the callbacks are; so after a completion the
    same subscribers are reached again by a later [dispatch] or
    [complete]. *)
Theorem complete_invokes_all_and_keeps_membership :
  (forall s st,
     let p := eval (Subject_complete (T:=T) s) st in
     let st1 := exec (Subject_complete (T:=T) s) st in
     subjects st1 = subjects st /\ trace st1 = trace st
     /\ queue st1 = queue st ++ [MComplete s p])
  /\ (forall s p st,
       subjects (exec (run_microtask (MComplete (T:=T) s p)) st) = subjects st)
  /\ (forall s p st,
       exec (run_microtask (MComplete (T:=T) s p)) st
       = exec (resolve p VVoid)
           (exec (forEach (fun c => call_complete c) (eval (get_completes s) st)) st))
  /\ (forall s p o (ks : list nat) rs st,
       subjects st !! s = Some o -> completes o = map CUser ks ->
       promises st !! p = Some (Pending rs) ->
       let st' := exec (run_microtask (MComplete (T:=T) s p)) st in
       trace st' = trace st ++ map Completed ks ++ [Resolved p]
       /\ subjects st' !! s = Some o)
  /\ (forall s p1 p2 (v : T) o (ks js : list nat) rs1 rs2 st,
       subjects st !! s = Some o ->
       completes o = map CUser ks -> dispatchs o = map DUser js ->
       promises st !! p1 = Some (Pending rs1) ->
       promises st !! p2 = Some (Pending rs2) -> p1 <> p2 ->
       let st1 := exec (run_microtask (MComplete s p1)) st in
       trace (exec (run_microtask (MDispatch s v p2)) st1)
         = trace st1 ++ map (fun k => Received k v) js ++ [Resolved p2]
       /\ trace (exec (run_microtask (MComplete s p2)) st1)
         = trace st1 ++ map Completed ks ++ [Resolved p2]).
Proof.
  split; [|split; [|split; [|split]]].
  - intros s st. cbv zeta. unfold exec, eval. by rewrite Subject_complete_state.
  - intros. apply run_MComplete_subjects.
  - done.
  - intros s p o ks rs st Hs Hc Hp. cbv zeta. unfold exec. split.
    + by rewrite (run_MComplete_users s p o ks rs).
    + by rewrite run_MComplete_subjects.
  - intros s p1 p2 v o ks js rs1 rs2 st Hs Hc Hd Hp1 Hp2 Hne. cbv zeta.
    set (st1 := exec (run_microtask (MComplete s p1)) st).
    assert (Hs1 : subjects st1 !! s = Some o).
    { unfold st1, exec. by rewrite run_MComplete_subjects. }
    assert (Hp : promises st1 !! p2 = Some (Pending rs2)).
    { unfold st1, exec. rewrite (run_MComplete_users s p1 o ks rs1) by done.
      simpl. by rewrite list_lookup_insert_ne. }
    unfold exec. split.
    + by rewrite (run_MDispatch_users s v p2 o js rs2).
    + by rewrite (run_MComplete_users s p2 o ks rs2).
Qed.

(** ** Membership by function identity *)

Section Sets.

Context {A : Type} (id : A -> FnId).

Lemma existsb_Set_add x l :
  existsb (fun y => FnId_eqb (id y) (id x)) (Set_add id x l) = true.
Proof.
  unfold Set_add. destruct (existsb _ l) eqn:E; [done|].
  rewrite existsb_app. simpl. rewrite FnId_eqb_refl. apply orb_true_r.
Qed.

Lemma Set_add_idem x l : Set_add id x (Set_add id x l) = Set_add id x l.
Proof. unfold Set_add at 1. by rewrite existsb_Set_add. Qed.

Lemma Set_delete_add x l : Set_delete id x (Set_add id x l) = Set_delete id x l.
Proof.
  unfold Set_add. destruct (existsb _ l); [done|].
  unfold Set_delete. rewrite List.filter_app. simpl.
  rewrite FnId_eqb_refl. simpl. apply app_nil_r.
Qed.

Lemma Set_delete_absent x l :
  existsb (fun y => FnId_eqb (id y) (id x)) (Set_delete id x l) = false.
Proof.
  induction l as [|a l IH]; simpl; [done|].
  destruct (FnId_eqb (id a) (id x)) eqn:E; simpl; [done|].
  by rewrite E.
Qed.

Lemma Set_add_fresh x l :
  existsb (fun y => FnId_eqb (id y) (id x)) l = false -> Set_add id x l = l ++ [x].
Proof. intros E. unfold Set_add. by rewrite E. Qed.

Lemma existsb_false_not_In x l :
  existsb (fun y => FnId_eqb (id y) (id x)) l = false -> ~ In (id x) (map id l).
Proof.
  induction l as [|a l IH]; simpl; [tauto|].
  intros E. apply orb_false_iff in E as [E1 E2].
  intros [H|H]; [|by apply IH].
  rewrite H, FnId_eqb_refl in E1. done.
Qed.

(** [add] keeps the members distinct. *)
Lemma Set_add_NoDup x l :
  NoDup (map id l) -> NoDup (map id (Set_add id x l)).
Proof.
  intros Hl. unfold Set_add.
  destruct (existsb _ l) eqn:E; [done|].
  rewrite map_app. simpl. apply NoDup_app. split; [done|]. split.
  - intros y Hy Hx. apply list_elem_of_singleton in Hx. subst y.
    apply list_elem_of_In in Hy. by apply existsb_false_not_In in E.
  - apply NoDup_singleton.
Qed.

End Sets.

Lemma update_subject_twice s (f g : SubjectObj T -> SubjectObj T) o st :
  subjects st !! s = Some o ->
  bind (update_subject s f) (fun _ => update_subject s g) st
  = (tt, set_subjects (<[s := g (f o)]> (subjects st)) st).
Proof.
  intros Hs. unfold bind, update_subject, modify. simpl. rewrite Hs. simpl.
  rewrite list_lookup_insert_eq by (by eapply lookup_lt_Some).
  unfold set_subjects. simpl. by rewrite list_insert_insert_eq.
Qed.

Lemma Subject_subscribe_state s d c o st :
  subjects st !! s = Some o ->
  Subject_subscribe s d c st
  = (length (promises st),
     set_promises (promises st ++ [Fulfilled (VUnsub (USubject s d c))])
       (set_subjects
          (<[s := mkSubject (Set_add Dispatch_id d (dispatchs o))
                            (Set_add Complete_id c (completes o))]> (subjects st)) st)).
Proof.
  intros Hs. unfold Subject_subscribe.
  pose proof (update_subject_twice s
    (fun o => mkSubject (Set_add Dispatch_id d (dispatchs o)) (completes o))
    (fun o => mkSubject (dispatchs o) (Set_add Complete_id c (completes o))) o st Hs) as E.
  unfold bind in *. unfold new_promise.
  apply (f_equal snd) in E. simpl in E. simpl. by rewrite E.
Qed.

Lemma call_unsub_USubject s d c o st :
  subjects st !! s = Some o ->
  call_unsub (USubject s d c) st
  = (tt, set_subjects
           (<[s := mkSubject (Set_delete Dispatch_id d (dispatchs o))
                             (Set_delete Complete_id c (completes o))]> (subjects st)) st).
Proof.
  intros Hs. cbn [call_unsub].
  apply (update_subject_twice s
    (fun o => mkSubject (Set_delete Dispatch_id d (dispatchs o)) (completes o))
    (fun o => mkSubject (dispatchs o) (Set_delete Complete_id c (completes o))) o st Hs).
Qed.

(** C10. Subscribing the functions [d] and [c] to subject [s] a second
    time changes no membership set: the store of subjects after the second
    call is the store after the first, and a set without duplicates stays
    without duplicates, so one emission calls [d] once. Both calls return
    an [Unsubscribe] over the same [s], [d] and [c]; invoking it leaves no
    member with the identity of [d] or [c], which ends both subscriptions.
    On a subject without other subscribers: after the two calls one
    emission gives the callback its value once, and after the
    [Unsubscribe] an emission reaches nobody. *)
Theorem same_callbacks_register_once s d c o st :
  subjects st !! s = Some o ->
  let p1 := eval (Subject_subscribe s d c) st in
  let st1 := exec (Subject_subscribe s d c) st in
  let p2 := eval (Subject_subscribe s d c) st1 in
  let st2 := exec (Subject_subscribe s d c) st1 in
  let st3 := exec (call_unsub (USubject s d c)) st2 in
  subjects st2 = subjects st1
  /\ subjects st2 !! s = Some (mkSubject (Set_add Dispatch_id d (dispatchs o))
                                         (Set_add Complete_id c (completes o)))
  /\ (NoDup (map Dispatch_id (dispatchs o)) ->
      NoDup (map Dispatch_id (Set_add Dispatch_id d (dispatchs o))))
  /\ (NoDup (map Complete_id (completes o)) ->
      NoDup (map Complete_id (Set_add Complete_id c (completes o))))
  /\ p1 <> p2
  /\ fulfilled p1 st2 = Some (VUnsub (USubject s d c))
  /\ fulfilled p2 st2 = Some (VUnsub (USubject s d c))
  /\ subjects st3 !! s = Some (mkSubject (Set_delete Dispatch_id d (dispatchs o))
                                         (Set_delete Complete_id c (completes o)))
  /\ existsb (fun y => FnId_eqb (Dispatch_id y) (Dispatch_id d))
        (Set_delete Dispatch_id d (dispatchs o)) = false
  /\ existsb (fun y => FnId_eqb (Complete_id y) (Complete_id c))
        (Set_delete Complete_id c (completes o)) = false
  /\ (forall (k k' : nat) (v : T) p rs,
        dispatchs o = [] -> completes o = [] -> d = DUser k -> c = CUser k' ->
        promises st2 !! p = Some (Pending rs) ->
        trace (exec (run_microtask (MDispatch s v p)) st2)
          = trace st ++ [Received k v; Resolved p]
        /\ trace (exec (run_microtask (MDispatch s v p)) st3)
          = trace st ++ [Resolved p]).
Proof.
  intros Hs. cbv zeta.
  assert (Hlt : s < length (subjects st)) by (by eapply lookup_lt_Some).
  unfold exec, eval.
  rewrite (Subject_subscribe_state s d c o st Hs). cbn [fst snd].
  set (o1 := mkSubject (Set_add Dispatch_id d (dispatchs o))
                       (Set_add Complete_id c (completes o))).
  set (st1 := set_promises _ _).
  assert (Hs1 : subjects st1 !! s = Some o1).
  { unfold st1. simpl. by rewrite list_lookup_insert_eq. }
  rewrite (Subject_subscribe_state s d c o1 st1 Hs1). cbn [fst snd].
  set (st2 := set_promises _ (set_subjects _ st1)).
  assert (E2 : subjects st2 = subjects st1).
  { unfold st2. simpl. unfold o1. simpl. rewrite !Set_add_idem.
    by rewrite list_insert_insert_eq. }
  assert (Hs2 : subjects st2 !! s = Some o1) by (by rewrite E2).
  rewrite (call_unsub_USubject s d c o1 st2 Hs2). cbn [fst snd].
  assert (Hs3 : subjects (set_subjects (<[s := mkSubject
             (Set_delete Dispatch_id d (dispatchs o1))
             (Set_delete Complete_id c (completes o1))]> (subjects st2)) st2) !! s
          = Some (mkSubject (Set_delete Dispatch_id d (dispatchs o))
                            (Set_delete Complete_id c (completes o)))).
  { simpl. rewrite list_lookup_insert_eq.
    - unfold o1. simpl. by rewrite !Set_delete_add.
    - rewrite length_insert. simpl. by rewrite length_insert. }
  split; [done|]. split; [done|].
  split; [apply Set_add_NoDup|]. split; [apply Set_add_NoDup|].
  split; [unfold st1; simpl; rewrite length_app; simpl; lia|].
  split.
  { unfold fulfilled, st2, st1. simpl.
    rewrite lookup_app_l by (rewrite length_app; simpl; lia).
    by rewrite lookup_fresh. }
  split.
  { unfold fulfilled, st2. simpl. by rewrite lookup_fresh. }
  split; [done|].
  split; [apply Set_delete_absent|]. split; [apply Set_delete_absent|].
  intros k k' v p rs Hd Hc -> -> Hp. split.
  - rewrite (run_MDispatch_users s v p o1 [k] rs st2); [done| done | | done].
    unfold o1. simpl. by rewrite Hd.
  - erewrite (run_MDispatch_users s v p _ [] rs); [done|exact Hs3| |done].
    simpl. by rewrite Hd.
Qed.

(** ** Signal.merge *)

Lemma subscribe_merge_unfold (signals : list (Signal T)) d c :
  subscribe (Signal_merge signals) d c
  = bind (new_promise (Pending [])) (fun result =>
    bind (fun st => (length (cells st),
            set_cells (cells st ++ [mkCell (Z.of_nat (length signals)) false]) st)) (fun cell =>
    bind (merge_subscribe d c cell signals) (fun ps =>
    bind (Promise_all ps) (fun all =>
    bind (then_ all (KMergeReturn result)) (fun _ => ret result))))).
Proof. reflexivity. Qed.

(** One call of a completion closure of [merge]. *)
Lemma call_complete_CMerge n cell (k : nat) z b st :
  cells st !! cell = Some (mkCell z b) ->
  call_complete (CMerge n cell (CUser k)) st
  = (tt, if (z - 1 <=? 0)%Z && negb b
         then set_cells (<[cell := mkCell (z - 1) true]> (cells st))
                (set_trace (trace st ++ [Completed (T:=T) k]) st)
         else set_cells (<[cell := mkCell (z - 1) b]> (cells st)) st).
Proof.
  intros Hc. assert (Hlt : cell < length (cells st)) by (by eapply lookup_lt_Some).
  cbn [call_complete]. unfold bind, update_cell, get_cell, modify, log, ret.
  simpl. rewrite Hc. simpl. rewrite list_lookup_insert_eq by done. simpl.
  destruct ((z - 1 <=? 0)%Z && negb b); simpl; [|done].
  rewrite list_lookup_insert_eq by done. simpl.
  unfold set_cells, set_trace. simpl. by rewrite list_insert_insert_eq.
Qed.

Lemma merge_history_counts cell (k : nat) (n m : nat) st st' :
  merge_history cell k m st st' ->
  cells st !! cell = Some (mkCell (Z.of_nat n) false) ->
  1 <= n ->
  cells st' !! cell = Some (mkCell (Z.of_nat n - Z.of_nat m) (n <=? m))
  /\ completions k (trace st')
     = completions k (trace st) + (if n <=? m then 1 else 0).
Proof.
  intros H Hc Hn. induction H as [st|m j st st' H IH|m st st' st'' H IH Hcell Htr].
  - destruct n as [|n]; [lia|]. cbn [Nat.leb Z.of_nat].
    rewrite Z.sub_0_r. split; [done|lia].
  - destruct (IH Hc) as [IHc IHt].
    assert (Hlt : cell < length (cells st')) by (by eapply lookup_lt_Some).
    unfold exec. rewrite (call_complete_CMerge j cell k _ _ st' IHc).
    cbn [snd].
    destruct (n <=? m) eqn:E1.
    + apply Nat.leb_le in E1. rewrite andb_false_r.
      assert (E2 : (n <=? S m) = true) by (apply Nat.leb_le; lia).
      rewrite E2. simpl. rewrite list_lookup_insert_eq by done.
      split; [|done]. do 2 f_equal. lia.
    + apply Nat.leb_gt in E1. rewrite andb_true_r.
      destruct (n <=? S m) eqn:E2.
      * apply Nat.leb_le in E2.
        assert (E3 : (Z.of_nat n - Z.of_nat m - 1 <=? 0)%Z = true)
          by (apply Z.leb_le; lia).
        rewrite E3. simpl. rewrite list_lookup_insert_eq by done.
        split; [do 2 f_equal; lia|].
        rewrite completions_app. simpl. rewrite Nat.eqb_refl. lia.
      * apply Nat.leb_gt in E2.
        assert (E3 : (Z.of_nat n - Z.of_nat m - 1 <=? 0)%Z = false)
          by (apply Z.leb_gt; lia).
        rewrite E3. simpl. rewrite list_lookup_insert_eq by done.
        split; [do 2 f_equal; lia|done].
  - destruct (IH Hc) as [IHc IHt]. split; congruence.
Qed.

Lemma then_trace p (k : Cont T) st : trace (snd (then_ p k st)) = trace st.
Proof. unfold then_. by destruct (promises st !! p) as [[rs|v]|]. Qed.

Lemma forEach_trace {A : Type} (f : A -> M T unit) (l : list A) st :
  (forall a st', trace (snd (f a st')) = trace st') ->
  trace (snd (forEach f l st)) = trace st.
Proof.
  intros Hf. revert st. induction l as [|a l IH]; intros st; simpl; [done|].
  unfold bind. by rewrite IH, Hf.
Qed.

Lemma Promise_all_trace (ps : list nat) st :
  trace (snd (Promise_all (T:=T) ps st)) = trace st.
Proof.
  unfold Promise_all. destruct ps as [|p ps]; [done|].
  unfold bind, ret. cbn [snd]. rewrite forEach_trace; [done|].
  intros; apply then_trace.
Qed.

Lemma merge_subscribe_cons d c cell (signal : Signal T) l st :
  merge_subscribe d c cell (signal :: l) st
  = (fst (subscribe signal d (CMerge (next_fn st) cell c) (set_next_fn (S (next_fn st)) st))
       :: fst (merge_subscribe d c cell l
                 (snd (subscribe signal d (CMerge (next_fn st) cell c)
                         (set_next_fn (S (next_fn st)) st)))),
     snd (merge_subscribe d c cell l
            (snd (subscribe signal d (CMerge (next_fn st) cell c)
                    (set_next_fn (S (next_fn st)) st))))).
Proof. reflexivity. Qed.

(** An input [of(...l)] of a merge: its payloads, then one call of its
    completion closure. *)
Lemma subscribe_of_CMerge l (k k' : nat) n cell z b st :
  cells st !! cell = Some (mkCell z b) ->
  snd (subscribe (Signal_of l) (DUser k) (CMerge n cell (CUser k')) st)
  = set_promises (promises st ++ [Fulfilled (VUnsub UNoop)])
      (if (z - 1 <=? 0)%Z && negb b
       then set_cells (<[cell := mkCell (z - 1) true]> (cells st))
              (set_trace (trace st ++ map (Received k) l ++ [Completed k']) st)
       else set_cells (<[cell := mkCell (z - 1) b]> (cells st))
              (set_trace (trace st ++ map (Received k) l) st)).
Proof.
  intros Hc. cbn [subscribe]. unfold bind. rewrite forEach_DUser. cbn [snd].
  rewrite (call_complete_CMerge n cell k' z b) by done.
  unfold new_promise. cbn [snd].
  destruct ((z - 1 <=? 0)%Z && negb b); destruct st;
    unfold set_promises, set_cells, set_trace; simpl; [|done].
  by rewrite <- app_assoc.
Qed.

(** Inputs that are all [of(...)], with [r] more inputs counted. *)
Lemma merge_subscribe_of (k k' : nat) cell (ls : list (list T)) (r : nat) st :
  cells st !! cell = Some (mkCell (Z.of_nat (length ls + r)) false) ->
  let st' := snd (merge_subscribe (DUser k) (CUser k') cell (map Signal_of ls) st) in
  let last := (r =? 0) && negb (length ls =? 0) in
  trace st' = trace st ++ map (Received k) (concat ls)
                ++ (if last then [Completed k'] else [])
  /\ cells st' !! cell = Some (mkCell (Z.of_nat r) last)
  /\ queue st' = queue st /\ subjects st' = subjects st.
Proof.
  cbv zeta. revert st. induction ls as [|l ls IH]; intros st Hc.
  - simpl. rewrite andb_false_r, app_nil_r. by simpl in Hc.
  - cbn [map]. rewrite merge_subscribe_cons. cbn [snd].
    set (st0 := set_next_fn (S (next_fn st)) st).
    assert (Hc0 : cells st0 !! cell
                  = Some (mkCell (Z.of_nat (length (l :: ls) + r)) false)) by done.
    assert (Hlt : cell < length (cells st0)) by (by eapply lookup_lt_Some).
    rewrite (subscribe_of_CMerge l k k' (next_fn st) cell _ _ st0 Hc0).
    cbn [negb]. rewrite andb_true_r.
    destruct (Z.of_nat (length (l :: ls) + r) - 1 <=? 0)%Z eqn:E.
    + apply Z.leb_le in E. simpl in E.
      assert (ls = [] /\ r = 0) as [-> ->] by (destruct ls; simpl in *; split; [done|lia|lia|lia]).
      simpl. rewrite list_lookup_insert_eq by done.
      rewrite app_nil_r. done.
    + apply Z.leb_gt in E.
      set (st1 := set_promises _ _).
      assert (Hc1 : cells st1 !! cell = Some (mkCell (Z.of_nat (length ls + r)) false)).
      { unfold st1. simpl. rewrite list_lookup_insert_eq by done.
        do 2 f_equal. simpl length. lia. }
      destruct (IH st1 Hc1) as (Ht & Hcell & Hq & Hs).
      assert (El : (r =? 0) && negb (length ls =? 0) = (r =? 0) && negb (length (l :: ls) =? 0)).
      { simpl length in *. destruct r; simpl; [|done].
        destruct ls; simpl in *; [lia|done]. }
      rewrite <- El. split; [|split; [done|split; done]].
      rewrite Ht. unfold st1. simpl. rewrite map_app.
      by rewrite <- !app_assoc.
Qed.

(** C5. A subscription to [merge(...signals)] starts its counter at the
    number of inputs and gives each input a completion closure over that
    counter. From a counter at [n >= 1], in every history of [m] calls of
    these closures, in any order and in any turns, the counter is [n - m],
    the latch is set exactly when [n <= m], and the subscriber's
    completion callback has been called once if [n <= m] and not at all
    otherwise: the [n]-th call signals completion and the latch keeps every
    later call silent. When all inputs are [of(...)], which complete in
    the turn that subscribes to them, the subscriber receives all payloads
    and then one completion. *)
Theorem merge_completes_exactly_once :
  (forall (signals : list (Signal T)) d c,
     subscribe (Signal_merge signals) d c
     = bind (new_promise (Pending [])) (fun result =>
       bind (fun st => (length (cells st),
               set_cells (cells st ++ [mkCell (Z.of_nat (length signals)) false]) st)) (fun cell =>
       bind (merge_subscribe d c cell signals) (fun ps =>
       bind (Promise_all ps) (fun all =>
       bind (then_ all (KMergeReturn result)) (fun _ => ret result))))))
  /\ (forall cell (k : nat) (n m : nat) (st st' : State T),
       merge_history cell k m st st' ->
       cells st !! cell = Some (mkCell (Z.of_nat n) false) ->
       1 <= n ->
       cells st' !! cell = Some (mkCell (Z.of_nat n - Z.of_nat m) (n <=? m))
       /\ completions k (trace st')
          = completions k (trace st) + (if n <=? m then 1 else 0))
  /\ (forall (ls : list (list T)) (k k' : nat) st,
       1 <= length ls ->
       let st' := exec (subscribe (Signal_merge (map Signal_of ls)) (DUser k) (CUser k')) st in
       trace st' = trace st ++ map (Received k) (concat ls) ++ [Completed k']
       /\ completions k' (trace st') = S (completions k' (trace st))).
Proof.
  split; [|split].
  - intros. apply subscribe_merge_unfold.
  - intros cell k n m st st' H Hc Hn.
    exact (merge_history_counts cell k n m st st' H Hc Hn).
  - intros ls k k' st Hls. cbv zeta.
    assert (Ht : trace (exec (subscribe (Signal_merge (map Signal_of ls)) (DUser k) (CUser k')) st)
                 = trace st ++ map (Received k) (concat ls) ++ [Completed k']).
    { unfold exec. rewrite subscribe_merge_unfold. unfold bind, ret. cbn [snd fst].
      rewrite then_trace, Promise_all_trace.
      set (st0 := set_cells _ _).
      assert (Hc : cells st0 !! length (cells st)
                   = Some (mkCell (Z.of_nat (length ls + 0)) false)).
      { unfold st0. simpl. rewrite lookup_fresh, length_map.
        by rewrite Nat.add_0_r. }
      destruct (merge_subscribe_of k k' _ ls 0 st0 Hc) as (Ht & _).
      unfold new_promise in *. cbn [fst snd] in *. fold st0.
      change (cells (set_promises (promises st ++ [Pending []]) st)) with (cells st).
      rewrite Ht.
      destruct ls; [simpl in Hls; lia|done]. }
    split; [done|]. rewrite Ht, !completions_app, completions_Received.
    simpl. rewrite Nat.eqb_refl. lia.
Qed.

(** ** Signal.loop *)

Lemma lookup_app_plus {A : Type} (l1 l2 : list A) (i : nat) :
  (l1 ++ l2) !! (length l1 + i) = l2 !! i.
Proof. rewrite lookup_app_r by lia. f_equal. lia. Qed.

Lemma then_fulfilled p (k : Cont T) v st :
  promises st !! p = Some (Fulfilled v) ->
  then_ p k st = (tt, set_queue (queue st ++ [MReaction k v]) st).
Proof. intros H. unfold then_. by rewrite H. Qed.

(** What the call [loop(handler).subscribe(d, c)] does before it returns:
    the hub exists with [d] and [c] as its only members, and the rest of
    the function waits in the queue. *)
Lemma subscribe_loop_state (handler : nat -> Signal T) d c st :
  subscribe (Signal_loop handler) d c st
  = (length (promises st),
     set_queue
       (queue st ++ [MReaction (KLoopHandler (length (subjects st)) handler (length (promises st)))
                               (VUnsub (USubject (length (subjects st)) d c))])
       (set_promises
          (promises st ++ [Pending []; Fulfilled (VUnsub (USubject (length (subjects st)) d c))])
          (set_subjects (subjects st ++ [mkSubject [d] [c]]) st))).
Proof.
  cbn [subscribe]. unfold bind, ret, new_promise, new_Subject. cbn [fst snd].
  set (stB := set_subjects _ (set_promises _ st)).
  assert (Hs : subjects stB !! length (subjects st) = Some (mkSubject [] []))
    by apply lookup_fresh.
  change (subjects (set_promises (promises st ++ [Pending []]) st)) with (subjects st).
  rewrite (Subject_subscribe_state _ d c _ stB Hs). cbn [fst snd].
  rewrite (then_fulfilled _ _ (VUnsub (USubject (length (subjects st)) d c))).
  - unfold stB. simpl. rewrite insert_middle. simpl.
    destruct st; unfold set_queue, set_promises, set_subjects; simpl.
    by rewrite <- !app_assoc.
  - unfold stB. simpl. apply lookup_fresh.
Qed.

(** C3. The call [loop(handler).subscribe(d, c)] creates the hub, a new
    subject whose only members are the caller's [d] and [c], and stops at
    its first [await]: the rest of the function is one job at the end of
    the queue, no closure over the hub has been created and the returned
    promise is pending. That job is where [handler] is applied to the hub
    and where the sink is subscribed, with [source.dispatch.bind(source)]
    and [source.complete.bind(source)] as its callbacks; calling these
    is calling [dispatch] and [complete] of the hub. From an idle event
    loop the job is the next turn. *)
Theorem loop_registers_caller_before_handler (handler : nat -> Signal T) d c st :
  let source := length (subjects st) in
  let result := length (promises st) in
  let st1 := exec (subscribe (Signal_loop handler) d c) st in
  let job := MReaction (KLoopHandler source handler result) (VUnsub (USubject source d c)) in
  let body := fun st2 : State T =>
    exec (bind new_closure (fun n1 =>
          bind new_closure (fun n2 =>
          bind (subscribe (handler source) (DBound n1 source) (CBound n2 source)) (fun p =>
          then_ p (KLoopReturn source result))))) st2 in
  eval (subscribe (Signal_loop handler) d c) st = result
  /\ subjects st1 = subjects st ++ [mkSubject [d] [c]]
  /\ queue st1 = queue st ++ [job]
  /\ trace st1 = trace st
  /\ next_fn st1 = next_fn st
  /\ fulfilled result st1 = None
  /\ (forall st2, exec (run_microtask job) st2 = body st2)
  /\ (queue st = [] -> turn st1 = body (set_queue [] st1))
  /\ (forall n (v : T) st2,
        call_dispatch (DBound n source) v st2 = (tt, exec (Subject_dispatch source v) st2))
  /\ (forall n st2,
        call_complete (CBound n source) st2 = (tt, exec (Subject_complete (T:=T) source) st2)).
Proof.
  cbv zeta. unfold exec, eval. rewrite subscribe_loop_state. cbn [fst snd].
  repeat split.
  - unfold fulfilled. simpl.
    by rewrite (list_lookup_middle (promises st) _ _ _ eq_refl).
  - intros Hq. unfold turn. cbn [queue set_queue]. rewrite Hq. done.
Qed.

(** The loop whose handler returns its source, two turns after the
    subscription: the hub holds the caller's callbacks and its own bound
    [dispatch] and [complete], the returned promise is fulfilled. *)
Lemma identity_loop_ready (k k' : nat) st :
  queue st = [] ->
  let source := length (subjects st) in
  let unsubSink := USubject source (DBound (next_fn st) source) (CBound (S (next_fn st)) source) in
  run 2 (exec (subscribe (Signal_loop Subject) (DUser k) (CUser k')) st)
  = set_next_fn (S (S (next_fn st)))
      (set_trace (trace st ++ [Resolved (length (promises st))])
         (set_promises
            (promises st ++ [Fulfilled (VUnsub (ULoop source unsubSink));
                             Fulfilled (VUnsub (USubject source (DUser k) (CUser k')));
                             Fulfilled (VUnsub unsubSink)])
            (set_subjects
               (subjects st ++ [mkSubject [DUser k; DBound (next_fn st) source]
                                          [CUser k'; CBound (S (next_fn st)) source]])
               st))).
Proof.
  intros Hq. cbv zeta.
  destruct st as [subs proms cls als q tr nf]. simpl in Hq. subst q.
  unfold exec. rewrite subscribe_loop_state.
  change (run 2 ?x) with (turn (turn x)).
  unfold turn at 2. norm.
  cbn [run_microtask run_cont subscribe]. norm.
  rewrite (Subject_subscribe_state _ _ _ (mkSubject [DUser k] [CUser k']))
    by apply lookup_fresh.
  norm.
  rewrite (then_fulfilled _ _ (VUnsub (USubject (length subs) (DBound nf (length subs))
                                         (CBound (S nf) (length subs)))))
    by apply lookup_fresh.
  norm. unfold turn. norm. cbn [run_microtask run_cont].
  assert (Hp : forall x y z : PromiseState T,
             ((proms ++ [x; y]) ++ [z]) !! length proms = Some x).
  { intros. rewrite <- app_assoc. by apply list_lookup_middle. }
  rewrite (resolve_pending (length proms) _ []) by apply Hp.
  norm. rewrite insert_middle.
  rewrite <- (app_assoc proms). cbn [app]. rewrite (insert_middle proms).
  done.
Qed.

(** One round trip in that loop: the job of an emission hands [v] to the
    caller, and the hub's own bound [dispatch] schedules [v] again, behind
    the jobs [q] that were already waiting. *)
Lemma identity_cycle_turn source (k n1 : nat) cs (v : T) p q st :
  subjects st !! source = Some (mkSubject [DUser k; DBound n1 source] cs) ->
  queue st = MDispatch source v p :: q ->
  promises st !! p = Some (Pending []) ->
  turn st
  = set_trace (trace st ++ [Received k v; Resolved p])
      (set_queue (q ++ [MDispatch source v (length (promises st))])
         (set_promises (<[p := Fulfilled VVoid]> (promises st ++ [Pending []])) st)).
Proof.
  intros Hs Hq Hp. destruct st as [subs proms cls als q0 tr nf].
  simpl in Hs, Hq, Hp. subst q0.
  unfold turn. norm. cbn [run_microtask]. unfold get_dispatchs. norm.
  rewrite Hs. cbn [dispatchs forEach call_dispatch]. unfold Subject_dispatch. norm.
  rewrite (resolve_pending p _ []) by (by apply lookup_app_l_Some).
  norm. by rewrite <- !app_assoc, app_nil_r.
Qed.

Lemma identity_cycle_run source (k n1 : nat) cs (v : T) (n : nat) p st :
  subjects st !! source = Some (mkSubject [DUser k; DBound n1 source] cs) ->
  queue st = [MDispatch source v p] ->
  promises st !! p = Some (Pending []) ->
  received k (trace (run n st)) = received k (trace st) ++ replicate n v
  /\ exists p', queue (run n st) = [MDispatch source v p'].
Proof.
  revert p st. induction n as [|n IH]; intros p st Hs Hq Hp.
  - simpl. rewrite app_nil_r. eauto.
  - rewrite run_S, (identity_cycle_turn source k n1 cs v p [] st Hs Hq Hp).
    assert (Hlt : p < length (promises st)) by (by eapply lookup_lt_Some).
    edestruct (IH (length (promises st))) as [Hr Hq']; last first.
    + split; [|exact Hq'].
      rewrite Hr. simpl. rewrite received_app. simpl.
      rewrite Nat.eqb_refl. by rewrite <- app_assoc.
    + simpl. rewrite list_lookup_insert_ne by lia. apply lookup_fresh.
    + done.
    + done.
Qed.

(** C4. In the loop whose handler returns its source the hub holds the
    subscriber's callback and its own bound [dispatch]. A round trip is the
    job of one emission: it hands the value to the external subscriber
    once and schedules it once, behind the emissions already waiting, and
    changes no membership. So a value emitted on the hub of a subscribed
    loop goes round for ever, once per turn: after [n] turns the subscriber
    has received [n] copies and one emission of [v] is queued. *)
Theorem identity_loop_reemits_once_per_round_trip :
  (forall source (k n1 : nat) cs (v : T) p q st,
     subjects st !! source = Some (mkSubject [DUser k; DBound n1 source] cs) ->
     queue st = MDispatch source v p :: q ->
     promises st !! p = Some (Pending []) ->
     received k (trace (turn st)) = received k (trace st) ++ [v]
     /\ queue (turn st) = q ++ [MDispatch source v (length (promises st))]
     /\ subjects (turn st) = subjects st)
  /\ (forall (k k' : nat) (v : T) (n : nat) st,
       queue st = [] ->
       let source := length (subjects st) in
       let ready := run 2 (exec (subscribe (Signal_loop Subject) (DUser k) (CUser k')) st) in
       let injected := exec (Subject_dispatch source v) ready in
       queue ready = []
       /\ subjects ready !! source
          = Some (mkSubject [DUser k; DBound (next_fn st) source]
                            [CUser k'; CBound (S (next_fn st)) source])
       /\ received k (trace ready) = received k (trace st)
       /\ received k (trace (run n injected)) = received k (trace st) ++ replicate n v
       /\ received k (trace (run (S n) injected))
          = received k (trace (run n injected)) ++ [v]
       /\ exists p, queue (run n injected) = [MDispatch source v p]).
Proof.
  split.
  { intros source k n1 cs v p q st Hs Hq Hp.
    rewrite (identity_cycle_turn source k n1 cs v p q st Hs Hq Hp). simpl.
    repeat split. rewrite received_app. simpl. by rewrite Nat.eqb_refl. }
  intros k k' v n st Hq. cbv zeta. rewrite (identity_loop_ready k k' st Hq).
  set (ready := set_next_fn _ _).
  assert (Hr : received k (trace ready) = received k (trace st)).
  { unfold ready. simpl. rewrite received_app. simpl. apply app_nil_r. }
  assert (Hcycle : forall m,
    received k (trace (run m (exec (Subject_dispatch (length (subjects st)) v) ready)))
      = received k (trace st) ++ replicate m v
    /\ exists p, queue (run m (exec (Subject_dispatch (length (subjects st)) v) ready))
                 = [MDispatch (length (subjects st)) v p]).
  { intros m. unfold exec. rewrite Subject_dispatch_state. cbn [snd].
    set (injected := set_queue _ _).
    destruct (identity_cycle_run (length (subjects st)) k (next_fn st)
                [CUser k'; CBound (S (next_fn st)) (length (subjects st))]
                v m (length (promises ready)) injected) as [H1 H2].
    - unfold injected, ready. simpl. apply lookup_fresh.
    - unfold injected, ready. simpl. by rewrite Hq.
    - unfold injected. simpl. apply lookup_fresh.
    - split; [|done]. rewrite H1.
      change (trace injected) with (trace ready). by rewrite Hr. }
  split; [by unfold ready; simpl|].
  split; [unfold ready; simpl; apply lookup_fresh|]. split; [done|].
  destruct (Hcycle n) as [Hn Hqn]. destruct (Hcycle (S n)) as [HSn _].
  split; [done|]. split; [|done].
  rewrite HSn, Hn, replicate_S_end. by rewrite app_assoc.
Qed.

Lemma call_unsub_ULoop source u st :
  call_unsub (ULoop source u) st = call_unsub u (snd (Subject_complete source st)).
Proof. reflexivity. Qed.

(** The store after the [Unsubscribe] of that loop has been invoked. *)
Lemma identity_loop_unsubscribed (k k' : nat) st :
  queue st = [] ->
  let source := length (subjects st) in
  let unsubSink := USubject source (DBound (next_fn st) source) (CBound (S (next_fn st)) source) in
  exec (call_unsub (ULoop source unsubSink))
    (run 2 (exec (subscribe (Signal_loop Subject) (DUser k) (CUser k')) st))
  = set_queue [MComplete source (length (promises st) + 3)]
      (set_next_fn (S (S (next_fn st)))
        (set_trace (trace st ++ [Resolved (length (promises st))])
          (set_promises
            (promises st ++ [Fulfilled (VUnsub (ULoop source unsubSink));
                             Fulfilled (VUnsub (USubject source (DUser k) (CUser k')));
                             Fulfilled (VUnsub unsubSink);
                             Pending []])
            (set_subjects (subjects st ++ [mkSubject [DUser k] [CUser k']]) st)))).
Proof.
  intros Hq. cbv zeta. rewrite (identity_loop_ready k k' st Hq).
  unfold exec. rewrite call_unsub_ULoop, Subject_complete_state.
  rewrite (call_unsub_USubject _ _ _
             (mkSubject [DUser k; DBound (next_fn st) (length (subjects st))]
                        [CUser k'; CBound (S (next_fn st)) (length (subjects st))]))
    by apply lookup_fresh.
  cbn [fst snd].
  apply State_ext; simpl; try done.
  - rewrite insert_middle. by rewrite !Nat.eqb_refl.
  - by rewrite <- app_assoc.
  - rewrite Hq, length_app. done.
Qed.

(** C2. The promise of a subscription to [loop(handler)] is fulfilled
    with the closure [() => { source.complete(); unsubSink(); }] over the
    hub and the sink's [Unsubscribe]. Invoking it is [source.complete()],
    which queues the completion job of the hub and touches no membership
    set, followed by [unsubSink()] on the state that call leaves. In the
    loop whose handler returns its source: the hub's completion job is
    queued first, then the sink's callbacks leave the hub, and the job
    completes the caller. *)
Theorem loop_unsubscribe_completes_hub_then_unsubscribes_sink :
  (forall source result u rs st,
     promises st !! result = Some (Pending rs) ->
     fulfilled (T:=T) result
       (exec (run_microtask (MReaction (KLoopReturn source result) (VUnsub u))) st)
     = Some (VUnsub (ULoop source u)))
  /\ (forall source u st,
       let st1 := exec (Subject_complete source) st in
       exec (call_unsub (T:=T) (ULoop source u)) st = exec (call_unsub u) st1
       /\ queue st1 = queue st ++ [MComplete source (length (promises st))]
       /\ subjects st1 = subjects st
       /\ trace st1 = trace st)
  /\ (forall (k k' : nat) (st : State T),
       queue st = [] ->
       let source := length (subjects st) in
       let result := length (promises st) in
       let unsubSink :=
         USubject source (DBound (next_fn st) source) (CBound (S (next_fn st)) source) in
       let ready := run 2 (exec (subscribe (Signal_loop Subject) (DUser k) (CUser k')) st) in
       let st' := exec (call_unsub (ULoop source unsubSink)) ready in
       fulfilled result ready = Some (VUnsub (ULoop source unsubSink))
       /\ queue st' = [MComplete source (result + 3)]
       /\ subjects st' !! source = Some (mkSubject [DUser k] [CUser k'])
       /\ trace (turn st')
          = trace st ++ [Resolved result; Completed k'; Resolved (result + 3)]
       /\ queue (turn st') = []).
Proof.
  split; [|split].
  - intros source result u rs st Hp. unfold exec. cbn [run_microtask run_cont].
    rewrite (resolve_pending _ _ rs) by done. cbn [snd].
    eapply fulfilled_insert; [by eapply lookup_lt_Some|done].
  - intros source u st. cbv zeta. unfold exec.
    rewrite Subject_complete_state. cbn [snd]. repeat split.
  - intros k k' st Hq. cbv zeta.
    rewrite (identity_loop_unsubscribed k k' st Hq).
    rewrite (identity_loop_ready k k' st Hq).
    set (p := length (promises st) + 3).
    set (st' := set_queue _ _).
    split.
    { unfold fulfilled. simpl. by rewrite (list_lookup_middle (promises st) _ _ _ eq_refl). }
    split; [done|]. split; [apply lookup_fresh|].
    assert (Hp : promises st' !! p = Some (Pending [])).
    { unfold st', p. simpl. by rewrite lookup_app_plus. }
    unfold turn. change (queue st') with [MComplete (T:=T) (length (subjects st)) p].
    unfold exec.
    rewrite (run_MComplete_users _ _ (mkSubject [DUser k] [CUser k']) [k'] []);
      [|apply lookup_fresh|done|exact Hp].
    cbn [snd]. split; [|done].
    unfold st'. simpl. by rewrite <- app_assoc.
Qed.

End Properties.

(** ** map then filter *)

(** C7. For any source, [source.map(fn).filter(p)] hands the source one
    callback, which on a payload [v] calls the subscriber with [fn v] when
    [p (fn v)] holds and does nothing otherwise: the payloads that pass are
    those the composed predicate [x => p(fn(x))] selects, and they arrive
    mapped. Over [of(...payloads)] the subscriber of the composition
    receives, value for value, the image under [fn] of what a subscriber of
    the source filtered by the composed predicate receives, then the
    completion. For the payloads 1, 2, 3, 4, [map(x => x * 2)] then
    [filter(x => x > 4)] yields 6 and 8, in this order. *)
Theorem map_then_filter_selects_by_composed_predicate :
  (forall (T : Type) (fn : T -> T) (p : T -> bool) (source : Signal T) d c st,
     subscribe (Signal_filter p (Signal_map fn source)) d c st
     = subscribe source (DMap (S (next_fn st)) fn (DFilter (next_fn st) p d)) c
         (set_next_fn (S (S (next_fn st))) st))
  /\ (forall (T : Type) (fn : T -> T) (p : T -> bool) n m d (v : T) st,
       call_dispatch (DMap n fn (DFilter m p d)) v st
       = if p (fn v) then call_dispatch d (fn v) st else (tt, st))
  /\ (forall (T : Type) (fn : T -> T) (p : T -> bool) (payloads : list T) (k k' : nat) st,
       let composed :=
         exec (subscribe (Signal_filter p (Signal_map fn (Signal_of payloads)))
                 (DUser k) (CUser k')) st in
       let filtered :=
         exec (subscribe (Signal_filter (fun x => p (fn x)) (Signal_of payloads))
                 (DUser k) (CUser k')) st in
       trace filtered
         = trace st ++ map (Received k) (List.filter (fun x => p (fn x)) payloads)
             ++ [Completed k']
       /\ trace composed
         = trace st ++ map (Received k) (map fn (List.filter (fun x => p (fn x)) payloads))
             ++ [Completed k']
       /\ trace composed
         = trace (exec (subscribe (Signal_map fn (Signal_filter (fun x => p (fn x))
                                                   (Signal_of payloads)))
                          (DUser k) (CUser k')) st))
  /\ trace (exec (subscribe
                    (Signal_filter (fun x => (4 <? x)%Z)
                       (Signal_map (fun x => (x * 2)%Z) (Signal_of [1; 2; 3; 4]%Z)))
                    (DUser 0) (CUser 0)) init)
     = [Received 0 6%Z; Received 0 8%Z; Completed 0].
Proof.
  split; [|split; [|split]].
  - intros. apply subscribe_map_filter.
  - intros. simpl. by destruct (p (fn v)).
  - intros T fn p payloads k k' st. cbv zeta. split; [|split].
    + unfold exec. cbn [subscribe]. unfold bind, new_closure. cbn [fst snd].
      rewrite forEach_DFilter, forEach_DUser. simpl. by rewrite <- app_assoc.
    + apply map_filter_of_trace.
    + by rewrite map_filter_of_trace, filter_map_of_trace.
  - reflexivity.
Qed.

(** * The theorems at concrete inputs *)

(** C1, as stated, fails: the callback registered when [dispatch(7)] was
    called is removed before the job runs. It is never called, although it
    was a member when the emission was scheduled, and the promise of the
    call is fulfilled all the same. A callback registered after the call
    and before the job, on the other hand, is given the value. *)
Lemma dispatch_skips_callback_removed_after_scheduling :
  let st0 := exec (Subject_subscribe 0 (DUser 0) (CUser 0)) (exec new_Subject (init (T:=Z))) in
  let st1 := exec (Subject_dispatch 0 7%Z) st0 in
  let removed := exec (call_unsub (USubject 0 (DUser 0) (CUser 0))) st1 in
  let added := exec (Subject_subscribe 0 (DUser 1) (CUser 1)) st1 in
  eval (get_dispatchs 0) st0 = [DUser 0]
  /\ eval (get_dispatchs 0) st1 = [DUser 0]
  /\ queue st1 = [MDispatch 0 7%Z 1]
  /\ trace (turn removed) = [Resolved 1]
  /\ received 0 (trace (turn removed)) = []
  /\ fulfilled 1 (turn removed) = Some VVoid
  /\ (forall n, run n (turn removed) = turn removed)
  /\ trace (turn added) = [Received 0 7%Z; Received 1 7%Z; Resolved 1].
Proof.
  cbv zeta. repeat split; try reflexivity.
  intros n. by apply run_idle.
Qed.

Lemma dispatch_invokes_current_callbacks_in_order_witness :
  queue two_subscribers = []
  /\ subjects two_subscribers !! 0 = Some (mkSubject [DUser 0; DUser 1] [CUser 0; CUser 1])
  /\ trace (turn (exec (Subject_dispatch 0 7%Z) two_subscribers))
     = [Received 0 7%Z; Received 1 7%Z; Resolved 2]
  /\ fulfilled 2 (turn (exec (Subject_dispatch 0 7%Z) two_subscribers)) = Some VVoid.
Proof.
  split; [reflexivity|]. split; [reflexivity|].
  destruct (dispatch_invokes_current_callbacks_in_order (T:=Z)) as (_ & _ & _ & H).
  destruct (H 0 7%Z (mkSubject [DUser 0; DUser 1] [CUser 0; CUser 1]) [0; 1]
              two_subscribers eq_refl eq_refl eq_refl) as (Ht & Hf & _).
  split; [exact Ht|exact Hf].
Defined.

Lemma complete_invokes_all_and_keeps_membership_witness :
  let st := exec (Subject_complete 0) two_subscribers in
  queue st = [MComplete 0 2]
  /\ subjects st !! 0 = Some (mkSubject [DUser 0; DUser 1] [CUser 0; CUser 1])
  /\ promises st !! 2 = Some (Pending [])
  /\ trace (exec (run_microtask (MComplete 0 2)) st) = [Completed 0; Completed 1; Resolved 2]
  /\ subjects (exec (run_microtask (MComplete 0 2)) st) !! 0
     = Some (mkSubject [DUser 0; DUser 1] [CUser 0; CUser 1]).
Proof.
  cbv zeta. split; [reflexivity|]. split; [reflexivity|]. split; [reflexivity|].
  destruct (complete_invokes_all_and_keeps_membership (T:=Z)) as (_ & _ & _ & H & _).
  exact (H 0 2 (mkSubject [DUser 0; DUser 1] [CUser 0; CUser 1]) [0; 1] []
           (exec (Subject_complete 0) two_subscribers) eq_refl eq_refl eq_refl).
Defined.

Lemma same_callbacks_register_once_witness :
  let st := exec new_Subject (init (T:=Z)) in
  let st2 := exec (Subject_subscribe 0 (DUser 0) (CUser 0))
               (exec (Subject_subscribe 0 (DUser 0) (CUser 0)) st) in
  subjects st !! 0 = Some (mkSubject [] [])
  /\ subjects st2 !! 0 = Some (mkSubject [DUser 0] [CUser 0])
  /\ subjects (exec (call_unsub (USubject 0 (DUser 0) (CUser 0))) st2) !! 0
     = Some (mkSubject [] []).
Proof.
  cbv zeta. split; [reflexivity|].
  destruct (same_callbacks_register_once (T:=Z) 0 (DUser 0) (CUser 0) (mkSubject [] [])
              (exec new_Subject init) eq_refl)
    as (_ & H2 & _ & _ & _ & _ & _ & H3 & _).
  split; [exact H2|exact H3].
Defined.

Lemma merge_of_nothing_is_silent_witness :
  queue (init (T:=Z)) = []
  /\ trace (run 3 (exec (subscribe (Signal_merge []) (DUser 0) (CUser 0)) (init (T:=Z))))
     = [Resolved 0]
  /\ queue (run 3 (exec (subscribe (Signal_merge []) (DUser 0) (CUser 0)) (init (T:=Z))))
     = [].
Proof.
  split; [reflexivity|].
  destruct (merge_of_nothing_is_silent (T:=Z) (DUser 0) (CUser 0) init 2 eq_refl)
    as (_ & _ & _ & Ht & Hq & _).
  split; [exact Ht|exact Hq].
Defined.

Lemma merge_completes_exactly_once_witness :
  let st : State Z := mkState [] [] [mkCell 2 false] [] [] [] 0 in
  let st' := exec (call_complete (CMerge 1 0 (CUser 0)))
               (exec (call_complete (CMerge 0 0 (CUser 0))) st) in
  merge_history 0 0 2 st st'
  /\ cells st !! 0 = Some (mkCell (Z.of_nat 2) false)
  /\ 1 <= 2
  /\ completions 0 (trace st') = 1
  /\ trace (exec (subscribe (Signal_merge (map Signal_of [[1]; [2; 3]]%Z))
                    (DUser 0) (CUser 0)) (init (T:=Z)))
     = [Received 0 1%Z; Received 0 2%Z; Received 0 3%Z; Completed 0].
Proof.
  cbv zeta.
  assert (H : merge_history 0 0 2 (mkState (T:=Z) [] [] [mkCell 2 false] [] [] [] 0)
                (exec (call_complete (CMerge 1 0 (CUser 0)))
                   (exec (call_complete (CMerge 0 0 (CUser 0)))
                      (mkState [] [] [mkCell 2 false] [] [] [] 0))))
    by (apply mh_input_completes, mh_input_completes, mh_start).
  split; [exact H|]. split; [reflexivity|]. split; [lia|].
  destruct (merge_completes_exactly_once (T:=Z)) as (_ & Hm & Ho).
  split.
  - destruct (Hm 0 0 2 2 _ _ H eq_refl (le_S 1 1 (le_n 1))) as [_ Hc]. exact Hc.
  - destruct (Ho [[1]; [2; 3]]%Z 0 0 init (le_S 1 1 (le_n 1))) as [Ht _]. exact Ht.
Defined.

(** Two subjects merged: whichever completes first, in separate turns or in
    the same one, the subscriber is completed once; and once more
    completions of an input change nothing. *)
Example merge_of_two_subjects_completes_once :
  trace merged_subjects = [Resolved 3; Resolved 0]
  /\ completions 0 (trace (run 1 (exec (Subject_complete 0) merged_subjects))) = 0
  /\ completions 0 (trace (run 2 (exec (Subject_complete 1)
                                     (run 1 (exec (Subject_complete 0) merged_subjects))))) = 1
  /\ completions 0 (trace (run 2 (exec (Subject_complete 0)
                                     (run 1 (exec (Subject_complete 1) merged_subjects))))) = 1
  /\ completions 0 (trace (run 2 (exec (Subject_complete 1)
                                     (exec (Subject_complete 0) merged_subjects)))) = 1
  /\ completions 0 (trace (run 3 (exec (Subject_complete 0)
                                     (exec (Subject_complete 1)
                                        (exec (Subject_complete 0) merged_subjects))))) = 1.
Proof. repeat split. Qed.

Lemma loop_registers_caller_before_handler_witness :
  let st1 := exec (subscribe (Signal_loop (fun _ => Signal_of [1; 2]%Z)) (DUser 0) (CUser 0))
               (init (T:=Z)) in
  queue (init (T:=Z)) = []
  /\ subjects st1 = [mkSubject [DUser 0] [CUser 0]]
  /\ trace st1 = []
  /\ queue (turn st1)
     = [MDispatch 0 1%Z 2; MDispatch 0 2%Z 3; MComplete 0 4;
        MReaction (KLoopReturn 0 0) (VUnsub UNoop)]
  /\ trace (run 5 st1)
     = [Received 0 1%Z; Resolved 2; Received 0 2%Z; Resolved 3; Completed 0;
        Resolved 4; Resolved 0].
Proof.
  cbv zeta. split; [reflexivity|].
  destruct (loop_registers_caller_before_handler (T:=Z) (fun _ => Signal_of [1; 2]%Z)
              (DUser 0) (CUser 0) init)
    as (_ & Hs & _ & Ht & _ & _ & _ & Hturn & _).
  split; [exact Hs|]. split; [exact Ht|].
  split; [rewrite (Hturn eq_refl); reflexivity|reflexivity].
Defined.

Lemma loop_unsubscribe_completes_hub_then_unsubscribes_sink_witness :
  let ready := run 2 (exec (subscribe (Signal_loop Subject) (DUser 0) (CUser 0)) (init (T:=Z))) in
  let unsub := ULoop 0 (USubject 0 (DBound 0 0) (CBound 1 0)) in
  queue (init (T:=Z)) = []
  /\ fulfilled 0 ready = Some (VUnsub unsub)
  /\ queue (exec (call_unsub unsub) ready) = [MComplete 0 3]
  /\ subjects (exec (call_unsub unsub) ready) !! 0 = Some (mkSubject [DUser 0] [CUser 0])
  /\ trace (turn (exec (call_unsub unsub) ready)) = [Resolved 0; Completed 0; Resolved 3].
Proof.
  cbv zeta. split; [reflexivity|].
  destruct (loop_unsubscribe_completes_hub_then_unsubscribes_sink (T:=Z)) as (_ & _ & H).
  destruct (H 0 0 init eq_refl) as (H1 & H2 & H3 & H4 & _).
  split; [exact H1|]. split; [exact H2|]. split; [exact H3|exact H4].
Defined.

Lemma identity_loop_reemits_once_per_round_trip_witness :
  let ready := run 2 (exec (subscribe (Signal_loop Subject) (DUser 0) (CUser 0)) (init (T:=Z))) in
  queue (init (T:=Z)) = []
  /\ received 0 (trace (run 3 (exec (Subject_dispatch 0 5%Z) ready))) = [5; 5; 5]%Z
  /\ exists p, queue (run 3 (exec (Subject_dispatch 0 5%Z) ready)) = [MDispatch 0 5%Z p].
Proof.
  cbv zeta. split; [reflexivity|].
  destruct (identity_loop_reemits_once_per_round_trip (T:=Z)) as [_ H].
  destruct (H 0 0 5%Z 3 init eq_refl) as (_ & _ & _ & Hr & _ & Hq).
  split; [exact Hr|exact Hq].
Defined.

(** * Further properties of the code *)

Section Coverage.

Context {T : Type}.

Implicit Types (st : State T) (d dispatch : Dispatch T) (c complete : Complete).
Implicit Types (tr : list (Event T)) (payloads : list T) (u : Unsubscribe T).

Ltac record_norm :=
  unfold exec, eval, bind, ret, modify, log, queueMicrotask, new_closure,
    new_promise, new_Subject, set_subjects, set_promises, set_cells,
    set_alls, set_queue, set_trace, set_next_fn;
  cbn [fst snd subjects promises cells alls queue trace next_fn app].

(** ** Reading a field after a write *)

Lemma subjects_set_subjects x st : subjects (set_subjects x st) = x.
Proof. reflexivity. Qed.

Lemma promises_set_subjects x st : promises (set_subjects x st) = promises st.
Proof. reflexivity. Qed.

Lemma cells_set_subjects x st : cells (set_subjects x st) = cells st.
Proof. reflexivity. Qed.

Lemma alls_set_subjects x st : alls (set_subjects x st) = alls st.
Proof. reflexivity. Qed.

Lemma queue_set_subjects x st : queue (set_subjects x st) = queue st.
Proof. reflexivity. Qed.

Lemma trace_set_subjects x st : trace (set_subjects x st) = trace st.
Proof. reflexivity. Qed.

Lemma next_fn_set_subjects x st : next_fn (set_subjects x st) = next_fn st.
Proof. reflexivity. Qed.

Lemma subjects_set_promises x st : subjects (set_promises x st) = subjects st.
Proof. reflexivity. Qed.

Lemma promises_set_promises x st : promises (set_promises x st) = x.
Proof. reflexivity. Qed.

Lemma cells_set_promises x st : cells (set_promises x st) = cells st.
Proof. reflexivity. Qed.

Lemma alls_set_promises x st : alls (set_promises x st) = alls st.
Proof. reflexivity. Qed.

Lemma queue_set_promises x st : queue (set_promises x st) = queue st.
Proof. reflexivity. Qed.

Lemma trace_set_promises x st : trace (set_promises x st) = trace st.
Proof. reflexivity. Qed.

Lemma next_fn_set_promises x st : next_fn (set_promises x st) = next_fn st.
Proof. reflexivity. Qed.

Lemma subjects_set_cells x st : subjects (set_cells x st) = subjects st.
Proof. reflexivity. Qed.

Lemma promises_set_cells x st : promises (set_cells x st) = promises st.
Proof. reflexivity. Qed.

Lemma cells_set_cells x st : cells (set_cells x st) = x.
Proof. reflexivity. Qed.

Lemma alls_set_cells x st : alls (set_cells x st) = alls st.
Proof. reflexivity. Qed.

Lemma queue_set_cells x st : queue (set_cells x st) = queue st.
Proof. reflexivity. Qed.

Lemma trace_set_cells x st : trace (set_cells x st) = trace st.
Proof. reflexivity. Qed.

Lemma next_fn_set_cells x st : next_fn (set_cells x st) = next_fn st.
Proof. reflexivity. Qed.

Lemma subjects_set_alls x st : subjects (set_alls x st) = subjects st.
Proof. reflexivity. Qed.

Lemma promises_set_alls x st : promises (set_alls x st) = promises st.
Proof. reflexivity. Qed.

Lemma cells_set_alls x st : cells (set_alls x st) = cells st.
Proof. reflexivity. Qed.

Lemma alls_set_alls x st : alls (set_alls x st) = x.
Proof. reflexivity. Qed.

Lemma queue_set_alls x st : queue (set_alls x st) = queue st.
Proof. reflexivity. Qed.

Lemma trace_set_alls x st : trace (set_alls x st) = trace st.
Proof. reflexivity. Qed.

Lemma next_fn_set_alls x st : next_fn (set_alls x st) = next_fn st.
Proof. reflexivity. Qed.

Lemma subjects_set_queue x st : subjects (set_queue x st) = subjects st.
Proof. reflexivity. Qed.

Lemma promises_set_queue x st : promises (set_queue x st) = promises st.
Proof. reflexivity. Qed.

Lemma cells_set_queue x st : cells (set_queue x st) = cells st.
Proof. reflexivity. Qed.

Lemma alls_set_queue x st : alls (set_queue x st) = alls st.
Proof. reflexivity. Qed.

Lemma queue_set_queue x st : queue (set_queue x st) = x.
Proof. reflexivity. Qed.

Lemma trace_set_queue x st : trace (set_queue x st) = trace st.
Proof. reflexivity. Qed.

Lemma next_fn_set_queue x st : next_fn (set_queue x st) = next_fn st.
Proof. reflexivity. Qed.

Lemma subjects_set_trace x st : subjects (set_trace x st) = subjects st.
Proof. reflexivity. Qed.

Lemma promises_set_trace x st : promises (set_trace x st) = promises st.
Proof. reflexivity. Qed.

Lemma cells_set_trace x st : cells (set_trace x st) = cells st.
Proof. reflexivity. Qed.

Lemma alls_set_trace x st : alls (set_trace x st) = alls st.
Proof. reflexivity. Qed.

Lemma queue_set_trace x st : queue (set_trace x st) = queue st.
Proof. reflexivity. Qed.

Lemma trace_set_trace x st : trace (set_trace x st) = x.
Proof. reflexivity. Qed.

Lemma next_fn_set_trace x st : next_fn (set_trace x st) = next_fn st.
Proof. reflexivity. Qed.

Lemma subjects_set_next_fn x st : subjects (set_next_fn x st) = subjects st.
Proof. reflexivity. Qed.

Lemma promises_set_next_fn x st : promises (set_next_fn x st) = promises st.
Proof. reflexivity. Qed.

Lemma cells_set_next_fn x st : cells (set_next_fn x st) = cells st.
Proof. reflexivity. Qed.

Lemma alls_set_next_fn x st : alls (set_next_fn x st) = alls st.
Proof. reflexivity. Qed.

Lemma queue_set_next_fn x st : queue (set_next_fn x st) = queue st.
Proof. reflexivity. Qed.

Lemma trace_set_next_fn x st : trace (set_next_fn x st) = trace st.
Proof. reflexivity. Qed.

Lemma next_fn_set_next_fn x st : next_fn (set_next_fn x st) = x.
Proof. reflexivity. Qed.

Create Rewrite HintDb setters.
#[local] Hint Rewrite subjects_set_subjects
  promises_set_subjects
  cells_set_subjects
  alls_set_subjects
  queue_set_subjects
  trace_set_subjects
  next_fn_set_subjects
  subjects_set_promises
  promises_set_promises
  cells_set_promises
  alls_set_promises
  queue_set_promises
  trace_set_promises
  next_fn_set_promises
  subjects_set_cells
  promises_set_cells
  cells_set_cells
  alls_set_cells
  queue_set_cells
  trace_set_cells
  next_fn_set_cells
  subjects_set_alls
  promises_set_alls
  cells_set_alls
  alls_set_alls
  queue_set_alls
  trace_set_alls
  next_fn_set_alls
  subjects_set_queue
  promises_set_queue
  cells_set_queue
  alls_set_queue
  queue_set_queue
  trace_set_queue
  next_fn_set_queue
  subjects_set_trace
  promises_set_trace
  cells_set_trace
  alls_set_trace
  queue_set_trace
  trace_set_trace
  next_fn_set_trace
  subjects_set_next_fn
  promises_set_next_fn
  cells_set_next_fn
  alls_set_next_fn
  queue_set_next_fn
  trace_set_next_fn
  next_fn_set_next_fn : setters.

(** ** Callbacks that only record *)

Lemma call_dispatch_direct d (v : T) st :
  direct d = true ->
  call_dispatch d v st = (tt, set_trace (trace st ++ emits d v) st).
Proof.
  revert v. induction d as [k|n fn d IH|n fn d IH|n source]; intros v Hd; simpl in *.
  - done.
  - by apply IH.
  - destruct (fn v); [by apply IH|].
    unfold ret. by rewrite app_nil_r, set_trace_same.
  - done.
Qed.

Lemma forEach_direct (ds : list (Dispatch T)) (v : T) st :
  forallb direct ds = true ->
  forEach (fun d => call_dispatch d v) ds st
  = (tt, set_trace (trace st ++ concat (map (fun d => emits d v) ds)) st).
Proof.
  revert st. induction ds as [|d ds IH]; intros st Hds; simpl in *.
  - unfold ret. by rewrite app_nil_r, set_trace_same.
  - apply andb_true_iff in Hds as [Hd Hds].
    unfold bind. rewrite (call_dispatch_direct d v st Hd). cbn [snd].
    rewrite IH by done. apply f_equal. apply set_trace_app.
Qed.

(** The job of an emission on a subject whose members only record. *)
Lemma run_MDispatch_direct s (v : T) p o rs st :
  subjects st !! s = Some o -> forallb direct (dispatchs o) = true ->
  promises st !! p = Some (Pending rs) ->
  run_microtask (MDispatch s v p) st
  = (tt, set_queue (queue st ++ map (fun k => MReaction k VVoid) rs)
           (set_promises (<[p := Fulfilled VVoid]> (promises st))
              (set_trace (trace st ++ concat (map (fun d => emits d v) (dispatchs o))
                            ++ [Resolved p]) st))).
Proof.
  intros Hs Hd Hp. simpl. unfold bind, get_dispatchs. simpl.
  rewrite Hs, forEach_direct by done. simpl.
  rewrite (resolve_pending _ _ rs) by done.
  destruct st; unfold set_trace, set_queue, set_promises; simpl.
  by rewrite <- app_assoc.
Qed.

(** ** Subject: unsubscribing *)

Lemma Set_delete_DUser (k : nat) (ks : list nat) :
  Set_delete Dispatch_id (DUser (T:=T) k) (map DUser ks)
  = map DUser (List.filter (fun j => negb (Nat.eqb j k)) ks).
Proof.
  induction ks as [|j ks IH]; simpl; [done|].
  destruct (Nat.eqb j k); simpl; by rewrite <- IH.
Qed.

Lemma received_fanout_other (j k : nat) (v : T) (ks : list nat) :
  j <> k ->
  received j (map (fun i => Received i v) (List.filter (fun i => negb (Nat.eqb i k)) ks))
  = received j (map (fun i => Received i v) ks).
Proof.
  intros Hjk. induction ks as [|i ks IH]; simpl; [done|].
  destruct (Nat.eqb i k) eqn:E; simpl.
  - apply Nat.eqb_eq in E. subst i.
    destruct (Nat.eqb k j) eqn:E'; [apply Nat.eqb_eq in E'; congruence|done].
  - destruct (Nat.eqb i j); by rewrite IH.
Qed.

Lemma received_fanout_removed (k : nat) (v : T) (ks : list nat) :
  received k (map (fun i => Received i v) (List.filter (fun i => negb (Nat.eqb i k)) ks))
  = [].
Proof.
  induction ks as [|i ks IH]; simpl; [done|].
  destruct (Nat.eqb i k) eqn:E; simpl; [done|]. by rewrite E.
Qed.

Lemma received_fanout_absent (k : nat) (v : T) (ks : list nat) :
  ~ In k ks -> received k (map (fun i => Received i v) ks) = [].
Proof.
  induction ks as [|i ks IH]; simpl; [done|].
  intros H. destruct (Nat.eqb i k) eqn:E.
  - apply Nat.eqb_eq in E. tauto.
  - apply IH. tauto.
Qed.

Lemma received_fanout_member (k : nat) (v : T) (ks : list nat) :
  NoDup ks -> In k ks -> received k (map (fun i => Received i v) ks) = [v].
Proof.
  induction ks as [|i ks IH]; simpl; [done|].
  intros Hnd [->|Hin].
  - rewrite Nat.eqb_refl. f_equal. apply received_fanout_absent.
    apply NoDup_cons in Hnd as [Hni _]. by rewrite <- list_elem_of_In.
  - apply NoDup_cons in Hnd as [Hni Hnd].
    destruct (Nat.eqb i k) eqn:E.
    + apply Nat.eqb_eq in E. subst i. by apply list_elem_of_In in Hin.
    + by apply IH.
Qed.

(** X1. A subscriber whose [Unsubscribe] is invoked before a value is
    emitted does not receive it; the job reaches the remaining subscribers
    in their order, and each of them receives what it would have received
    anyway. *)
Theorem unsubscribed_before_emit_misses_value
    s o (ks : list nat) (k : nat) c (v : T) st :
  queue st = [] ->
  subjects st !! s = Some o ->
  dispatchs o = map DUser ks ->
  let st1 := exec (call_unsub (USubject s (DUser k) c)) st in
  let p := eval (Subject_dispatch s v) st1 in
  let st2 := turn (exec (Subject_dispatch s v) st1) in
  trace st2
  = trace st ++ map (fun j => Received j v)
                    (List.filter (fun j => negb (Nat.eqb j k)) ks)
      ++ [Resolved p]
  /\ received k (trace st2) = received k (trace st)
  /\ (forall j, j <> k ->
        received j (trace st2)
        = received j (trace st) ++ received j (map (fun i => Received i v) ks))
  /\ fulfilled p st2 = Some VVoid.
Proof.
  intros Hq Hs Hd. cbv zeta.
  unfold exec, eval. rewrite (call_unsub_USubject s (DUser k) c o st Hs). cbn [snd].
  set (o' := mkSubject _ _). set (st1 := set_subjects _ st).
  assert (Hs1 : subjects st1 !! s = Some o').
  { unfold st1. simpl. rewrite list_lookup_insert_eq; [done|by eapply lookup_lt_Some]. }
  assert (Hd1 : dispatchs o'
                = map DUser (List.filter (fun j => negb (Nat.eqb j k)) ks)).
  { unfold o'. simpl. rewrite Hd. apply Set_delete_DUser. }
  rewrite Subject_dispatch_state. cbn [fst snd].
  unfold turn. cbn [queue set_queue]. change (queue st1) with (queue st).
  rewrite Hq. cbn [app]. unfold exec.
  rewrite (run_MDispatch_users s v _ o'
             (List.filter (fun j => negb (Nat.eqb j k)) ks) []);
    [|exact Hs1|exact Hd1|by apply lookup_fresh].
  cbn [snd]. simpl trace.
  split; [done|]. split; [|split].
  - rewrite !received_app, received_fanout_removed. simpl. by rewrite app_nil_r.
  - intros j Hj. rewrite !received_app, received_fanout_other by done.
    simpl. by rewrite app_nil_r.
  - unfold fulfilled. simpl.
    rewrite (insert_middle (promises st) [] (Pending []) (Fulfilled VVoid)).
    by rewrite lookup_fresh.
Qed.

Lemma Set_delete_fresh {A : Type} (id : A -> FnId) x (l : list A) :
  existsb (fun y => FnId_eqb (id y) (id x)) l = false -> Set_delete id x l = l.
Proof.
  induction l as [|a l IH]; simpl; [done|].
  intros H. apply orb_false_iff in H as [H1 H2].
  rewrite H1. simpl. by rewrite IH.
Qed.

Lemma Set_delete_idem {A : Type} (id : A -> FnId) x (l : list A) :
  Set_delete id x (Set_delete id x l) = Set_delete id x l.
Proof. apply Set_delete_fresh, Set_delete_absent. Qed.

Lemma call_unsub_USubject_missing s d c st :
  subjects st !! s = None -> call_unsub (USubject s d c) st = (tt, st).
Proof.
  intros H. cbn [call_unsub]. unfold bind, update_subject, modify. simpl.
  rewrite H. simpl. by rewrite H.
Qed.

(** X2. Subscribing callbacks that are not yet members of a subject and
    then invoking the [Unsubscribe] the subscription returned restores the
    membership sets exactly: the store differs from the one before the
    subscription by the returned promise only. *)
Theorem subscribe_then_unsubscribe_restores s o d c st :
  subjects st !! s = Some o ->
  existsb (fun y => FnId_eqb (Dispatch_id y) (Dispatch_id d)) (dispatchs o) = false ->
  existsb (fun y => FnId_eqb (Complete_id y) (Complete_id c)) (completes o) = false ->
  let p := eval (Subject_subscribe s d c) st in
  let st1 := exec (Subject_subscribe s d c) st in
  subjects st1 !! s = Some (mkSubject (dispatchs o ++ [d]) (completes o ++ [c]))
  /\ fulfilled p st1 = Some (VUnsub (USubject s d c))
  /\ exec (call_unsub (USubject s d c)) st1
     = set_promises (promises st ++ [Fulfilled (VUnsub (USubject s d c))]) st.
Proof.
  intros Hs Hd Hc. cbv zeta.
  assert (Hlt : s < length (subjects st)) by (by eapply lookup_lt_Some).
  unfold exec, eval. rewrite (Subject_subscribe_state s d c o st Hs). cbn [fst snd].
  set (st1 := set_promises _ _).
  assert (Hs1 : subjects st1 !! s
                = Some (mkSubject (dispatchs o ++ [d]) (completes o ++ [c]))).
  { unfold st1. simpl. rewrite list_lookup_insert_eq by done.
    by rewrite !Set_add_fresh. }
  split; [done|]. split.
  { unfold fulfilled, st1. simpl. by rewrite lookup_fresh. }
  rewrite (call_unsub_USubject s d c _ st1 Hs1). cbn [snd].
  apply State_ext; simpl; try done.
  rewrite list_insert_insert_eq.
  rewrite <- (Set_add_fresh Dispatch_id d (dispatchs o)) by done.
  rewrite <- (Set_add_fresh Complete_id c (completes o)) by done.
  rewrite !Set_delete_add, !Set_delete_fresh by done.
  destruct o. by apply list_insert_id.
Qed.

(** X3. The [Unsubscribe] of a subject subscription is idempotent, and on
    callbacks that are not members it changes nothing. *)
Theorem subject_unsubscribe_idempotent s d c st :
  exec (call_unsub (USubject s d c)) (exec (call_unsub (USubject s d c)) st)
  = exec (call_unsub (USubject s d c)) st
  /\ (forall o,
        subjects st !! s = Some o ->
        existsb (fun y => FnId_eqb (Dispatch_id y) (Dispatch_id d)) (dispatchs o) = false ->
        existsb (fun y => FnId_eqb (Complete_id y) (Complete_id c)) (completes o) = false ->
        exec (call_unsub (USubject s d c)) st = st).
Proof.
  split.
  - unfold exec. destruct (subjects st !! s) as [o|] eqn:Hs.
    + assert (Hlt : s < length (subjects st)) by (by eapply lookup_lt_Some).
      rewrite (call_unsub_USubject s d c o st Hs). cbn [snd].
      set (st1 := set_subjects _ st).
      assert (Hs1 : subjects st1 !! s
                = Some (mkSubject (Set_delete Dispatch_id d (dispatchs o))
                                  (Set_delete Complete_id c (completes o)))).
      { unfold st1. simpl. by rewrite list_lookup_insert_eq. }
      rewrite (call_unsub_USubject s d c _ st1 Hs1). cbn [snd].
      apply State_ext; simpl; try done.
      by rewrite list_insert_insert_eq, !Set_delete_idem.
    + rewrite (call_unsub_USubject_missing s d c st Hs). cbn [snd].
      by rewrite (call_unsub_USubject_missing s d c st Hs).
  - intros o Hs Hd Hc. unfold exec.
    rewrite (call_unsub_USubject s d c o st Hs). cbn [snd].
    apply State_ext; simpl; try done.
    rewrite !Set_delete_fresh by done. destruct o. by apply list_insert_id.
Qed.

(** ** Subject: successive emissions *)

Lemma turn_cons (m : Microtask T) q st :
  queue st = m :: q -> turn st = snd (run_microtask m (set_queue q st)).
Proof. intros H. unfold turn. by rewrite H. Qed.

Lemma resolve_received k p (v : Value T) st :
  received k (trace (snd (resolve p v st))) = received k (trace st).
Proof.
  unfold resolve. destruct (promises st !! p) as [[rs|w]|]; simpl; try done.
  rewrite received_app. simpl. apply app_nil_r.
Qed.

Lemma resolve_completions k p (v : Value T) st :
  completions k (trace (snd (resolve p v st))) = completions k (trace st).
Proof.
  unfold resolve. destruct (promises st !! p) as [[rs|w]|]; simpl; try done.
  rewrite completions_app. simpl. lia.
Qed.

(** Successive calls of [dispatch] on one subject. *)
Lemma forEach_Subject_dispatch s (vs : list T) st :
  forEach (fun v => bind (Subject_dispatch s v) (fun _ => ret tt)) vs st
  = (tt, set_queue (queue st ++ dispatch_jobs s (length (promises st)) vs)
           (set_promises (promises st ++ replicate (length vs) (Pending [])) st)).
Proof.
  revert st. induction vs as [|v vs IH]; intros st.
  - simpl. unfold ret. f_equal. apply State_ext; simpl; by rewrite ?app_nil_r.
  - assert (E : forEach (fun v0 => bind (Subject_dispatch s v0) (fun _ => ret tt)) (v :: vs) st
                = forEach (fun v0 => bind (Subject_dispatch s v0) (fun _ => ret tt)) vs
                    (snd (Subject_dispatch s v st))) by reflexivity.
    rewrite E, Subject_dispatch_state. cbn [snd].
    rewrite IH. f_equal. apply State_ext; simpl; try done.
    + by rewrite <- app_assoc.
    + rewrite length_app. simpl.
      replace (length (promises st) + 1) with (S (length (promises st))) by lia.
      by rewrite <- app_assoc.
Qed.

Lemma completions_emits k d (v : T) : completions k (emits d v) = 0.
Proof.
  revert v. induction d as [j|n fn d IH|n fn d IH|n source]; intros v; simpl; try done.
  destruct (fn v); [apply IH|done].
Qed.

Lemma completions_concat_emits k (ds : list (Dispatch T)) (v : T) :
  completions k (concat (map (fun d => emits d v) ds)) = 0.
Proof.
  induction ds as [|d ds IH]; simpl; [done|].
  by rewrite completions_app, completions_emits, IH.
Qed.

(** The jobs of successive emissions, run in their order on a subject whose
    members only record. *)
Lemma run_dispatch_jobs s o (vs : list T) :
  forall p q st,
  subjects st !! s = Some o -> forallb direct (dispatchs o) = true ->
  queue st = dispatch_jobs s p vs ++ q ->
  (forall i, i < length vs -> promises st !! (p + i) = Some (Pending [])) ->
  let st' := run (length vs) st in
  subjects st' = subjects st
  /\ queue st' = q
  /\ cells st' = cells st
  /\ next_fn st' = next_fn st
  /\ length (promises st') = length (promises st)
  /\ (forall j, j < p \/ p + length vs <= j -> promises st' !! j = promises st !! j)
  /\ (forall k, received k (trace st')
                = received k (trace st)
                  ++ concat (map (fun v => received k
                                    (concat (map (fun d => emits d v) (dispatchs o)))) vs))
  /\ (forall k, completions k (trace st') = completions k (trace st)).
Proof.
  induction vs as [|v vs IH]; intros p q st Hs Hd Hq Hp; cbv zeta.
  - simpl in *. repeat split; try done. intros. by rewrite app_nil_r.
  - simpl length. rewrite run_S.
    rewrite (turn_cons (MDispatch s v p) (dispatch_jobs s (S p) vs ++ q) st Hq).
    assert (Hp0 : promises st !! p = Some (Pending [])).
    { specialize (Hp 0). rewrite Nat.add_0_r in Hp. apply Hp. simpl. lia. }
    rewrite (run_MDispatch_direct s v p o []); [|done|done|done]. cbn [snd].
    set (st1 := set_queue _ _).
    destruct (IH (S p) q st1) as (H1 & H2 & H3 & H4 & H5 & H6 & H7 & H8).
    + done.
    + done.
    + unfold st1. simpl. by rewrite app_nil_r.
    + intros i Hi. unfold st1. simpl.
      rewrite list_lookup_insert_ne by lia.
      replace (S (p + i)) with (p + S i) by lia. apply Hp. simpl. lia.
    + split; [by rewrite H1|]. split; [done|]. split; [by rewrite H3|].
      split; [by rewrite H4|].
      split; [rewrite H5; unfold st1; simpl; by rewrite length_insert|].
      split; [|split].
      * intros j Hj. rewrite H6 by lia. unfold st1. simpl.
        apply list_lookup_insert_ne. lia.
      * intros k. rewrite H7. unfold st1. simpl.
        rewrite !received_app. simpl. rewrite app_nil_r. by rewrite <- app_assoc.
      * intros k. rewrite H8. unfold st1. simpl.
        rewrite !completions_app, completions_concat_emits. simpl. lia.
Qed.

Lemma concat_emits_DUser (v : T) (ks : list nat) :
  concat (map (fun d => emits d v) (map DUser ks)) = map (fun k => Received k v) ks.
Proof. induction ks as [|k ks IH]; simpl; [done|]. by rewrite IH. Qed.

Lemma forallb_direct_DUser (ks : list nat) : forallb direct (map (DUser (T:=T)) ks) = true.
Proof. by induction ks. Qed.

Lemma concat_singletons (vs : list T) : concat (map (fun v => [v]) vs) = vs.
Proof. induction vs as [|v vs IH]; simpl; [done|]. by rewrite IH. Qed.

Lemma concat_nils {A : Type} (vs : list A) : concat (map (fun _ => @nil T) vs) = [].
Proof. by induction vs. Qed.

(** X4. Values emitted by successive calls of [dispatch] on one subject
    reach every subscriber in the order of the calls, each once; a callback
    that is not subscribed receives none of them. *)
Theorem emissions_arrive_in_call_order s o (ks : list nat) (vs : list T) st :
  queue st = [] ->
  subjects st !! s = Some o ->
  dispatchs o = map DUser ks ->
  NoDup ks ->
  let st1 := exec (forEach (fun v => bind (Subject_dispatch s v) (fun _ => ret tt)) vs) st in
  let st2 := run (length vs) st1 in
  queue st1 = dispatch_jobs s (length (promises st)) vs
  /\ trace st1 = trace st
  /\ queue st2 = []
  /\ (forall k, In k ks -> received k (trace st2) = received k (trace st) ++ vs)
  /\ (forall k, ~ In k ks -> received k (trace st2) = received k (trace st)).
Proof.
  intros Hq Hs Hd Hnd. cbv zeta. unfold exec.
  rewrite forEach_Subject_dispatch. cbn [snd].
  set (st1 := set_queue _ _).
  split; [unfold st1; simpl; by rewrite Hq|]. split; [done|].
  destruct (run_dispatch_jobs s o vs (length (promises st)) [] st1)
    as (_ & H2 & _ & _ & _ & _ & H7 & _).
  - done.
  - rewrite Hd. apply forallb_direct_DUser.
  - unfold st1. simpl. by rewrite Hq, app_nil_r.
  - intros i Hi. unfold st1. simpl. rewrite lookup_app_plus.
    apply lookup_replicate_2. lia.
  - split; [done|]. split.
    + intros k Hk. rewrite H7. change (trace st1) with (trace st). f_equal.
      rewrite Hd.
      rewrite <- (concat_singletons vs) at 2. f_equal. apply map_ext. intros v.
      rewrite concat_emits_DUser. by apply received_fanout_member.
    + intros k Hk. rewrite H7. change (trace st1) with (trace st).
      rewrite Hd.
      replace (map _ vs) with (map (fun _ : T => @nil T) vs).
      * by rewrite concat_nils, app_nil_r.
      * apply map_ext. intros v. rewrite concat_emits_DUser.
        symmetry. by apply received_fanout_absent.
Qed.

(** X5. Nothing is replayed: a callback subscribed after the job of an
    emission has run never receives that value. *)
Theorem late_subscriber_misses_earlier_value
    s o (ks : list nat) (k : nat) c (v : T) (n : nat) st :
  queue st = [] ->
  subjects st !! s = Some o ->
  dispatchs o = map DUser ks ->
  ~ In k ks ->
  let emitted := turn (exec (Subject_dispatch s v) st) in
  let st' := exec (Subject_subscribe s (DUser k) c) emitted in
  trace emitted = trace st ++ map (fun j => Received j v) ks
                    ++ [Resolved (length (promises st))]
  /\ (exists o', subjects st' !! s = Some o' /\ In (DUser k) (dispatchs o'))
  /\ run n st' = st'
  /\ received k (trace (run n st')) = received k (trace st).
Proof.
  intros Hq Hs Hd Hk. cbv zeta. unfold exec.
  rewrite Subject_dispatch_state. cbn [snd].
  rewrite (turn_cons (MDispatch s v (length (promises st))) []); [|simpl; by rewrite Hq].
  rewrite (run_MDispatch_users s v _ o ks []); [|done|done|by apply lookup_fresh].
  cbn [snd]. set (emitted := set_queue _ _).
  assert (Hse : subjects emitted !! s = Some o) by done.
  rewrite (Subject_subscribe_state s (DUser k) c o emitted Hse). cbn [snd].
  set (st' := set_promises _ _).
  assert (Hidle : run n st' = st') by (by apply run_idle).
  split; [done|]. split; [|split; [done|]].
  - eexists. split.
    + unfold st'. simpl. apply list_lookup_insert_eq. by eapply lookup_lt_Some.
    + simpl. unfold Set_add.
      destruct (existsb _ (dispatchs o)) eqn:E.
      * apply existsb_exists in E as (y & Hy & Hid).
        rewrite Hd in Hy. apply in_map_iff in Hy as (j & <- & Hj).
        simpl in Hid. apply Nat.eqb_eq in Hid. subst j. tauto.
      * apply in_or_app. right. by left.
  - rewrite Hidle. unfold st'. simpl.
    rewrite !received_app, received_fanout_absent by done.
    simpl. by rewrite !app_nil_r.
Qed.

(** ** Subject: the membership sets stay sets *)

Lemma Signal_nested_ind (P : Signal T -> Prop) :
  (forall fn this, P this -> P (Signal_map fn this)) ->
  (forall fn this, P this -> P (Signal_filter fn this)) ->
  (forall handler, (forall s, P (handler s)) -> P (Signal_loop handler)) ->
  (forall payloads, P (Signal_of payloads)) ->
  (forall signals, Forall P signals -> P (Signal_merge signals)) ->
  (forall s, P (Subject s)) ->
  forall signal, P signal.
Proof.
  intros Hmap Hfilter Hloop Hof Hmerge Hsubject.
  fix IH 1. intros [fn this|fn this|handler|payloads|signals|s].
  - apply Hmap, IH.
  - apply Hfilter, IH.
  - apply Hloop. intros s. apply IH.
  - apply Hof.
  - apply Hmerge. revert signals. fix IHl 1. intros [|signal signals].
    + constructor.
    + constructor; [apply IH|apply IHl].
  - apply Hsubject.
Qed.

Lemma Unsubscribe_nested_ind (P : Unsubscribe T -> Prop) :
  P UNoop ->
  (forall s d c, P (USubject s d c)) ->
  (forall unsubs, Forall P unsubs -> P (UMerge unsubs)) ->
  (forall source u, P u -> P (ULoop source u)) ->
  forall u, P u.
Proof.
  intros Hnoop Hsubject Hmerge Hloop.
  fix IH 1. intros [|s d c|unsubs|source u].
  - apply Hnoop.
  - apply Hsubject.
  - apply Hmerge. revert unsubs. fix IHl 1. intros [|u unsubs].
    + constructor.
    + constructor; [apply IH|apply IHl].
  - apply Hloop, IH.
Qed.

Lemma Set_delete_NoDup {A : Type} (id : A -> FnId) x (l : list A) :
  NoDup (map id l) -> NoDup (map id (Set_delete id x l)).
Proof.
  induction l as [|a l IH]; simpl; [done|].
  intros H. apply NoDup_cons in H as [Ha Hl].
  destruct (negb (FnId_eqb (id a) (id x))); simpl; [|by apply IH].
  apply NoDup_cons. split; [|by apply IH].
  intros Hin. apply Ha.
  apply list_elem_of_fmap in Hin as (y & Hy & Hyin).
  apply list_elem_of_fmap. exists y. split; [done|].
  unfold Set_delete in Hyin. apply list_elem_of_In in Hyin.
  apply List.filter_In in Hyin as [Hyin _]. by apply list_elem_of_In.
Qed.

Lemma sets_distinct_same st st' :
  subjects st' = subjects st -> sets_distinct st -> sets_distinct st'.
Proof. unfold sets_distinct. by intros ->. Qed.

Lemma update_subject_distinct s (f : SubjectObj T -> SubjectObj T) st :
  (forall o, NoDup (map Dispatch_id (dispatchs o)) /\ NoDup (map Complete_id (completes o)) ->
             NoDup (map Dispatch_id (dispatchs (f o)))
             /\ NoDup (map Complete_id (completes (f o)))) ->
  sets_distinct st -> sets_distinct (snd (update_subject s f st)).
Proof.
  intros Hf H. unfold update_subject, modify. simpl.
  destruct (subjects st !! s) as [o|] eqn:Hs; [|done].
  unfold sets_distinct in *. simpl.
  apply Forall_insert; [done|]. apply Hf.
  eapply Forall_lookup_1 in H; [exact H|exact Hs].
Qed.

Lemma Subject_subscribe_distinct s d c st :
  sets_distinct st -> sets_distinct (snd (Subject_subscribe s d c st)).
Proof.
  intros H. unfold Subject_subscribe, bind, new_promise. cbn [fst snd].
  eapply sets_distinct_same; [reflexivity|].
  apply update_subject_distinct.
  { intros o [H1 H2]. simpl. split; [done|by apply Set_add_NoDup]. }
  apply update_subject_distinct; [|done].
  intros o [H1 H2]. simpl. split; [by apply Set_add_NoDup|done].
Qed.

Lemma then_subjects p (k : Cont T) st : subjects (snd (then_ p k st)) = subjects st.
Proof. unfold then_. by destruct (promises st !! p) as [[rs|v]|]. Qed.

Lemma Promise_all_subjects (ps : list nat) st :
  subjects (snd (Promise_all (T:=T) ps st)) = subjects st.
Proof.
  unfold Promise_all. destruct ps as [|p ps]; [done|].
  unfold bind, ret. cbn [snd]. rewrite forEach_subjects; [done|].
  intros; apply then_subjects.
Qed.

Lemma subscribe_distinct (signal : Signal T) :
  forall d c st, sets_distinct st -> sets_distinct (snd (subscribe signal d c st)).
Proof.
  induction signal as [fn this IH|fn this IH|handler _|payloads|signals IH|s]
    using Signal_nested_ind; intros d c st H.
  - cbn [subscribe]. unfold bind, new_closure. cbn [fst snd]. by apply IH.
  - cbn [subscribe]. unfold bind, new_closure. cbn [fst snd]. by apply IH.
  - cbn [subscribe]. unfold bind, ret. cbn [fst snd].
    eapply sets_distinct_same; [apply then_subjects|].
    apply Subject_subscribe_distinct.
    unfold new_Subject, new_promise, sets_distinct in *. simpl.
    apply Forall_app. split; [done|].
    constructor; [|constructor]. simpl. split; constructor.
  - cbn [subscribe]. unfold bind, new_promise. cbn [fst snd].
    eapply sets_distinct_same; [|exact H]. simpl.
    rewrite call_complete_subjects. apply forEach_subjects.
    intros; apply call_dispatch_subjects.
  - rewrite subscribe_merge_unfold. unfold bind, ret. cbn [fst snd].
    eapply sets_distinct_same; [apply then_subjects|].
    eapply sets_distinct_same; [apply Promise_all_subjects|].
    assert (Hall : forall cell st0, sets_distinct st0 ->
              sets_distinct (snd (merge_subscribe d c cell signals st0))).
    { intros cell. induction IH as [|signal signals Hsig _ IHl]; intros st0 H0.
      - done.
      - rewrite merge_subscribe_cons. cbn [snd]. apply IHl. by apply Hsig. }
    apply Hall. done.
  - by apply Subject_subscribe_distinct.
Qed.

Lemma Set_delete_subject_distinct s d c st :
  sets_distinct st -> sets_distinct (snd (call_unsub (USubject s d c) st)).
Proof.
  intros H. cbn [call_unsub]. unfold bind. cbn [snd].
  apply update_subject_distinct.
  { intros o [H1 H2]. simpl. split; [done|by apply Set_delete_NoDup]. }
  apply update_subject_distinct; [|done].
  intros o [H1 H2]. simpl. split; [by apply Set_delete_NoDup|done].
Qed.

Lemma call_unsub_distinct u :
  forall st, sets_distinct st -> sets_distinct (snd (call_unsub u st)).
Proof.
  induction u as [|s d c|unsubs IH|source u IH] using Unsubscribe_nested_ind;
    intros st H.
  - done.
  - by apply Set_delete_subject_distinct.
  - cbn [call_unsub]. revert st H.
    induction IH as [|u unsubs Hu _ IHl]; intros st H; [done|].
    unfold bind. cbn [snd]. apply IHl. by apply Hu.
  - rewrite call_unsub_ULoop. apply IH. by rewrite Subject_complete_state.
Qed.

Lemma run_microtask_distinct (m : Microtask T) st :
  sets_distinct st -> sets_distinct (snd (run_microtask m st)).
Proof.
  intros H. destruct m as [s v p|s p|k v].
  - eapply sets_distinct_same; [apply run_MDispatch_subjects|done].
  - eapply sets_distinct_same; [apply run_MComplete_subjects|done].
  - destruct k as [source handler result|source result|result|all index result];
      cbn [run_microtask run_cont].
    + unfold bind, new_closure. cbn [fst snd].
      eapply sets_distinct_same; [apply then_subjects|].
      by apply subscribe_distinct.
    + destruct v; try done. eapply sets_distinct_same; [apply resolve_subjects|done].
    + destruct v; try done. eapply sets_distinct_same; [apply resolve_subjects|done].
    + destruct v; try done. destruct (alls st !! all) as [a|]; [|done].
      cbv zeta. destruct (Nat.eqb _ 0); [|done].
      eapply sets_distinct_same; [apply resolve_subjects|done].
Qed.

Lemma turn_distinct st : sets_distinct st -> sets_distinct (turn st).
Proof.
  intros H. unfold turn. destruct (queue st) as [|m q]; [done|].
  by apply run_microtask_distinct.
Qed.

(** X6. No operation of the library puts a function into a membership set
    twice: from a store whose sets hold each identity at most once,
    subscribing to any signal, emitting, completing, invoking any
    [Unsubscribe] and any number of turns of the event loop lead to such a
    store again. The empty store is one. *)
Theorem membership_sets_stay_distinct st :
  sets_distinct st ->
  (forall (signal : Signal T) d c, sets_distinct (exec (subscribe signal d c) st))
  /\ (forall s (v : T), sets_distinct (exec (Subject_dispatch s v) st))
  /\ (forall s, sets_distinct (exec (Subject_complete s) st))
  /\ (forall u, sets_distinct (exec (call_unsub u) st))
  /\ (forall n, sets_distinct (run n st))
  /\ sets_distinct (init (T:=T)).
Proof.
  intros H. split; [|split; [|split; [|split; [|split]]]].
  - intros. by apply subscribe_distinct.
  - intros. unfold exec. by rewrite Subject_dispatch_state.
  - intros. unfold exec. by rewrite Subject_complete_state.
  - intros. by apply call_unsub_distinct.
  - intros n. revert st H. induction n as [|n IH]; intros st H; [done|].
    simpl. apply IH. by apply turn_distinct.
  - constructor.
Qed.

(** ** map and filter: composition *)

Lemma subscribe_map_of (f : T -> T) (vs : list T) d c st :
  subscribe (Signal_map f (Signal_of vs)) d c st
  = subscribe (Signal_of (map f vs)) d c (set_next_fn (S (next_fn st)) st).
Proof.
  cbn [subscribe]. unfold bind, new_closure. cbn [fst snd].
  by rewrite forEach_DMap.
Qed.

Lemma subscribe_filter_of (p : T -> bool) (vs : list T) d c st :
  subscribe (Signal_filter p (Signal_of vs)) d c st
  = subscribe (Signal_of (List.filter p vs)) d c (set_next_fn (S (next_fn st)) st).
Proof.
  cbn [subscribe]. unfold bind, new_closure. cbn [fst snd].
  by rewrite forEach_DFilter.
Qed.

Lemma filter_filter (p q : T -> bool) (vs : list T) :
  List.filter q (List.filter p vs) = List.filter (fun x => p x && q x) vs.
Proof.
  induction vs as [|v vs IH]; simpl; [done|].
  destruct (p v); simpl; [|done]. destruct (q v); by rewrite IH.
Qed.

(** X7. Over a source [of(...vs)], for any callbacks, [map(f)] is the
    source of the mapped values, apart from the one closure it creates; so
    [map(f).map(g)] is [map] of the composed function: both hand the
    subscriber [g (f v)] for each [v], in order, then the completion. *)
Theorem map_after_map_is_map_of_composition (f g : T -> T) (vs : list T) :
  (forall d c st,
     subscribe (Signal_map f (Signal_of vs)) d c st
     = subscribe (Signal_of (map f vs)) d c (set_next_fn (S (next_fn st)) st))
  /\ (forall d c st,
       subscribe (Signal_map g (Signal_map f (Signal_of vs))) d c st
       = subscribe (Signal_map (fun x => g (f x)) (Signal_of vs)) d c
           (set_next_fn (S (next_fn st)) st))
  /\ (forall (k k' : nat) st,
       trace (exec (subscribe (Signal_map g (Signal_map f (Signal_of vs)))
                      (DUser k) (CUser k')) st)
       = trace st ++ map (Received k) (map (fun x => g (f x)) vs) ++ [Completed k']).
Proof.
  split; [|split].
  - intros. apply subscribe_map_of.
  - intros d c st. rewrite subscribe_map_of.
    cbn [subscribe]. unfold bind, new_closure. cbn [fst snd].
    rewrite !forEach_DMap. by rewrite (List.map_map f g).
  - intros k k' st. unfold exec.
    cbn [subscribe]. unfold bind, new_closure. cbn [fst snd].
    rewrite !forEach_DMap, forEach_DUser. simpl.
    by rewrite (List.map_map f g), <- app_assoc.
Qed.

(** X8. Over a source [of(...vs)], for any callbacks, [filter(p)] is the
    source of the values [p] accepts, apart from the one closure it creates;
    so [filter(p).filter(q)] is [filter] by the conjunction. *)
Theorem filter_after_filter_is_filter_of_conjunction (p q : T -> bool) (vs : list T) :
  (forall d c st,
     subscribe (Signal_filter p (Signal_of vs)) d c st
     = subscribe (Signal_of (List.filter p vs)) d c (set_next_fn (S (next_fn st)) st))
  /\ (forall d c st,
       subscribe (Signal_filter q (Signal_filter p (Signal_of vs))) d c st
       = subscribe (Signal_filter (fun x => p x && q x) (Signal_of vs)) d c
           (set_next_fn (S (next_fn st)) st))
  /\ (forall (k k' : nat) st,
       trace (exec (subscribe (Signal_filter q (Signal_filter p (Signal_of vs)))
                      (DUser k) (CUser k')) st)
       = trace st ++ map (Received k) (List.filter (fun x => p x && q x) vs)
           ++ [Completed k']).
Proof.
  split; [|split].
  - intros. apply subscribe_filter_of.
  - intros d c st. rewrite subscribe_filter_of.
    cbn [subscribe]. unfold bind, new_closure. cbn [fst snd].
    rewrite !forEach_DFilter. by rewrite filter_filter.
  - intros k k' st. unfold exec.
    cbn [subscribe]. unfold bind, new_closure. cbn [fst snd].
    rewrite !forEach_DFilter, forEach_DUser. simpl.
    by rewrite filter_filter, <- app_assoc.
Qed.

(** ** map and filter over a subject *)

Lemma existsb_closure_DUser (n : nat) (ks : list nat) :
  existsb (fun y => FnId_eqb (Dispatch_id y) (Closure n)) (map (DUser (T:=T)) ks) = false.
Proof. by induction ks. Qed.

Lemma existsb_CUser_absent (k : nat) (js : list nat) :
  ~ In k js ->
  existsb (fun y => FnId_eqb (Complete_id y) (External k)) (map CUser js) = false.
Proof.
  induction js as [|j js IH]; simpl; [done|].
  intros H. rewrite IH by tauto.
  destruct (Nat.eqb j k) eqn:E; [|done].
  apply Nat.eqb_eq in E. tauto.
Qed.

Lemma Set_delete_app {A : Type} (id : A -> FnId) x (l1 l2 : list A) :
  Set_delete id x (l1 ++ l2) = Set_delete id x l1 ++ Set_delete id x l2.
Proof. apply List.filter_app. Qed.

Lemma turn_Subject_dispatch_direct s o (v : T) st :
  queue st = [] -> subjects st !! s = Some o -> forallb direct (dispatchs o) = true ->
  turn (snd (Subject_dispatch s v st))
  = set_queue []
      (set_promises (promises st ++ [Fulfilled VVoid])
         (set_trace (trace st ++ concat (map (fun d => emits d v) (dispatchs o))
                       ++ [Resolved (length (promises st))]) st)).
Proof.
  intros Hq Hs Hd. rewrite Subject_dispatch_state. cbn [snd].
  rewrite (turn_cons (MDispatch s v (length (promises st))) []); [|simpl; by rewrite Hq].
  rewrite (run_MDispatch_direct s v _ o []); [|done|done|by apply lookup_fresh].
  cbn [snd]. apply State_ext; simpl; try done.
  by rewrite (insert_middle (promises st) [] (Pending []) (Fulfilled VVoid)).
Qed.

Lemma turn_Subject_complete_users s o (ks : list nat) st :
  queue st = [] -> subjects st !! s = Some o -> completes o = map CUser ks ->
  turn (snd (Subject_complete s st))
  = set_queue []
      (set_promises (promises st ++ [Fulfilled VVoid])
         (set_trace (trace st ++ map (Completed (T:=T)) ks
                       ++ [Resolved (length (promises st))]) st)).
Proof.
  intros Hq Hs Hd. rewrite Subject_complete_state. cbn [snd].
  rewrite (turn_cons (MComplete s (length (promises st))) []); [|simpl; by rewrite Hq].
  rewrite (run_MComplete_users s _ o ks []); [|done|done|by apply lookup_fresh].
  cbn [snd]. apply State_ext; simpl; try done.
  by rewrite (insert_middle (promises st) [] (Pending []) (Fulfilled VVoid)).
Qed.

Lemma forallb_direct_app (l1 l2 : list (Dispatch T)) :
  forallb direct (l1 ++ l2) = forallb direct l1 && forallb direct l2.
Proof. apply forallb_app. Qed.

(** X9. A subscription to [subject.map(fn).filter(p)] registers one
    callback on the subject, behind the present members, and the
    subscriber's completion callback itself. An emission [v] then reaches
    the subscriber as [fn v], and only when [p (fn v)] holds; a completion
    of the subject reaches it after the earlier subscribers; and the
    [Unsubscribe] the subscription returns is the subject's, which restores
    the membership sets. *)
Theorem map_filter_subscription_on_subject
    s o (ks js : list nat) (fn : T -> T) (p : T -> bool) (k k' : nat) (v : T) st :
  queue st = [] ->
  subjects st !! s = Some o ->
  dispatchs o = map DUser ks ->
  completes o = map CUser js ->
  ~ In k' js ->
  let d' := DMap (S (next_fn st)) fn (DFilter (next_fn st) p (DUser k)) in
  let u := USubject s d' (CUser k') in
  let signal := Signal_filter p (Signal_map fn (Subject s)) in
  let st1 := exec (subscribe signal (DUser k) (CUser k')) st in
  subjects st1 !! s = Some (mkSubject (map DUser ks ++ [d']) (map CUser (js ++ [k'])))
  /\ fulfilled (eval (subscribe signal (DUser k) (CUser k')) st) st1 = Some (VUnsub u)
  /\ trace (turn (exec (Subject_dispatch s v) st1))
     = trace st ++ map (fun j => Received j v) ks
         ++ (if p (fn v) then [Received k (fn v)] else [])
         ++ [Resolved (S (length (promises st)))]
  /\ trace (turn (exec (Subject_complete s) st1))
     = trace st ++ map Completed (js ++ [k']) ++ [Resolved (S (length (promises st)))]
  /\ subjects (exec (call_unsub u) st1) = subjects st.
Proof.
  intros Hq Hs Hd Hc Hk'. cbv zeta.
  assert (Hlt : s < length (subjects st)) by (by eapply lookup_lt_Some).
  unfold exec, eval. rewrite subscribe_map_filter. cbn [subscribe].
  set (st0 := set_next_fn _ st).
  set (d' := DMap (S (next_fn st)) fn (DFilter (next_fn st) p (DUser k))).
  assert (Hs0 : subjects st0 !! s = Some o) by done.
  rewrite (Subject_subscribe_state s d' (CUser k') o st0 Hs0). cbn [fst snd].
  set (st1 := set_promises _ _).
  set (o1 := mkSubject (map DUser ks ++ [d']) (map CUser (js ++ [k']))).
  assert (Hs1 : subjects st1 !! s = Some o1).
  { unfold st1. simpl. rewrite list_lookup_insert_eq by done.
    rewrite Hd, Hc. unfold o1. f_equal. f_equal.
    - apply Set_add_fresh. apply existsb_closure_DUser.
    - rewrite map_app. apply Set_add_fresh. by apply existsb_CUser_absent. }
  assert (Hq1 : queue st1 = []) by done.
  split; [done|]. split.
  { unfold fulfilled, st1. simpl. by rewrite lookup_fresh. }
  split; [|split].
  - rewrite (turn_Subject_dispatch_direct s o1 v st1 Hq1 Hs1).
    + simpl trace. rewrite length_app. simpl.
      rewrite map_app, concat_app, concat_emits_DUser. simpl.
      replace (length (promises st) + 1) with (S (length (promises st))) by lia.
      rewrite app_nil_r. by rewrite <- !app_assoc.
    + simpl. rewrite forallb_direct_app, forallb_direct_DUser. done.
  - rewrite (turn_Subject_complete_users s o1 (js ++ [k']) st1 Hq1 Hs1 eq_refl).
    simpl trace. rewrite length_app. simpl.
    by replace (length (promises st) + 1) with (S (length (promises st))) by lia.
  - rewrite (call_unsub_USubject s d' (CUser k') o1 st1 Hs1). cbn [snd]. simpl.
    rewrite list_insert_insert_eq.
    rewrite !Set_delete_app. simpl. rewrite Nat.eqb_refl. simpl.
    rewrite map_app, Set_delete_app. simpl. rewrite Nat.eqb_refl. simpl.
    rewrite !app_nil_r.
    rewrite (Set_delete_fresh Dispatch_id d' (map DUser ks))
      by apply existsb_closure_DUser.
    rewrite (Set_delete_fresh Complete_id (CUser k') (map CUser js))
      by (by apply existsb_CUser_absent).
    rewrite <- Hd, <- Hc. destruct o. by apply list_insert_id.
Qed.

(** X10. [map] passes the subscriber's completion callback on as it is.
    When two derived subscriptions to one subject share a completion
    callback, the subject holds it once, and the [Unsubscribe] of the first
    subscription removes it: the second subscription still receives values
    but is never completed. *)
Theorem shared_completion_callback_leaves_with_first
    s o (ks js : list nat) (f g : T -> T) (k1 k2 k' : nat) (v : T) st :
  queue st = [] ->
  subjects st !! s = Some o ->
  dispatchs o = map DUser ks ->
  completes o = map CUser js ->
  ~ In k' js ->
  let st1 := exec (subscribe (Signal_map f (Subject s)) (DUser k1) (CUser k')) st in
  let st2 := exec (subscribe (Signal_map g (Subject s)) (DUser k2) (CUser k')) st1 in
  let u1 := USubject s (DMap (next_fn st) f (DUser k1)) (CUser k') in
  let st3 := exec (call_unsub u1) st2 in
  fulfilled (eval (subscribe (Signal_map f (Subject s)) (DUser k1) (CUser k')) st) st2
  = Some (VUnsub u1)
  /\ subjects st2 !! s
     = Some (mkSubject (map DUser ks ++ [DMap (next_fn st) f (DUser k1);
                                         DMap (S (next_fn st)) g (DUser k2)])
                       (map CUser js ++ [CUser k']))
  /\ subjects st3 !! s
     = Some (mkSubject (map DUser ks ++ [DMap (S (next_fn st)) g (DUser k2)])
                       (map CUser js))
  /\ trace (turn (exec (Subject_dispatch s v) st3))
     = trace st ++ map (fun j => Received j v) ks ++ [Received k2 (g v)]
         ++ [Resolved (length (promises st) + 2)]
  /\ trace (turn (exec (Subject_complete s) st3))
     = trace st ++ map Completed js ++ [Resolved (length (promises st) + 2)].
Proof.
  intros Hq Hs Hd Hc Hk'. cbv zeta.
  assert (Hlt : s < length (subjects st)) by (by eapply lookup_lt_Some).
  unfold exec, eval. cbn [subscribe]. unfold bind, new_closure. cbn [fst snd].
  set (d1 := DMap (next_fn st) f (DUser k1)).
  set (st0 := set_next_fn _ st).
  assert (Hs0 : subjects st0 !! s = Some o) by done.
  rewrite (Subject_subscribe_state s d1 (CUser k') o st0 Hs0). cbn [fst snd].
  set (o1 := mkSubject (map DUser ks ++ [d1]) (map CUser js ++ [CUser k'])).
  set (st1 := set_promises _ _).
  assert (Hs1 : subjects (set_next_fn (S (next_fn st1)) st1) !! s = Some o1).
  { unfold st1. simpl. rewrite list_lookup_insert_eq by done.
    rewrite Hd, Hc. unfold o1. f_equal. f_equal.
    - apply Set_add_fresh. apply existsb_closure_DUser.
    - apply Set_add_fresh. by apply existsb_CUser_absent. }
  change (next_fn st1) with (S (next_fn st)) in *.
  set (d2 := DMap (S (next_fn st)) g (DUser k2)).
  rewrite (Subject_subscribe_state s d2 (CUser k') o1 _ Hs1). cbn [fst snd].
  set (o2 := mkSubject (map DUser ks ++ [d1; d2]) (map CUser js ++ [CUser k'])).
  set (st2 := set_promises _ _).
  assert (Hs2 : subjects st2 !! s = Some o2).
  { unfold st2. simpl. rewrite list_lookup_insert_eq
      by (unfold st1; simpl; by rewrite length_insert).
    unfold o2. f_equal. f_equal.
    - rewrite Set_add_fresh.
      + by rewrite <- app_assoc.
      + unfold o1, d1, d2. cbn [dispatchs Dispatch_id].
        rewrite existsb_app, existsb_closure_DUser. simpl.
        destruct (Nat.eqb (next_fn st) (S (next_fn st))) eqn:E; [|done].
        apply Nat.eqb_eq in E. lia.
    - unfold Set_add. rewrite existsb_app. simpl.
      rewrite Nat.eqb_refl. by rewrite orb_true_r. }
  split.
  { unfold fulfilled, st2, st1. simpl.
    rewrite lookup_app_l by (rewrite length_app; simpl; lia).
    by rewrite lookup_fresh. }
  split; [done|].
  rewrite (call_unsub_USubject s d1 (CUser k') o2 st2 Hs2). cbn [snd].
  set (o3 := mkSubject (map DUser ks ++ [d2]) (map CUser js)).
  set (st3 := set_subjects _ st2).
  assert (Hs3 : subjects st3 !! s = Some o3).
  { unfold st3. simpl. rewrite list_lookup_insert_eq
      by (rewrite length_insert; unfold st1; simpl; by rewrite length_insert).
    unfold o3, o2. cbn [dispatchs completes]. f_equal. f_equal.
    - rewrite Set_delete_app.
      rewrite (Set_delete_fresh Dispatch_id d1 (map DUser ks))
        by apply existsb_closure_DUser.
      f_equal. unfold Set_delete, d1, d2. cbn [List.filter Dispatch_id FnId_eqb].
      rewrite Nat.eqb_refl.
      replace (Nat.eqb (S (next_fn st)) (next_fn st)) with false
        by (symmetry; apply Nat.eqb_neq; lia).
      done.
    - rewrite Set_delete_app.
      rewrite (Set_delete_fresh Complete_id (CUser k') (map CUser js))
        by (by apply existsb_CUser_absent).
      unfold Set_delete. cbn [List.filter Complete_id FnId_eqb].
      rewrite Nat.eqb_refl. simpl. apply app_nil_r. }
  assert (Hq3 : queue st3 = []) by done.
  assert (Hlen : length (promises st3) = length (promises st) + 2).
  { unfold st3, st2, st1. simpl. rewrite !length_app. simpl. lia. }
  split; [done|]. split.
  - rewrite (turn_Subject_dispatch_direct s o3 v st3 Hq3 Hs3).
    + rewrite Hlen. simpl trace.
      rewrite map_app, concat_app, concat_emits_DUser. simpl.
      by rewrite <- !app_assoc.
    + simpl. rewrite forallb_direct_app, forallb_direct_DUser. done.
  - rewrite (turn_Subject_complete_users s o3 js st3 Hq3 Hs3 eq_refl).
    rewrite Hlen. done.
Qed.

(** ** Signal.merge over subjects and Promise.all *)

Lemma Subject_subscribe_frame s d c st :
  fst (Subject_subscribe s d c st) = length (promises st)
  /\ promises (snd (Subject_subscribe s d c st))
     = promises st ++ [Fulfilled (VUnsub (USubject s d c))]
  /\ queue (snd (Subject_subscribe s d c st)) = queue st
  /\ trace (snd (Subject_subscribe s d c st)) = trace st
  /\ cells (snd (Subject_subscribe s d c st)) = cells st
  /\ alls (snd (Subject_subscribe s d c st)) = alls st
  /\ next_fn (snd (Subject_subscribe s d c st)) = next_fn st.
Proof.
  unfold Subject_subscribe, bind, update_subject, modify, new_promise. simpl.
  destruct (subjects st !! s) as [o|]; simpl.
  - match goal with |- context [match ?x with _ => _ end] => destruct x end;
      simpl; repeat split.
  - destruct (subjects st !! s); simpl; repeat split.
Qed.

Lemma merge_subscribe_subjects d c cell (ss : list nat) :
  forall st,
  fst (merge_subscribe d c cell (map Subject ss) st)
  = seq (length (promises st)) (length ss)
  /\ promises (snd (merge_subscribe d c cell (map Subject ss) st))
     = promises st ++ map (fun u => Fulfilled (VUnsub u))
                          (merge_unsubs d c cell (next_fn st) ss)
  /\ queue (snd (merge_subscribe d c cell (map Subject ss) st)) = queue st
  /\ trace (snd (merge_subscribe d c cell (map Subject ss) st)) = trace st
  /\ cells (snd (merge_subscribe d c cell (map Subject ss) st)) = cells st
  /\ alls (snd (merge_subscribe d c cell (map Subject ss) st)) = alls st.
Proof.
  induction ss as [|s ss IH]; intros st.
  - simpl. rewrite app_nil_r. repeat split.
  - cbn [map]. rewrite merge_subscribe_cons. cbn [fst snd subscribe].
    set (st0 := set_next_fn (S (next_fn st)) st).
    destruct (Subject_subscribe_frame s d (CMerge (next_fn st) cell c) st0)
      as (F1 & F2 & F3 & F4 & F5 & F6 & F7).
    destruct (IH (snd (Subject_subscribe s d (CMerge (next_fn st) cell c) st0)))
      as (I1 & I2 & I3 & I4 & I5 & I6).
    rewrite I1, I2, I3, I4, I5, I6, F1, F2, F3, F4, F5, F6, F7.
    unfold st0. simpl. rewrite length_app. simpl.
    replace (length (promises st) + 1) with (S (length (promises st))) by lia.
    rewrite <- app_assoc. repeat split.
Qed.

Lemma forEach_then_elements all result (us : list (Unsubscribe T)) :
  forall i p st,
  (forall j u, us !! j = Some u -> promises st !! (p + j) = Some (Fulfilled (VUnsub u))) ->
  forEach (fun ip => then_ (snd ip) (KAllElement all (fst ip) result))
          (combine (seq i (length us)) (seq p (length us))) st
  = (tt, set_queue (queue st ++ element_jobs all result i us) st).
Proof.
  induction us as [|u us IH]; intros i p st H.
  - simpl. unfold ret. f_equal. apply State_ext; simpl; by rewrite ?app_nil_r.
  - simpl length. cbn [seq combine forEach]. unfold bind. cbn [fst snd].
    rewrite (then_fulfilled p _ (VUnsub u)).
    2:{ specialize (H 0 u eq_refl). by rewrite Nat.add_0_r in H. }
    cbn [snd]. rewrite IH.
    + f_equal. apply State_ext; simpl; try done. by rewrite <- app_assoc.
    + intros j w Hj. simpl. replace (S (p + j)) with (p + S j) by lia. by apply H.
Qed.

Lemma omap_id_Some {A : Type} (l : list A) : omap id (map Some l) = l.
Proof. induction l as [|a l IH]; simpl; [done|]. f_equal. exact IH. Qed.

(** The element functions of a [Promise.all] call run in the order of the
    inputs; the last one fulfils the promise of the call with all values. *)
Lemma run_element_jobs all result (us : list (Unsubscribe T)) :
  forall (got : list (Unsubscribe T)) q rs st,
  us <> [] ->
  alls st !! all
  = Some (mkAll (map Some got ++ replicate (length us) None) (length us)) ->
  queue st = element_jobs all result (length got) us ++ q ->
  promises st !! result = Some (Pending rs) ->
  run (length us) st
  = set_trace (trace st ++ [Resolved result])
      (set_queue (q ++ map (fun k => MReaction k (VUnsubs (got ++ us))) rs)
         (set_promises (<[result := Fulfilled (VUnsubs (got ++ us))]> (promises st))
            (set_alls (<[all := mkAll (map Some (got ++ us)) 0]> (alls st)) st))).
Proof.
  induction us as [|u us IH]; intros got q rs st Hne Ha Hq Hp; [done|].
  assert (Hlt : all < length (alls st)) by (by eapply lookup_lt_Some).
  cbn [length replicate] in Ha. cbn [element_jobs app] in Hq.
  change (length (u :: us)) with (S (length us)).
  rewrite run_S, (turn_cons _ _ st Hq). cbn [run_microtask run_cont].
  change (alls (set_queue ?a ?b)) with (alls b).
  rewrite Ha. cbv zeta. cbn [values remaining].
  replace (<[length got := Some u]>
             (map Some got ++ None :: replicate (length us) None))
    with (map Some (got ++ [u]) ++ replicate (length us) None).
  2:{ rewrite map_app, <- app_assoc. simpl.
      rewrite <- (insert_middle (map Some got) (replicate (length us) None) None (Some u)).
      by rewrite length_map. }
  replace (S (length us) - 1) with (length us) by lia.
  destruct (Nat.eqb (length us) 0) eqn:E.
  - apply Nat.eqb_eq in E. apply nil_length_inv in E. subst us.
    simpl. rewrite app_nil_r, omap_id_Some.
    rewrite (resolve_pending result _ rs) by done. cbn [snd].
    apply State_ext; simpl; try done.
  - cbn [snd].
    set (st1 := set_alls _ _).
    rewrite (IH (got ++ [u]) q rs st1).
    + apply State_ext; simpl; rewrite <- ?app_assoc; try done.
      by rewrite list_insert_insert_eq.
    + intros ->. done.
    + unfold st1. simpl. by rewrite list_lookup_insert_eq.
    + unfold st1. simpl. rewrite length_app. simpl.
      by replace (length got + 1) with (S (length got)) by lia.
    + done.
Qed.

Lemma then_pending p (k : Cont T) ks st :
  promises st !! p = Some (Pending ks) ->
  then_ p k st = (tt, set_promises (<[p := Pending (ks ++ [k])]> (promises st)) st).
Proof. intros H. unfold then_. by rewrite H. Qed.

Lemma length_merge_unsubs d c cell n (ss : list nat) :
  length (merge_unsubs d c cell n ss) = length ss.
Proof. revert n. induction ss as [|s ss IH]; intros n; simpl; [done|]. by rewrite IH. Qed.

(** [Promise.all] over promises that are fulfilled already. *)
Lemma Promise_all_fulfilled (us : list (Unsubscribe T)) p st :
  us <> [] ->
  (forall j u, us !! j = Some u -> promises st !! (p + j) = Some (Fulfilled (VUnsub u))) ->
  Promise_all (seq p (length us)) st
  = (length (promises st),
     set_queue (queue st ++ element_jobs (length (alls st)) (length (promises st)) 0 us)
       (set_alls (alls st ++ [mkAll (replicate (length us) None) (length us)])
          (set_promises (promises st ++ [Pending []]) st))).
Proof.
  intros Hne H. destruct us as [|u us]; [done|].
  change (seq p (length (u :: us))) with (p :: seq (S p) (length us)).
  unfold Promise_all. unfold bind, ret, new_promise. cbn [fst snd].
  change (length (p :: seq (S p) (length us))) with (S (length (seq (S p) (length us)))).
  rewrite length_seq.
  change (combine (seq 0 (S (length us))) (p :: seq (S p) (length us)))
    with (combine (seq 0 (length (u :: us))) (seq p (length (u :: us)))).
  rewrite (forEach_then_elements _ _ (u :: us) 0 p).
  - cbn [snd]. f_equal.
  - intros j w Hj. simpl. apply lookup_app_l_Some. by apply H.
Qed.

(** The store after [merge(...subjects).subscribe(d, c)] has returned. *)
Lemma subscribe_merge_subjects d c (ss : list nat) st :
  1 <= length ss ->
  let result := length (promises st) in
  let all := S (length (promises st) + length ss) in
  let us := merge_unsubs d c (length (cells st)) (next_fn st) ss in
  let st1 := snd (subscribe (Signal_merge (map Subject ss)) d c st) in
  fst (subscribe (Signal_merge (map Subject ss)) d c st) = result
  /\ promises st1
     = promises st ++ Pending [] :: map (fun u => Fulfilled (VUnsub u)) us
         ++ [Pending [KMergeReturn result]]
  /\ queue st1 = queue st ++ element_jobs (length (alls st)) all 0 us
  /\ alls st1 = alls st ++ [mkAll (replicate (length ss) None) (length ss)]
  /\ cells st1 = cells st ++ [mkCell (Z.of_nat (length ss)) false]
  /\ trace st1 = trace st.
Proof.
  intros Hn. cbv zeta. rewrite subscribe_merge_unfold.
  unfold bind, ret, new_promise. cbn [fst snd].
  set (stA := set_cells _ _).
  change (cells (set_promises (promises st ++ [Pending []]) st)) with (cells st).
  set (rB := merge_subscribe d c (length (cells st)) (map Subject ss) stA).
  destruct (merge_subscribe_subjects d c (length (cells st)) ss stA)
    as (I1 & I2 & I3 & I4 & I5 & I6).
  fold rB in I1, I2, I3, I4, I5, I6.
  set (us := merge_unsubs d c (length (cells st)) (next_fn st) ss).
  change (merge_unsubs d c (length (cells st)) (next_fn stA) ss) with us in I2.
  assert (Hlen : length us = length ss) by apply length_merge_unsubs.
  set (rC := Promise_all (fst rB) (snd rB)).
  assert (HC : rC
    = (length (promises (snd rB)),
       set_queue (queue (snd rB)
                    ++ element_jobs (length (alls (snd rB))) (length (promises (snd rB))) 0 us)
         (set_alls (alls (snd rB) ++ [mkAll (replicate (length us) None) (length us)])
            (set_promises (promises (snd rB) ++ [Pending []]) (snd rB))))).
  { unfold rC. rewrite I1, <- Hlen. apply Promise_all_fulfilled.
    - intros E. rewrite E in Hlen. simpl in Hlen. lia.
    - intros j u Hj. rewrite I2, lookup_app_plus, list_lookup_fmap, Hj. done. }
  rewrite HC. cbn [fst snd].
  rewrite (then_pending _ _ []) by (simpl; apply lookup_fresh).
  cbn [snd]. simpl.
  rewrite I2, I3, I4, I5, I6. unfold stA. simpl.
  rewrite !length_app, !length_map. simpl.
  split; [done|]. split; [|split; [|split; [|done]]].
  - replace (length (promises st) + 1 + length us)
      with (length ((promises st ++ [Pending []])
                      ++ map (fun u => Fulfilled (VUnsub u)) us))
      by (rewrite !length_app, length_map; simpl; lia).
    rewrite (insert_middle _ [] (Pending []) _).
    by rewrite <- !app_assoc.
  - do 2 f_equal. lia.
  - by rewrite Hlen.
Qed.

(** The turns that settle that subscription, from an idle event loop. *)
Lemma run_merge_subjects d c (ss : list nat) st :
  queue st = [] ->
  1 <= length ss ->
  let result := length (promises st) in
  let all := S (length (promises st) + length ss) in
  let us := merge_unsubs d c (length (cells st)) (next_fn st) ss in
  let st1 := snd (subscribe (Signal_merge (map Subject ss)) d c st) in
  run (S (length ss)) st1
  = set_trace (trace st ++ [Resolved all; Resolved result])
      (set_queue []
         (set_promises
            (promises st ++ Fulfilled (VUnsub (UMerge us))
               :: map (fun u => Fulfilled (VUnsub u)) us ++ [Fulfilled (VUnsubs us)])
            (set_alls (alls st ++ [mkAll (map Some us) 0]) st1))).
Proof.
  intros Hq Hn. cbv zeta.
  destruct (subscribe_merge_subjects d c ss st Hn) as (_ & E2 & E3 & E4 & E5 & E6).
  cbv zeta in *.
  set (st1 := snd (subscribe (Signal_merge (map Subject ss)) d c st)) in *.
  set (us := merge_unsubs d c (length (cells st)) (next_fn st) ss) in *.
  set (all := S (length (promises st) + length ss)) in *.
  assert (Hlen : length us = length ss) by apply length_merge_unsubs.
  assert (Hall : promises st1 !! all = Some (Pending [KMergeReturn (length (promises st))])).
  { rewrite E2. unfold all.
    replace (S (length (promises st) + length ss))
      with (length (promises st) + S (length us)) by lia.
    rewrite lookup_app_plus. simpl.
    replace (length us) with (length (map (fun u => Fulfilled (VUnsub u)) us) + 0)
      by (rewrite length_map; lia).
    by rewrite lookup_app_plus. }
  replace (S (length ss)) with (length us + 1) by lia.
  rewrite run_add.
  rewrite (run_element_jobs (length (alls st)) all us [] [] [KMergeReturn (length (promises st))] st1).
  2:{ intros E. rewrite E in Hlen. simpl in Hlen. lia. }
  2:{ rewrite E4, Hlen. simpl. apply lookup_fresh. }
  2:{ rewrite E3, Hq. simpl. by rewrite app_nil_r. }
  2:{ exact Hall. }
  cbn [app map]. change (run 1 ?x) with (turn x).
  rewrite (turn_cons (MReaction (KMergeReturn (length (promises st))) (VUnsubs us)) []) by done.
  cbn [run_microtask run_cont].
  rewrite (resolve_pending (length (promises st)) _ []).
  2:{ simpl. rewrite list_lookup_insert_ne by (unfold all; lia).
      rewrite E2. by apply list_lookup_middle. }
  cbn [snd]. apply State_ext; simpl; try done.
  - rewrite E2.
    assert (EL : forall x : PromiseState T,
              promises st ++ Pending [] :: map (fun u => Fulfilled (VUnsub u)) us ++ [x]
              = (promises st ++ Pending [] :: map (fun u => Fulfilled (VUnsub u)) us) ++ [x])
      by (intros; by rewrite <- app_assoc).
    rewrite EL.
    replace all with (length (promises st ++ Pending []
                                :: map (fun u => Fulfilled (VUnsub u)) us))
      by (rewrite length_app; simpl; rewrite length_map; unfold all; lia).
    rewrite (insert_middle _ [] _ _).
    rewrite <- EL. by rewrite (insert_middle (promises st)).
  - rewrite E4. by rewrite (insert_middle (alls st) [] _ _).
  - rewrite E6. by rewrite <- app_assoc.
Qed.

Lemma subscribe_merge_subjects_of (signals : list (Signal T)) d c st :
  subjects (snd (subscribe (Signal_merge signals) d c st))
  = subjects (snd (merge_subscribe d c (length (cells st)) signals
                     (set_cells (cells st ++ [mkCell (Z.of_nat (length signals)) false])
                        (set_promises (promises st ++ [Pending []]) st)))).
Proof.
  rewrite subscribe_merge_unfold. unfold bind, ret, new_promise. cbn [fst snd].
  by rewrite then_subjects, Promise_all_subjects.
Qed.

Lemma existsb_Set_add_mono {A : Type} (id : A -> FnId) (P : A -> bool) x (l : list A) :
  existsb P l = true -> existsb P (Set_add id x l) = true.
Proof.
  intros H. unfold Set_add.
  destruct (existsb (fun y => FnId_eqb (id y) (id x)) l); [exact H|].
  rewrite existsb_app, H. reflexivity.
Qed.

Lemma Subject_subscribe_subjects s d c st :
  subjects (snd (Subject_subscribe s d c st))
  = match subjects st !! s with
    | Some o => <[s := mkSubject (Set_add Dispatch_id d (dispatchs o))
                                 (Set_add Complete_id c (completes o))]> (subjects st)
    | None => subjects st
    end.
Proof.
  destruct (subjects st !! s) as [o|] eqn:Hs.
  - by rewrite (Subject_subscribe_state s d c o st Hs).
  - unfold Subject_subscribe, bind, update_subject, modify, new_promise. simpl.
    rewrite Hs. simpl. by rewrite Hs.
Qed.

Lemma Subject_subscribe_holds s s' d d' c st :
  holds s d st -> holds s d (snd (Subject_subscribe s' d' c st)).
Proof.
  intros (o & Hs & Hd). unfold holds. rewrite Subject_subscribe_subjects.
  destruct (subjects st !! s') as [o'|] eqn:Hs'; [|eauto].
  destruct (decide (s' = s)) as [->|Hne].
  - rewrite list_lookup_insert_eq by (by eapply lookup_lt_Some).
    eexists. split; [done|]. simpl.
    assert (o' = o) by congruence. subst o'. by apply existsb_Set_add_mono.
  - rewrite list_lookup_insert_ne by done. eauto.
Qed.

Lemma Subject_subscribe_holds_own s d c st :
  s < length (subjects st) -> holds s d (snd (Subject_subscribe s d c st)).
Proof.
  intros Hlt. apply lookup_lt_is_Some in Hlt as [o Hs].
  unfold holds. rewrite Subject_subscribe_subjects, Hs.
  rewrite list_lookup_insert_eq by (by eapply lookup_lt_Some).
  eexists. split; [done|]. simpl. apply existsb_Set_add.
Qed.

Lemma Subject_subscribe_length s d c st :
  length (subjects (snd (Subject_subscribe s d c st))) = length (subjects st).
Proof.
  rewrite Subject_subscribe_subjects. destruct (subjects st !! s); [|done].
  apply length_insert.
Qed.

Lemma merge_subscribe_holds d c cell s (ss : list nat) :
  forall st,
  s < length (subjects st) ->
  holds s d st \/ In s ss ->
  holds s d (snd (merge_subscribe d c cell (map Subject ss) st)).
Proof.
  induction ss as [|s' ss IH]; intros st Hlt H.
  - simpl. destruct H as [H|[]]. done.
  - cbn [map]. rewrite merge_subscribe_cons. cbn [snd subscribe].
    apply IH.
    + by rewrite Subject_subscribe_length.
    + destruct H as [H|[->|H]].
      * left. by apply Subject_subscribe_holds.
      * left. by apply Subject_subscribe_holds_own.
      * by right.
Qed.

Lemma call_unsub_UMerge_cons u (us : list (Unsubscribe T)) st :
  call_unsub (UMerge (u :: us)) st = call_unsub (UMerge us) (snd (call_unsub u st)).
Proof. reflexivity. Qed.

Lemma call_unsub_USubject_subjects s d c st :
  subjects (snd (call_unsub (USubject s d c) st))
  = match subjects st !! s with
    | Some o => <[s := mkSubject (Set_delete Dispatch_id d (dispatchs o))
                                 (Set_delete Complete_id c (completes o))]> (subjects st)
    | None => subjects st
    end.
Proof.
  destruct (subjects st !! s) as [o|] eqn:Hs.
  - by rewrite (call_unsub_USubject s d c o st Hs).
  - by rewrite (call_unsub_USubject_missing s d c st Hs).
Qed.

Lemma existsb_Set_delete_mono {A : Type} (id : A -> FnId) (P : A -> bool) x (l : list A) :
  existsb P l = false -> existsb P (Set_delete id x l) = false.
Proof.
  induction l as [|a l IH]; simpl; [done|].
  intros H. apply orb_false_iff in H as [H1 H2].
  destruct (negb _); simpl; [by rewrite H1, IH|by apply IH].
Qed.

Lemma merge_unsubs_lacks d c cell s (ss : list nat) :
  forall n st,
  lacks s d st \/ In s ss ->
  lacks s d (snd (call_unsub (UMerge (merge_unsubs d c cell n ss)) st)).
Proof.
  induction ss as [|s' ss IH]; intros n st H.
  - simpl. destruct H as [H|[]]. done.
  - cbn [merge_unsubs]. rewrite call_unsub_UMerge_cons. apply IH.
    assert (Hown : lacks s' d (snd (call_unsub (USubject s' d (CMerge n cell c)) st))).
    { intros o. rewrite call_unsub_USubject_subjects.
      destruct (subjects st !! s') as [o'|] eqn:Hs'; [|congruence].
      rewrite list_lookup_insert_eq by (by eapply lookup_lt_Some).
      intros [= <-]. simpl. apply Set_delete_absent. }
    destruct H as [H|[->|H]]; [|by left|by right].
    left. destruct (decide (s' = s)) as [->|Hne]; [done|].
    intros o. rewrite call_unsub_USubject_subjects.
    destruct (subjects st !! s') as [o'|] eqn:Hs'; [|apply H].
    rewrite list_lookup_insert_ne by done. apply H.
Qed.

(** X11. A subscription to the merge of [n >= 1] subjects registers the
    subscriber's value callback on every input. Its promise is pending
    when the call returns and is fulfilled, [n + 1] turns later and without
    anything being delivered, with an [Unsubscribe] over the subscriptions
    to all inputs, in their order. Invoking that leaves the callback on
    none of the inputs. *)
Theorem merge_of_subjects_unsubscribes_every_input d c (ss : list nat) st :
  queue st = [] ->
  1 <= length ss ->
  (forall s, In s ss -> s < length (subjects st)) ->
  let result := length (promises st) in
  let us := merge_unsubs d c (length (cells st)) (next_fn st) ss in
  let st1 := exec (subscribe (Signal_merge (map Subject ss)) d c) st in
  let st2 := run (S (length ss)) st1 in
  eval (subscribe (Signal_merge (map Subject ss)) d c) st = result
  /\ fulfilled result st1 = None
  /\ (forall s, In s ss -> holds s d st1)
  /\ fulfilled result st2 = Some (VUnsub (UMerge us))
  /\ queue st2 = []
  /\ subjects st2 = subjects st1
  /\ trace st2 = trace st ++ [Resolved (S (result + length ss)); Resolved result]
  /\ (forall s, In s ss -> lacks s d (exec (call_unsub (UMerge us)) st2)).
Proof.
  intros Hq Hn Hex. cbv zeta. unfold exec, eval.
  destruct (subscribe_merge_subjects d c ss st Hn) as (E1 & E2 & _).
  cbv zeta in E1, E2.
  rewrite (run_merge_subjects d c ss st Hq Hn).
  split; [done|]. split.
  { unfold fulfilled. rewrite E2. by rewrite (list_lookup_middle _ _ _ _ eq_refl). }
  split.
  { intros s Hs. unfold holds. rewrite subscribe_merge_subjects_of.
    apply (merge_subscribe_holds d c _ s ss); [|by right].
    simpl. by apply Hex. }
  split.
  { unfold fulfilled. simpl. by rewrite (list_lookup_middle _ _ _ _ eq_refl). }
  split; [done|]. split; [done|]. split; [done|].
  intros s Hs. apply merge_unsubs_lacks. by right.
Qed.

Lemma forEach_app {A : Type} (f : A -> M T unit) (l1 l2 : list A) st :
  forEach f (l1 ++ l2) st = forEach f l2 (snd (forEach f l1 st)).
Proof.
  revert st. induction l1 as [|a l1 IH]; intros st; [done|].
  simpl. unfold bind. by rewrite IH.
Qed.

Lemma existsb_closure_CUser (n : nat) (js : list nat) :
  existsb (fun y => FnId_eqb (Complete_id y) (Closure n)) (map CUser js) = false.
Proof. by induction js. Qed.

Lemma existsb_DUser_absent (k : nat) (ks : list nat) :
  ~ In k ks ->
  existsb (fun y => FnId_eqb (Dispatch_id y) (External k)) (map (DUser (T:=T)) ks) = false.
Proof.
  induction ks as [|j ks IH]; simpl; [done|].
  intros H. rewrite IH by tauto.
  destruct (Nat.eqb j k) eqn:E; [|done].
  apply Nat.eqb_eq in E. tauto.
Qed.

Lemma completions_Completed_absent (k : nat) (js : list nat) :
  ~ In k js -> completions k (map (Completed (T:=T)) js) = 0.
Proof.
  induction js as [|j js IH]; simpl; [done|].
  intros H. destruct (Nat.eqb j k) eqn:E.
  - apply Nat.eqb_eq in E. tauto.
  - apply IH. tauto.
Qed.

Lemma run_MComplete_members s p o st :
  subjects st !! s = Some o ->
  run_microtask (MComplete s p) st
  = resolve p VVoid (snd (forEach (fun c => call_complete c) (completes o) st)).
Proof.
  intros Hs. cbn [run_microtask]. unfold bind, get_completes. cbn [fst snd].
  by rewrite Hs.
Qed.

Lemma merge_subscribe_registered d c cell (ss : list nat) :
  forall st,
  subjects (snd (merge_subscribe d c cell (map Subject ss) st))
  = merge_registered d c cell (next_fn st) ss (subjects st).
Proof.
  induction ss as [|s ss IH]; intros st; [done|].
  cbn [map]. rewrite merge_subscribe_cons. cbn [snd subscribe].
  rewrite IH. cbn [merge_registered].
  destruct (Subject_subscribe_frame s d (CMerge (next_fn st) cell c)
              (set_next_fn (S (next_fn st)) st)) as (_ & _ & _ & _ & _ & _ & F7).
  rewrite F7, Subject_subscribe_subjects. by autorewrite with setters.
Qed.

Lemma subscribe_merge_twice_subjects s o (ks js : list nat) (k k' : nat) st :
  subjects st !! s = Some o ->
  dispatchs o = map DUser ks -> ~ In k ks ->
  completes o = map CUser js ->
  subjects (snd (subscribe (Signal_merge [Subject s; Subject s]) (DUser k) (CUser k') st)) !! s
  = Some (mkSubject (map DUser ks ++ [DUser k])
            (map CUser js ++ [CMerge (next_fn st) (length (cells st)) (CUser k');
                              CMerge (S (next_fn st)) (length (cells st)) (CUser k')])).
Proof.
  intros Hs Hd Hk Hc.
  assert (Hlt : s < length (subjects st)) by (by eapply lookup_lt_Some).
  rewrite subscribe_merge_subjects_of.
  rewrite (merge_subscribe_registered (DUser k) (CUser k') (length (cells st)) [s; s]).
  autorewrite with setters. cbn [merge_registered].
  rewrite Hs. rewrite list_lookup_insert_eq by done.
  rewrite list_insert_insert_eq. rewrite list_lookup_insert_eq by done.
  cbn [dispatchs completes]. rewrite Hd, Hc. f_equal. f_equal.
  - rewrite Set_add_idem. apply Set_add_fresh. by apply existsb_DUser_absent.
  - rewrite (Set_add_fresh Complete_id _ (map CUser js))
      by apply existsb_closure_CUser.
    rewrite Set_add_fresh; [by rewrite <- app_assoc|].
    cbn [Complete_id].
    rewrite existsb_app, existsb_closure_CUser. cbn [existsb Complete_id FnId_eqb orb].
    replace (Nat.eqb (next_fn st) (S (next_fn st))) with false
      by (symmetry; apply Nat.eqb_neq; lia).
    done.
Qed.

(** X12. [merge] hands the same value callback to every input. Merging a
    subject with itself therefore registers that callback once and two
    completion closures: after the subscription has settled, a value
    emitted on the subject reaches the subscriber once, not twice, and one
    completion of the subject runs both closures, which completes the
    subscriber once. *)
Theorem merge_of_a_subject_with_itself
    s o (ks js : list nat) (k k' : nat) (v : T) st :
  queue st = [] ->
  subjects st !! s = Some o ->
  dispatchs o = map DUser ks -> ~ In k ks ->
  completes o = map CUser js -> ~ In k' js ->
  let cell := length (cells st) in
  let st2 := run 3 (exec (subscribe (Signal_merge [Subject s; Subject s])
                            (DUser k) (CUser k')) st) in
  subjects st2 !! s
  = Some (mkSubject (map DUser ks ++ [DUser k])
                    (map CUser js ++ [CMerge (next_fn st) cell (CUser k');
                                      CMerge (S (next_fn st)) cell (CUser k')]))
  /\ queue st2 = []
  /\ received k (trace st2) = received k (trace st)
  /\ completions k' (trace st2) = completions k' (trace st)
  /\ received k (trace (turn (exec (Subject_dispatch s v) st2)))
     = received k (trace st) ++ [v]
  /\ completions k' (trace (turn (exec (Subject_complete s) st2)))
     = S (completions k' (trace st)).
Proof.
  intros Hq Hs Hd Hk Hc Hk'. cbv zeta.
  assert (Hn : 1 <= length [s; s]) by (simpl; lia).
  pose proof (run_merge_subjects (DUser k) (CUser k') [s; s] st Hq Hn) as Hrun.
  destruct (subscribe_merge_subjects (DUser k) (CUser k') [s; s] st Hn)
    as (_ & _ & _ & _ & E5 & _).
  pose proof (subscribe_merge_twice_subjects s o ks js k k' st Hs Hd Hk Hc) as Hs1.
  cbv zeta in Hrun, E5. cbn [map length] in Hrun, E5.
  unfold exec. cbn [map].
  remember (snd (subscribe (Signal_merge [Subject s; Subject s]) (DUser k) (CUser k') st))
    as st1 eqn:Est1.
  clear Est1. rewrite Hrun. clear Hrun.
  set (st2 := set_trace _ _).
  set (nf := next_fn st) in *. set (cell := length (cells st)) in *.
  set (o2 := mkSubject (T:=T) (map DUser ks ++ [DUser k])
                       (map CUser js ++ [CMerge nf cell (CUser k');
                                         CMerge (S nf) cell (CUser k')])) in *.
  assert (Hs2 : subjects st2 !! s = Some o2).
  { unfold st2. by autorewrite with setters. }
  assert (Hq2 : queue st2 = []).
  { unfold st2. by autorewrite with setters. }
  assert (Ht2 : forall j, received j (trace st2) = received j (trace st)).
  { intros j. unfold st2. autorewrite with setters.
    rewrite received_app. simpl. apply app_nil_r. }
  assert (Hc2 : forall j, completions j (trace st2) = completions j (trace st)).
  { intros j. unfold st2. autorewrite with setters.
    rewrite completions_app. simpl. lia. }
  assert (Hcell : cells st2 !! cell = Some (mkCell 2 false)).
  { unfold st2. autorewrite with setters. rewrite E5. apply lookup_fresh. }
  clearbody st2.
  split; [done|]. split; [done|]. split; [apply Ht2|]. split; [apply Hc2|]. split.
  - rewrite (turn_Subject_dispatch_direct s o2 v st2 Hq2 Hs2).
    2:{ unfold o2. cbn [dispatchs]. rewrite forallb_direct_app, forallb_direct_DUser. done. }
    autorewrite with setters.
    rewrite !received_app, Ht2.
    unfold o2. cbn [dispatchs]. rewrite map_app, concat_app, concat_emits_DUser.
    rewrite received_app, received_fanout_absent by done.
    simpl. by rewrite Nat.eqb_refl.
  - rewrite Subject_complete_state. cbn [snd].
    rewrite (turn_cons (MComplete s (length (promises st2))) []);
      [|autorewrite with setters; by rewrite Hq2].
    rewrite (run_MComplete_members s _ o2)
      by (autorewrite with setters; exact Hs2).
    unfold o2 at 1. cbn [completes].
    rewrite forEach_app, forEach_call_CUser. cbn [snd].
    rewrite resolve_completions.
    cbn [forEach]. unfold bind. cbn [fst snd].
    set (stC := set_trace _ _).
    assert (HcC : cells stC !! cell = Some (mkCell 2 false)).
    { unfold stC. autorewrite with setters. exact Hcell. }
    assert (HtC : trace stC = trace st2 ++ map Completed js).
    { unfold stC. by autorewrite with setters. }
    clearbody stC.
    rewrite (call_complete_CMerge nf cell k' 2 false stC HcC). cbn [snd].
    change ((2 - 1 <=? 0)%Z && negb false) with false. cbv iota.
    set (stD := set_cells _ stC).
    assert (HcD : cells stD !! cell = Some (mkCell 1 false)).
    { unfold stD. autorewrite with setters.
      apply list_lookup_insert_eq. by eapply lookup_lt_Some. }
    assert (HtD : trace stD = trace st2 ++ map Completed js).
    { unfold stD. by autorewrite with setters. }
    clearbody stD.
    rewrite (call_complete_CMerge (S nf) cell k' 1 false stD HcD). cbn [snd].
    change ((1 - 1 <=? 0)%Z && negb false) with true. cbv iota.
    unfold ret. cbn [snd]. autorewrite with setters. rewrite HtD.
    rewrite !completions_app, Hc2, completions_Completed_absent by done.
    simpl. rewrite Nat.eqb_refl. lia.
Qed.

(** ** Signal.loop over a finite sink *)

Lemma forEach_DBound n s (vs : list T) st :
  forEach (call_dispatch (DBound n s)) vs st
  = forEach (fun v => bind (Subject_dispatch s v) (fun _ => ret tt)) vs st.
Proof.
  revert st. induction vs as [|v vs IH]; intros st; [done|].
  cbn [forEach]. unfold bind at 1 3. cbn [call_dispatch]. apply IH.
Qed.

(** The turn in which the loop applies a handler that returns
    [of(...vs)]: the sink dispatches and completes into the hub at once. *)
Lemma turn_loop_of_handler (vs : list T) (k k' : nat) st :
  queue st = [] ->
  let source := length (subjects st) in
  let result := length (promises st) in
  turn (snd (subscribe (Signal_loop (fun _ => Signal_of vs)) (DUser k) (CUser k') st))
  = set_next_fn (S (S (next_fn st)))
      (set_queue (dispatch_jobs source (result + 2) vs
                    ++ [MComplete source (result + 2 + length vs);
                        MReaction (KLoopReturn source result) (VUnsub UNoop)])
         (set_promises
            (promises st ++ [Pending []; Fulfilled (VUnsub (USubject source (DUser k) (CUser k')))]
               ++ replicate (length vs) (Pending [])
               ++ [Pending []; Fulfilled (VUnsub UNoop)])
            (set_subjects (subjects st ++ [mkSubject [DUser k] [CUser k']]) st))).
Proof.
  intros Hq. cbv zeta. rewrite subscribe_loop_state. cbn [snd].
  erewrite turn_cons; [|autorewrite with setters; rewrite Hq; reflexivity].
  cbn [run_microtask run_cont]. unfold bind, new_closure. cbn [fst snd subscribe].
  unfold bind. rewrite forEach_DBound, forEach_Subject_dispatch. cbn [fst snd].
  cbn [call_complete]. unfold bind, ret. rewrite Subject_complete_state. cbn [fst snd].
  unfold new_promise. cbn [fst snd]. autorewrite with setters.
  rewrite (then_fulfilled _ _ (VUnsub UNoop)).
  2:{ autorewrite with setters. apply lookup_fresh. }
  cbn [snd]. apply State_ext; autorewrite with setters; try done.
  - by rewrite <- !app_assoc.
  - rewrite !length_app, length_replicate. cbn [length app].
    by rewrite <- !app_assoc.
Qed.

Lemma run_1 st : run 1 st = turn st.
Proof. reflexivity. Qed.

Lemma lookup_replicate_pending (n i : nat) :
  i < n -> replicate n (Pending (T:=T) []) !! i = Some (Pending []).
Proof. intros H. by apply lookup_replicate_2. Qed.

(** A subscription to [loop(_ => of(...vs))], once it has settled. *)
Lemma loop_of_settled (vs : list T) (k k' : nat) st :
  queue st = [] ->
  let source := length (subjects st) in
  let result := length (promises st) in
  let fin := run (length vs + 3)
               (snd (subscribe (Signal_loop (fun _ => Signal_of vs)) (DUser k) (CUser k') st)) in
  subjects fin !! source = Some (mkSubject [DUser k] [CUser k'])
  /\ queue fin = []
  /\ fulfilled result fin = Some (VUnsub (ULoop source UNoop))
  /\ length (promises fin) = result + length vs + 4
  /\ (forall j, received j (trace fin)
                = received j (trace st) ++ (if Nat.eqb k j then vs else []))
  /\ (forall j, completions j (trace fin)
                = completions j (trace st) + (if Nat.eqb k' j then 1 else 0)).
Proof.
  intros Hq. cbv zeta.
  replace (length vs + 3) with (1 + (length vs + (1 + 1))) by lia.
  rewrite !run_add, !run_1.
  rewrite (turn_loop_of_handler vs k k' st Hq).
  set (source := length (subjects st)). set (result := length (promises st)).
  set (hub := mkSubject (T:=T) [DUser k] [CUser k']).
  set (stH := set_next_fn _ _).
  assert (HsH : subjects stH !! source = Some hub).
  { unfold stH. autorewrite with setters. apply lookup_fresh. }
  assert (HqH : queue stH
                = dispatch_jobs source (result + 2) vs
                    ++ [MComplete source (result + 2 + length vs);
                        MReaction (KLoopReturn source result) (VUnsub UNoop)]).
  { unfold stH. by autorewrite with setters. }
  assert (HpH : promises stH
                = promises st ++ [Pending []; Fulfilled (VUnsub (USubject source (DUser k) (CUser k')))]
                    ++ replicate (length vs) (Pending [])
                    ++ [Pending []; Fulfilled (VUnsub UNoop)]).
  { unfold stH. by autorewrite with setters. }
  assert (HtH : trace stH = trace st).
  { unfold stH. by autorewrite with setters. }
  clearbody stH.
  destruct (run_dispatch_jobs source hub vs (result + 2)
              [MComplete source (result + 2 + length vs);
               MReaction (KLoopReturn source result) (VUnsub UNoop)] stH)
    as (N1 & N2 & _ & _ & N5 & N6 & N7 & N8); [done|done|done| |].
  { intros i Hi. rewrite HpH. unfold result.
    replace (length (promises st) + 2 + i)
      with (length (promises st) + (2 + i)) by lia.
    rewrite lookup_app_plus. cbn [app]. simpl.
    rewrite lookup_app_l by (rewrite length_replicate; lia).
    by apply lookup_replicate_pending. }
  cbv zeta in N1, N2, N5, N6, N7, N8.
  set (stN := run (length vs) stH) in *. clearbody stN.
  (* the completion of the hub *)
  assert (HpC : promises stN !! (result + 2 + length vs) = Some (Pending [])).
  { rewrite N6 by lia. rewrite HpH. unfold result.
    replace (length (promises st) + 2 + length vs)
      with (length (promises st) + (2 + length vs)) by lia.
    rewrite lookup_app_plus. cbn [app]. simpl.
    rewrite lookup_app_r by (rewrite length_replicate; lia).
    rewrite length_replicate, Nat.sub_diag. done. }
  assert (HpR : promises stN !! result = Some (Pending [])).
  { rewrite N6 by lia. rewrite HpH. by apply list_lookup_middle. }
  rewrite (turn_cons _ _ stN N2).
  rewrite (run_MComplete_users source _ hub [k'] []);
    [|autorewrite with setters; by rewrite N1|done|by autorewrite with setters].
  cbn [snd]. set (stC := set_queue _ _).
  assert (HqC : queue stC = [MReaction (KLoopReturn source result) (VUnsub UNoop)]).
  { unfold stC. by autorewrite with setters. }
  assert (HpRC : promises stC !! result = Some (Pending [])).
  { unfold stC. autorewrite with setters. rewrite list_lookup_insert_ne by lia. done. }
  assert (HsC : subjects stC = subjects stH).
  { unfold stC. autorewrite with setters. done. }
  assert (HtC : trace stC = trace stN ++ [Completed k'; Resolved (result + 2 + length vs)]).
  { unfold stC. by autorewrite with setters. }
  assert (HlC : length (promises stC) = length (promises stH)).
  { unfold stC. autorewrite with setters. by rewrite length_insert. }
  clearbody stC.
  (* the loop returns *)
  rewrite (turn_cons _ _ stC HqC). cbn [run_microtask run_cont].
  rewrite (resolve_pending result _ []) by (by autorewrite with setters).
  cbn [snd]. autorewrite with setters.
  split; [by rewrite HsC|]. split; [done|]. split.
  { unfold fulfilled. autorewrite with setters.
    rewrite list_lookup_insert_eq; [done|]. by eapply lookup_lt_Some. }
  split.
  { rewrite length_insert, HlC, HpH, !length_app, length_replicate. simpl.
    unfold result. lia. }
  split.
  - intros j. rewrite HtC, !received_app, N7, HtH. simpl.
    rewrite !app_nil_r. f_equal.
    destruct (Nat.eqb k j) eqn:E.
    + apply concat_singletons.
    + apply concat_nils.
  - intros j. rewrite HtC, !completions_app, N8, HtH. simpl.
    destruct (Nat.eqb k' j); lia.
Qed.

(** X13. A subscription to [loop(_ => of(...vs))] hands the subscriber
    the payloads in their order and then one completion, in the turns that
    follow the subscription; afterwards the queue is empty and the returned
    promise holds the loop's [Unsubscribe]. *)
Theorem loop_over_of_delivers_payloads_then_completion (vs : list T) (k k' : nat) st :
  queue st = [] ->
  let source := length (subjects st) in
  let result := length (promises st) in
  let st1 := exec (subscribe (Signal_loop (fun _ => Signal_of vs)) (DUser k) (CUser k')) st in
  let fin := run (length vs + 3) st1 in
  trace st1 = trace st
  /\ received k (trace fin) = received k (trace st) ++ vs
  /\ completions k' (trace fin) = S (completions k' (trace st))
  /\ queue fin = []
  /\ (forall n, run n fin = fin)
  /\ fulfilled result fin = Some (VUnsub (ULoop source UNoop)).
Proof.
  intros Hq. cbv zeta. unfold exec.
  destruct (loop_of_settled vs k k' st Hq) as (F1 & F2 & F3 & F4 & F5 & F6).
  cbv zeta in *.
  split; [by rewrite subscribe_loop_state|].
  split; [rewrite F5; by rewrite Nat.eqb_refl|].
  split; [rewrite F6, Nat.eqb_refl; lia|].
  split; [done|]. split; [|done].
  intros n. by apply run_idle.
Qed.

(** X14. The [Unsubscribe] of a loop completes the hub and unsubscribes
    the sink; the subscriber's own callbacks stay on the hub. So invoking
    it after the stream [loop(_ => of(...vs))] has completed calls the
    subscriber's completion callback a second time. *)
Theorem loop_unsubscribe_after_completion_completes_again
    (vs : list T) (k k' : nat) st :
  queue st = [] ->
  let source := length (subjects st) in
  let result := length (promises st) in
  let fin := run (length vs + 3)
               (exec (subscribe (Signal_loop (fun _ => Signal_of vs)) (DUser k) (CUser k')) st) in
  let again := turn (exec (call_unsub (ULoop source UNoop)) fin) in
  fulfilled result fin = Some (VUnsub (ULoop source UNoop))
  /\ completions k' (trace fin) = S (completions k' (trace st))
  /\ completions k' (trace again) = S (S (completions k' (trace st)))
  /\ received k (trace again) = received k (trace st) ++ vs
  /\ queue again = [].
Proof.
  intros Hq. cbv zeta. unfold exec.
  destruct (loop_of_settled vs k k' st Hq) as (F1 & F2 & F3 & F4 & F5 & F6).
  cbv zeta in *.
  set (fin := run (length vs + 3) _) in *. clearbody fin.
  split; [done|]. split; [rewrite F6, Nat.eqb_refl; lia|].
  rewrite call_unsub_ULoop.
  change (call_unsub UNoop ?x) with (tt, x). cbn [snd].
  rewrite (turn_Subject_complete_users _ _ [k'] fin F2 F1 eq_refl).
  autorewrite with setters. split; [|split; [|done]].
  - rewrite !completions_app, F6, Nat.eqb_refl. simpl. rewrite Nat.eqb_refl. lia.
  - rewrite !received_app, F5, Nat.eqb_refl. simpl. by rewrite app_nil_r.
Qed.

(** ** Signal.loop with feedback *)

(** One turn of the loop whose handler is [source => source.filter(p).map(f)]:
    the caller receives [v], and [f v] is emitted on the hub when [p]
    accepts [v]. *)
Lemma feedback_turn source (k a b n1 : nat) (p : T -> bool) (f : T -> T) cs (v : T) pr q st :
  subjects st !! source
    = Some (mkSubject [DUser k; DFilter a p (DMap b f (DBound n1 source))] cs) ->
  queue st = MDispatch source v pr :: q ->
  promises st !! pr = Some (Pending []) ->
  turn st
  = if p v
    then set_trace (trace st ++ [Received k v; Resolved pr])
           (set_queue (q ++ [MDispatch source (f v) (length (promises st))])
              (set_promises (<[pr := Fulfilled VVoid]> (promises st ++ [Pending []])) st))
    else set_trace (trace st ++ [Received k v; Resolved pr])
           (set_queue q (set_promises (<[pr := Fulfilled VVoid]> (promises st)) st)).
Proof.
  intros Hs Hq Hp. destruct st as [subs proms cls als q0 tr nf].
  simpl in Hs, Hq, Hp. subst q0.
  unfold turn. record_norm. cbn [run_microtask]. unfold get_dispatchs. record_norm.
  rewrite Hs. cbn [dispatchs forEach call_dispatch]. destruct (p v).
  - unfold Subject_dispatch. record_norm.
    rewrite (resolve_pending pr _ []) by (by apply lookup_app_l_Some).
    record_norm. by rewrite <- !app_assoc, app_nil_r.
  - record_norm. rewrite (resolve_pending pr _ []) by done.
    record_norm. by rewrite <- !app_assoc, app_nil_r.
Qed.

Lemma feedback_run source (k a b n1 : nat) (p : T -> bool) (f : T -> T) cs (n : nat) :
  forall (v : T) pr st,
  subjects st !! source
    = Some (mkSubject [DUser k; DFilter a p (DMap b f (DBound n1 source))] cs) ->
  queue st = [MDispatch source v pr] ->
  promises st !! pr = Some (Pending []) ->
  received k (trace (run n st)) = received k (trace st) ++ orbit p f n v
  /\ (forallb p (orbit p f n v) = false -> queue (run n st) = [])
  /\ (forallb p (orbit p f n v) = true ->
      exists pr', queue (run n st) = [MDispatch source (Nat.iter n f v) pr'])
  /\ subjects (run n st) = subjects st.
Proof.
  induction n as [|n IH]; intros v pr st Hs Hq Hp.
  - simpl. rewrite app_nil_r. repeat split; [done|]. intros _. by exists pr.
  - rewrite run_S, (feedback_turn source k a b n1 p f cs v pr [] st Hs Hq Hp).
    assert (Hlt : pr < length (promises st)) by (by eapply lookup_lt_Some).
    cbn [orbit forallb]. destruct (p v) eqn:Epv.
    + set (st' := set_trace _ _).
      assert (Ht' : trace st' = trace st ++ [Received k v; Resolved pr])
        by (unfold st'; by autorewrite with setters).
      assert (Hs' : subjects st' = subjects st)
        by (unfold st'; by autorewrite with setters).
      destruct (IH (f v) (length (promises st)) st') as (Hr & Hstop & Hgo & Hsub).
      * by rewrite Hs'.
      * unfold st'. by autorewrite with setters.
      * unfold st'. autorewrite with setters.
        rewrite list_lookup_insert_ne by lia. apply lookup_fresh.
      * clearbody st'. rewrite Hr, Hsub, Ht', Hs'.
        rewrite received_app. cbn [received]. rewrite Nat.eqb_refl, <- app_assoc.
        repeat split; [done|].
        intros Hall. destruct (Hgo Hall) as [pr' Hpr']. exists pr'.
        rewrite Hpr'. by rewrite Nat.iter_succ_r.
    + rewrite run_idle by (by autorewrite with setters).
      autorewrite with setters. rewrite received_app. simpl. rewrite Nat.eqb_refl.
      repeat split; done.
Qed.

(** The loop whose handler is [source => source.filter(p).map(f)], two
    turns after the subscription. *)
Lemma feedback_loop_ready (p : T -> bool) (f : T -> T) (k k' : nat) st :
  queue st = [] ->
  let source := length (subjects st) in
  let sink := DFilter (S (S (S (next_fn st)))) p
                (DMap (S (S (next_fn st))) f (DBound (next_fn st) source)) in
  let unsubSink := USubject source sink (CBound (S (next_fn st)) source) in
  run 2 (exec (subscribe (Signal_loop (fun source => Signal_map f (Signal_filter p (Subject source))))
                 (DUser k) (CUser k')) st)
  = set_next_fn (S (S (S (S (next_fn st)))))
      (set_trace (trace st ++ [Resolved (length (promises st))])
         (set_promises
            (promises st ++ [Fulfilled (VUnsub (ULoop source unsubSink));
                             Fulfilled (VUnsub (USubject source (DUser k) (CUser k')));
                             Fulfilled (VUnsub unsubSink)])
            (set_subjects
               (subjects st ++ [mkSubject [DUser k; sink]
                                          [CUser k'; CBound (S (next_fn st)) source]])
               st))).
Proof.
  intros Hq. cbv zeta.
  destruct st as [subs proms cls als q tr nf]. simpl in Hq. subst q.
  unfold exec. rewrite subscribe_loop_state.
  change (run 2 ?x) with (turn (turn x)).
  unfold turn at 2. record_norm.
  cbn [run_microtask run_cont subscribe]. record_norm.
  rewrite (Subject_subscribe_state _ _ _ (mkSubject [DUser k] [CUser k']))
    by apply lookup_fresh.
  record_norm.
  rewrite (then_fulfilled _ _
             (VUnsub (USubject (length subs)
                        (DFilter (S (S (S nf))) p (DMap (S (S nf)) f (DBound nf (length subs))))
                        (CBound (S nf) (length subs)))))
    by apply lookup_fresh.
  record_norm. unfold turn. record_norm. cbn [run_microtask run_cont].
  assert (Hp : forall x y z : PromiseState T,
             ((proms ++ [x; y]) ++ [z]) !! length proms = Some x).
  { intros. rewrite <- app_assoc. by apply list_lookup_middle. }
  rewrite (resolve_pending (length proms) _ []) by apply Hp.
  record_norm. rewrite insert_middle.
  rewrite <- (app_assoc proms). cbn [app]. rewrite (insert_middle proms).
  done.
Qed.

(** X15. In the loop whose handler is [source => source.filter(p).map(f)]
    a value [v] emitted on the hub reaches the subscriber and, when [p]
    accepts it, comes back as [f v], one value per turn: after [n] turns
    the subscriber has received [v], [f v], [f (f v)], ... up to the first
    value [p] rejects. Once a value is rejected nothing is queued any more;
    until then the next value waits in the queue. *)
Theorem feedback_loop_delivers_orbit_until_rejection
    (p : T -> bool) (f : T -> T) (k k' : nat) (v : T) (n : nat) st :
  queue st = [] ->
  let source := length (subjects st) in
  let ready := run 2 (exec (subscribe
                 (Signal_loop (fun source => Signal_map f (Signal_filter p (Subject source))))
                 (DUser k) (CUser k')) st) in
  let injected := exec (Subject_dispatch source v) ready in
  queue ready = []
  /\ received k (trace (run n injected)) = received k (trace st) ++ orbit p f n v
  /\ (forallb p (orbit p f n v) = false -> queue (run n injected) = [])
  /\ (forallb p (orbit p f n v) = true ->
      exists pr, queue (run n injected) = [MDispatch source (Nat.iter n f v) pr]).
Proof.
  intros Hq. cbv zeta. rewrite (feedback_loop_ready p f k k' st Hq).
  set (ready := set_next_fn _ _).
  assert (Hr : received k (trace ready) = received k (trace st)).
  { unfold ready. autorewrite with setters. rewrite received_app. simpl. apply app_nil_r. }
  assert (Hqr : queue ready = []) by (unfold ready; by autorewrite with setters).
  assert (Hsr : subjects ready !! length (subjects st)
                = Some (mkSubject
                          [DUser k;
                           DFilter (S (S (S (next_fn st)))) p
                             (DMap (S (S (next_fn st))) f (DBound (next_fn st) (length (subjects st))))]
                          [CUser k'; CBound (S (next_fn st)) (length (subjects st))])).
  { unfold ready. autorewrite with setters. apply lookup_fresh. }
  clearbody ready. split; [done|].
  unfold exec. rewrite Subject_dispatch_state. cbn [snd].
  set (injected := set_queue _ _).
  destruct (feedback_run (length (subjects st)) k _ _ _ p f _ n v
              (length (promises ready)) injected
              ltac:(unfold injected; autorewrite with setters; exact Hsr))
    as (H1 & H2 & H3 & _).
  - unfold injected. autorewrite with setters. by rewrite Hqr.
  - unfold injected. autorewrite with setters. apply lookup_fresh.
  - split; [|by split]. rewrite H1. unfold injected. autorewrite with setters.
    by rewrite Hr.
Qed.

(** ** Completion of the identity loop *)

(** One turn of a completion of the hub of the loop whose handler returns
    its source: the caller is completed and the hub's own bound [complete]
    schedules the completion again. *)
Lemma identity_completion_turn source (k' n2 : nat) ds pr q (st : State T) :
  subjects st !! source = Some (mkSubject ds [CUser k'; CBound n2 source]) ->
  queue st = MComplete source pr :: q ->
  promises st !! pr = Some (Pending []) ->
  turn st
  = set_trace (trace st ++ [Completed k'; Resolved pr])
      (set_queue (q ++ [MComplete source (length (promises st))])
         (set_promises (<[pr := Fulfilled VVoid]> (promises st ++ [Pending []])) st)).
Proof.
  intros Hs Hq Hp. destruct st as [subs proms cls als q0 tr nf].
  simpl in Hs, Hq, Hp. subst q0.
  unfold turn. record_norm. cbn [run_microtask]. unfold get_completes. record_norm.
  rewrite Hs. cbn [completes forEach call_complete]. unfold Subject_complete. record_norm.
  rewrite (resolve_pending pr _ []) by (by apply lookup_app_l_Some).
  record_norm. by rewrite <- !app_assoc, app_nil_r.
Qed.

Lemma identity_completion_run source (k' n2 : nat) ds (n : nat) :
  forall pr (st : State T),
  subjects st !! source = Some (mkSubject ds [CUser k'; CBound n2 source]) ->
  queue st = [MComplete source pr] ->
  promises st !! pr = Some (Pending []) ->
  completions k' (trace (run n st)) = completions k' (trace st) + n
  /\ (forall j, received j (trace (run n st)) = received j (trace st))
  /\ exists pr', queue (run n st) = [MComplete source pr'].
Proof.
  induction n as [|n IH]; intros pr st Hs Hq Hp.
  - simpl. split; [lia|]. split; [done|]. by exists pr.
  - rewrite run_S, (identity_completion_turn source k' n2 ds pr [] st Hs Hq Hp).
    assert (Hlt : pr < length (promises st)) by (by eapply lookup_lt_Some).
    edestruct (IH (length (promises st))) as (Hc & Hr & Hq'); last first.
    + split; [|split; [|exact Hq']].
      * rewrite Hc. autorewrite with setters. rewrite completions_app. simpl.
        rewrite Nat.eqb_refl. lia.
      * intros j. rewrite Hr. autorewrite with setters. rewrite received_app. simpl.
        apply app_nil_r.
    + autorewrite with setters. rewrite list_lookup_insert_ne by lia. apply lookup_fresh.
    + by autorewrite with setters.
    + by autorewrite with setters.
Qed.

(** X16. In the loop whose handler returns its source the hub holds the
    subscriber's completion callback and its own bound [complete]. So one
    completion of the hub never ends: each turn calls the subscriber's
    completion callback once more and queues the next completion; after [n]
    turns the subscriber has been completed [n] times, a completion is
    still queued, and no value has been delivered. *)
Theorem identity_loop_completion_goes_round (k k' : nat) (n : nat) (st : State T) :
  queue st = [] ->
  let source := length (subjects st) in
  let ready := run 2 (exec (subscribe (Signal_loop Subject) (DUser k) (CUser k')) st) in
  let completing := exec (Subject_complete source) ready in
  completions k' (trace (run n completing)) = completions k' (trace st) + n
  /\ received k (trace (run n completing)) = received k (trace st)
  /\ exists pr, queue (run n completing) = [MComplete source pr].
Proof.
  intros Hq. cbv zeta. rewrite (identity_loop_ready k k' st Hq).
  set (ready := set_next_fn _ _).
  assert (Hr : forall j, received j (trace ready) = received j (trace st)).
  { intros j. unfold ready. autorewrite with setters. rewrite received_app. simpl.
    apply app_nil_r. }
  assert (Hc : completions k' (trace ready) = completions k' (trace st)).
  { unfold ready. autorewrite with setters. rewrite completions_app. simpl. lia. }
  assert (Hqr : queue ready = []) by (unfold ready; by autorewrite with setters).
  assert (Hsr : subjects ready !! length (subjects st)
                = Some (mkSubject [DUser k; DBound (next_fn st) (length (subjects st))]
                                  [CUser k'; CBound (S (next_fn st)) (length (subjects st))])).
  { unfold ready. autorewrite with setters. apply lookup_fresh. }
  clearbody ready.
  unfold exec. rewrite Subject_complete_state. cbn [snd].
  set (completing := set_queue _ _).
  destruct (identity_completion_run (length (subjects st)) k' _ _ n
              (length (promises ready)) completing
              ltac:(unfold completing; autorewrite with setters; exact Hsr))
    as (H1 & H2 & H3).
  - unfold completing. autorewrite with setters. by rewrite Hqr.
  - unfold completing. autorewrite with setters. apply lookup_fresh.
  - split; [|split; [|done]].
    + rewrite H1. unfold completing. autorewrite with setters. by rewrite Hc.
    + rewrite H2. unfold completing. autorewrite with setters. apply Hr.
Qed.

End Coverage.

(** ** The further properties on concrete stores *)

Lemma unsubscribed_before_emit_misses_value_witness :
  let st1 := exec (call_unsub (USubject 0 (DUser 0) (CUser 0))) two_subscribers in
  let st2 := turn (exec (Subject_dispatch 0 5%Z) st1) in
  queue two_subscribers = []
  /\ trace st2 = [Received 1 5%Z; Resolved 2]
  /\ received 0 (trace st2) = [].
Proof.
  cbv zeta. split; [reflexivity|].
  destruct (unsubscribed_before_emit_misses_value (T:=Z) 0
              (mkSubject [DUser 0; DUser 1] [CUser 0; CUser 1]) [0; 1] 0 (CUser 0) 5%Z
              two_subscribers eq_refl eq_refl eq_refl) as (H1 & H2 & _).
  split; [exact H1 | exact H2].
Defined.

Lemma subscribe_then_unsubscribe_restores_witness :
  let st1 := exec (Subject_subscribe 0 (DUser 2) (CUser 2)) two_subscribers in
  subjects st1 !! 0 = Some (mkSubject [DUser 0; DUser 1; DUser 2] [CUser 0; CUser 1; CUser 2])
  /\ exec (call_unsub (USubject 0 (DUser 2) (CUser 2))) st1
     = set_promises (promises two_subscribers
                       ++ [Fulfilled (VUnsub (USubject 0 (DUser 2) (CUser 2)))])
         two_subscribers.
Proof.
  cbv zeta.
  destruct (subscribe_then_unsubscribe_restores (T:=Z) 0
              (mkSubject [DUser 0; DUser 1] [CUser 0; CUser 1]) (DUser 2) (CUser 2)
              two_subscribers eq_refl eq_refl eq_refl) as (H1 & _ & H3).
  split; [exact H1 | exact H3].
Defined.

Lemma emissions_arrive_in_call_order_witness :
  let st1 := exec (forEach (fun v => bind (Subject_dispatch 0 v) (fun _ => ret tt))
                     [7; 8; 9]%Z) two_subscribers in
  let st2 := run 3 st1 in
  NoDup [0; 1]
  /\ queue st2 = []
  /\ received 0 (trace st2) = [7; 8; 9]%Z
  /\ received 1 (trace st2) = [7; 8; 9]%Z
  /\ received 2 (trace st2) = [].
Proof.
  cbv zeta.
  assert (Hnd : NoDup [0; 1]).
  { apply NoDup_cons_2; [|apply NoDup_singleton].
    rewrite list_elem_of_In. cbn. intuition discriminate. }
  split; [exact Hnd|].
  destruct (emissions_arrive_in_call_order (T:=Z) 0
              (mkSubject [DUser 0; DUser 1] [CUser 0; CUser 1]) [0; 1] [7; 8; 9]%Z
              two_subscribers eq_refl eq_refl eq_refl Hnd) as (_ & _ & H3 & H4 & H5).
  split; [exact H3|].
  split; [exact (H4 0 (or_introl eq_refl))|].
  split; [exact (H4 1 (or_intror (or_introl eq_refl)))|].
  apply (H5 2). cbn. intuition discriminate.
Defined.

Lemma late_subscriber_misses_earlier_value_witness :
  let emitted := turn (exec (Subject_dispatch 0 5%Z) two_subscribers) in
  let st' := exec (Subject_subscribe 0 (DUser 2) (CUser 2)) emitted in
  ~ In 2 [0; 1]
  /\ trace emitted = [Received 0 5%Z; Received 1 5%Z; Resolved 2]
  /\ received 2 (trace (run 4 st')) = [].
Proof.
  cbv zeta.
  assert (Hk : ~ In 2 [0; 1]) by (cbn; intuition discriminate).
  split; [exact Hk|].
  destruct (late_subscriber_misses_earlier_value (T:=Z) 0
              (mkSubject [DUser 0; DUser 1] [CUser 0; CUser 1]) [0; 1] 2 (CUser 2) 5%Z 4
              two_subscribers eq_refl eq_refl eq_refl Hk) as (H1 & _ & _ & H4).
  split; [exact H1 | exact H4].
Defined.

Lemma membership_sets_stay_distinct_witness :
  sets_distinct (init (T:=Z))
  /\ sets_distinct
       (run 3 (exec (subscribe (Signal_loop Subject) (DUser 0) (CUser 0)) (init (T:=Z)))).
Proof.
  assert (H0 : sets_distinct (init (T:=Z))) by constructor.
  split; [exact H0|].
  destruct (membership_sets_stay_distinct (T:=Z) init H0) as (H1 & _).
  destruct (membership_sets_stay_distinct (T:=Z) _
              (H1 (Signal_loop Subject) (DUser 0) (CUser 0))) as (_ & _ & _ & _ & H5 & _).
  exact (H5 3).
Defined.

Lemma map_filter_subscription_on_subject_witness :
  let signal := Signal_filter Z.even (Signal_map Z.succ (Subject 0)) in
  let st1 := exec (subscribe signal (DUser 2) (CUser 2)) two_subscribers in
  ~ In 2 [0; 1]
  /\ trace (turn (exec (Subject_dispatch 0 3%Z) st1))
     = [Received 0 3%Z; Received 1 3%Z; Received 2 4%Z; Resolved 3]
  /\ trace (turn (exec (Subject_complete 0) st1))
     = [Completed 0; Completed 1; Completed 2; Resolved 3]
  /\ subjects (exec (call_unsub (USubject 0 (DMap 1 Z.succ (DFilter 0 Z.even (DUser 2)))
                                   (CUser 2))) st1)
     = subjects two_subscribers.
Proof.
  cbv zeta.
  assert (Hk : ~ In 2 [0; 1]) by (cbn; intuition discriminate).
  split; [exact Hk|].
  destruct (map_filter_subscription_on_subject (T:=Z) 0
              (mkSubject [DUser 0; DUser 1] [CUser 0; CUser 1]) [0; 1] [0; 1]
              Z.succ Z.even 2 2 3%Z two_subscribers eq_refl eq_refl eq_refl eq_refl Hk)
    as (_ & _ & H3 & H4 & H5).
  split; [exact H3|]. split; [exact H4 | exact H5].
Defined.

Lemma shared_completion_callback_leaves_with_first_witness :
  let st1 := exec (subscribe (Signal_map Z.succ (Subject 0)) (DUser 2) (CUser 2))
               two_subscribers in
  let st2 := exec (subscribe (Signal_map Z.pred (Subject 0)) (DUser 3) (CUser 2)) st1 in
  let st3 := exec (call_unsub (USubject 0 (DMap 0 Z.succ (DUser 2)) (CUser 2))) st2 in
  ~ In 2 [0; 1]
  /\ trace (turn (exec (Subject_dispatch 0 5%Z) st3))
     = [Received 0 5%Z; Received 1 5%Z; Received 3 4%Z; Resolved 4]
  /\ trace (turn (exec (Subject_complete 0) st3))
     = [Completed 0; Completed 1; Resolved 4].
Proof.
  cbv zeta.
  assert (Hk : ~ In 2 [0; 1]) by (cbn; intuition discriminate).
  split; [exact Hk|].
  destruct (shared_completion_callback_leaves_with_first (T:=Z) 0
              (mkSubject [DUser 0; DUser 1] [CUser 0; CUser 1]) [0; 1] [0; 1]
              Z.succ Z.pred 2 3 2 5%Z two_subscribers eq_refl eq_refl eq_refl eq_refl Hk)
    as (_ & _ & _ & H4 & H5).
  split; [exact H4 | exact H5].
Defined.

Lemma merge_of_subjects_unsubscribes_every_input_witness :
  let st : State Z := exec new_Subject (exec new_Subject init) in
  let us := [USubject 0 (DUser 0) (CMerge 0 0 (CUser 0));
             USubject 1 (DUser 0) (CMerge 1 0 (CUser 0))] in
  let st1 := exec (subscribe (Signal_merge [Subject 0; Subject 1]) (DUser 0) (CUser 0)) st in
  let st2 := run 3 st1 in
  (forall s, In s [0; 1] -> s < length (subjects st))
  /\ holds 0 (DUser 0) st1
  /\ holds 1 (DUser 0) st1
  /\ fulfilled 0 st2 = Some (VUnsub (UMerge us))
  /\ lacks 0 (DUser 0) (exec (call_unsub (UMerge us)) st2)
  /\ lacks 1 (DUser 0) (exec (call_unsub (UMerge us)) st2).
Proof.
  cbv zeta.
  assert (Hin : forall s, In s [0; 1]
                  -> s < length (subjects (exec new_Subject (exec new_Subject (init (T:=Z)))))).
  { intros s [<-|[<-|[]]]; cbn; lia. }
  split; [exact Hin|].
  destruct (merge_of_subjects_unsubscribes_every_input (T:=Z) (DUser 0) (CUser 0) [0; 1]
              (exec new_Subject (exec new_Subject init)) eq_refl (le_S 1 1 (le_n 1)) Hin)
    as (_ & _ & H3 & H4 & _ & _ & _ & H8).
  split; [exact (H3 0 (or_introl eq_refl))|].
  split; [exact (H3 1 (or_intror (or_introl eq_refl)))|].
  split; [exact H4|].
  split; [exact (H8 0 (or_introl eq_refl)) | exact (H8 1 (or_intror (or_introl eq_refl)))].
Defined.

Lemma merge_of_a_subject_with_itself_witness :
  let st2 := run 3 (exec (subscribe (Signal_merge [Subject 0; Subject 0])
                            (DUser 2) (CUser 2)) two_subscribers) in
  ~ In 2 [0; 1]
  /\ subjects st2 !! 0
     = Some (mkSubject [DUser 0; DUser 1; DUser 2]
                       [CUser 0; CUser 1; CMerge 0 0 (CUser 2); CMerge 1 0 (CUser 2)])
  /\ received 2 (trace (turn (exec (Subject_dispatch 0 5%Z) st2))) = [5%Z]
  /\ completions 2 (trace (turn (exec (Subject_complete 0) st2))) = 1.
Proof.
  cbv zeta.
  assert (Hk : ~ In 2 [0; 1]) by (cbn; intuition discriminate).
  split; [exact Hk|].
  destruct (merge_of_a_subject_with_itself (T:=Z) 0
              (mkSubject [DUser 0; DUser 1] [CUser 0; CUser 1]) [0; 1] [0; 1] 2 2 5%Z
              two_subscribers eq_refl eq_refl eq_refl Hk eq_refl Hk)
    as (H1 & _ & _ & _ & H5 & H6).
  split; [exact H1|]. split; [exact H5 | exact H6].
Defined.

Lemma loop_over_of_delivers_payloads_then_completion_witness :
  let fin := run 6 (exec (subscribe (Signal_loop (fun _ => Signal_of [1; 2; 3]%Z))
                            (DUser 0) (CUser 0)) (init (T:=Z))) in
  queue (init (T:=Z)) = []
  /\ received 0 (trace fin) = [1; 2; 3]%Z
  /\ completions 0 (trace fin) = 1
  /\ queue fin = []
  /\ fulfilled 0 fin = Some (VUnsub (ULoop 0 UNoop)).
Proof.
  cbv zeta. split; [reflexivity|].
  destruct (loop_over_of_delivers_payloads_then_completion (T:=Z) [1; 2; 3]%Z 0 0 init eq_refl)
    as (_ & H2 & H3 & H4 & _ & H6).
  split; [exact H2|]. split; [exact H3|]. split; [exact H4 | exact H6].
Defined.

Lemma loop_unsubscribe_after_completion_completes_again_witness :
  let fin := run 6 (exec (subscribe (Signal_loop (fun _ => Signal_of [1; 2; 3]%Z))
                            (DUser 0) (CUser 0)) (init (T:=Z))) in
  let again := turn (exec (call_unsub (ULoop 0 UNoop)) fin) in
  queue (init (T:=Z)) = []
  /\ completions 0 (trace fin) = 1
  /\ completions 0 (trace again) = 2
  /\ received 0 (trace again) = [1; 2; 3]%Z.
Proof.
  cbv zeta. split; [reflexivity|].
  destruct (loop_unsubscribe_after_completion_completes_again (T:=Z) [1; 2; 3]%Z 0 0 init eq_refl)
    as (_ & H2 & H3 & H4 & _).
  split; [exact H2|]. split; [exact H3 | exact H4].
Defined.

Lemma feedback_loop_delivers_orbit_until_rejection_witness :
  let p := fun x : Z => (x <? 10)%Z in
  let f := fun x : Z => (2 * x)%Z in
  let ready := run 2 (exec (subscribe
                 (Signal_loop (fun source => Signal_map f (Signal_filter p (Subject source))))
                 (DUser 0) (CUser 0)) (init (T:=Z))) in
  let injected := exec (Subject_dispatch 0 1%Z) ready in
  queue (init (T:=Z)) = []
  /\ orbit p f 6 1%Z = [1; 2; 4; 8; 16]%Z
  /\ received 0 (trace (run 6 injected)) = [1; 2; 4; 8; 16]%Z
  /\ queue (run 6 injected) = []
  /\ exists pr, queue (run 3 injected) = [MDispatch 0 8%Z pr].
Proof.
  cbv zeta. split; [reflexivity|]. split; [reflexivity|].
  destruct (feedback_loop_delivers_orbit_until_rejection (T:=Z)
              (fun x : Z => (x <? 10)%Z) (fun x : Z => (2 * x)%Z) 0 0 1%Z 6 init eq_refl)
    as (_ & H2 & H3 & _).
  destruct (feedback_loop_delivers_orbit_until_rejection (T:=Z)
              (fun x : Z => (x <? 10)%Z) (fun x : Z => (2 * x)%Z) 0 0 1%Z 3 init eq_refl)
    as (_ & _ & _ & H4).
  split; [exact H2|]. split; [exact (H3 eq_refl) | exact (H4 eq_refl)].
Defined.

Lemma identity_loop_completion_goes_round_witness :
  let ready := run 2 (exec (subscribe (Signal_loop Subject) (DUser 0) (CUser 0)) (init (T:=Z))) in
  let completing := exec (Subject_complete 0) ready in
  queue (init (T:=Z)) = []
  /\ completions 0 (trace (run 5 completing)) = 5
  /\ received 0 (trace (run 5 completing)) = [].
Proof.
  cbv zeta. split; [reflexivity|].
  destruct (identity_loop_completion_goes_round (T:=Z) 0 0 5 init eq_refl) as (H1 & H2 & _).
  split; [exact H1 | exact H2].
Defined.

Lemma subject_unsubscribe_idempotent_witness :
  let u := USubject 0 (DUser 1) (CUser 1) in
  let gone := USubject 0 (DUser 2) (CUser 2) in
  exec (call_unsub u) (exec (call_unsub u) two_subscribers)
  = exec (call_unsub u) two_subscribers
  /\ exec (call_unsub gone) two_subscribers = two_subscribers.
Proof.
  cbv zeta.
  destruct (subject_unsubscribe_idempotent (T:=Z) 0 (DUser 1) (CUser 1) two_subscribers)
    as (H1 & _).
  destruct (subject_unsubscribe_idempotent (T:=Z) 0 (DUser 2) (CUser 2) two_subscribers)
    as (_ & H2).
  split; [exact H1|].
  exact (H2 (mkSubject [DUser 0; DUser 1] [CUser 0; CUser 1]) eq_refl eq_refl eq_refl).
Defined.
